(** * Verification of the data-sync ingestion engine

    A shallow embedding of the ingestion engine (cursor codec and
    partitioner, timestamp normaliser and page mapper, rate limiter,
    retry wrapper, events source, stream token cache, configuration
    loader, repositories, write queue, orchestrator start-up and the
    per-partition worker loop) together with the properties the
    specification states about them and further properties read off the
    code.

    Conventions of the embedding:
    - a JavaScript [number] that holds an integer is a [Z]; it is exact on
      the safe-integer range (|n| < 2^53), which contains every epoch
      millisecond value the program handles.  Numbers that may be
      fractional (delays, chunk widths) are rationals [Q], i.e. the
      arithmetic is the exact one, without binary rounding;
    - a JavaScript string is a [string] of bytes; all strings the codec
      builds are ASCII, for which UTF-8 encoding is the identity;
    - [null] is [None];
    - a rejected promise or a thrown exception is [Err e];
    - a collaborator whose answers the program does not control (the
      server, the clock, the random generator, built-ins that are not
      modelled) is a function or a value given to the model; asynchronous
      calls are followed one at a time, from their start to their end. *)

From Stdlib Require Import ZArith QArith Qround Lia Lqa List String Ascii Bool.
From Stdlib Require Import DecimalPos DecimalN DecimalFacts.
From stdpp Require Import gmap strings list fin_maps sorting.

Local Open Scope string_scope.
Local Open Scope Z_scope.

(** ** Errors and results *)

(** The kinds of request the program sends to the database. *)
Inductive Stmt :=
| SConnect | SBegin | SInsertEvents | SUpdateCheckpoint | SCommit | SRollback
| SInitCheckpoints | STruncate.

Inductive Error :=
| HttpError (status : Z)
| DriverError (stmt : Stmt)
| DbError (operation : string) (cause : Error)
| JsError (msg : string).

Inductive Result (A : Type) :=
| Ok (a : A)
| Err (e : Error).
Arguments Ok {A} a.
Arguments Err {A} e.

Definition is_ok {A} (r : Result A) : bool :=
  match r with Ok _ => true | Err _ => false end.

(** A value of unknown type, as far as the timestamp normaliser and the
    event mapper tell values apart. *)
Inductive JsValue :=
| VNum (q : Q)          (* a finite number *)
| VNonFinite            (* NaN, Infinity, -Infinity *)
| VStr (s : string)
| VOther.               (* null, undefined, booleans, objects *)

(** ** The built-ins the program calls *)

Module Js.

(** *** Base64 as [Buffer] implements it *)

Definition alphabet : string :=
  "ABCDEFGHIJKLMNOPQRSTUVWXYZabcdefghijklmnopqrstuvwxyz0123456789+/".

(** A sextet is kept in the low six bits of an [ascii]. *)
Definition b64_char (idx : ascii) : ascii :=
  match String.get (nat_of_ascii idx) alphabet with
  | Some c => c
  | None => "="%char
  end.

Definition in_range (lo hi c : ascii) : bool :=
  (N_of_ascii lo <=? N_of_ascii c)%N && (N_of_ascii c <=? N_of_ascii hi)%N.

(** The decoder of [Buffer.from(s, 'base64')] accepts the standard and the
    URL-safe alphabet alike. *)
Definition b64_index (c : ascii) : option ascii :=
  let n := N_of_ascii c in
  if in_range "A" "Z" c then Some (ascii_of_N (n - 65))
  else if in_range "a" "z" c then Some (ascii_of_N (n - 97 + 26))
  else if in_range "0" "9" c then Some (ascii_of_N (n - 48 + 52))
  else if (c =? "+")%char || (c =? "-")%char then Some (ascii_of_N 62)
  else if (c =? "/")%char || (c =? "_")%char then Some (ascii_of_N 63)
  else None.

(** Three bytes are regrouped into four sextets, most significant bit
    first; [Ascii] lists its bits least significant first. *)
Definition sextet1 (a : ascii) : ascii :=
  let '(Ascii a0 a1 a2 a3 a4 a5 a6 a7) := a in
  Ascii a2 a3 a4 a5 a6 a7 false false.
Definition sextet2 (a b : ascii) : ascii :=
  let '(Ascii a0 a1 a2 a3 a4 a5 a6 a7) := a in
  let '(Ascii b0 b1 b2 b3 b4 b5 b6 b7) := b in
  Ascii b4 b5 b6 b7 a0 a1 false false.
Definition sextet3 (b c : ascii) : ascii :=
  let '(Ascii b0 b1 b2 b3 b4 b5 b6 b7) := b in
  let '(Ascii c0 c1 c2 c3 c4 c5 c6 c7) := c in
  Ascii c6 c7 b0 b1 b2 b3 false false.
Definition sextet4 (c : ascii) : ascii :=
  let '(Ascii c0 c1 c2 c3 c4 c5 c6 c7) := c in
  Ascii c0 c1 c2 c3 c4 c5 false false.

Definition byte1 (s1 s2 : ascii) : ascii :=
  let '(Ascii p0 p1 p2 p3 p4 p5 _ _) := s1 in
  let '(Ascii q0 q1 q2 q3 q4 q5 _ _) := s2 in
  Ascii q4 q5 p0 p1 p2 p3 p4 p5.
Definition byte2 (s2 s3 : ascii) : ascii :=
  let '(Ascii q0 q1 q2 q3 q4 q5 _ _) := s2 in
  let '(Ascii r0 r1 r2 r3 r4 r5 _ _) := s3 in
  Ascii r2 r3 r4 r5 q0 q1 q2 q3.
Definition byte3 (s3 s4 : ascii) : ascii :=
  let '(Ascii r0 r1 r2 r3 r4 r5 _ _) := s3 in
  let '(Ascii t0 t1 t2 t3 t4 t5 _ _) := s4 in
  Ascii t0 t1 t2 t3 t4 t5 r0 r1.

Definition zero_byte : ascii := Ascii false false false false false false false false.

(** [buf.toString('base64')]: padded standard base64. *)
Fixpoint base64_encode (bytes : string) : string :=
  match bytes with
  | String a (String b (String c rest)) =>
      String (b64_char (sextet1 a)) (String (b64_char (sextet2 a b))
        (String (b64_char (sextet3 b c)) (String (b64_char (sextet4 c))
          (base64_encode rest))))
  | String a (String b EmptyString) =>
      String (b64_char (sextet1 a)) (String (b64_char (sextet2 a b))
        (String (b64_char (sextet3 b zero_byte)) "="))
  | String a EmptyString =>
      String (b64_char (sextet1 a)) (String (b64_char (sextet2 a zero_byte)) "==")
  | EmptyString => EmptyString
  end.

(** The sextets of the leading run of alphabet characters; the padding
    character, like any character outside the alphabet, ends the data. *)
Fixpoint sextets_of (s : string) : list ascii :=
  match s with
  | EmptyString => []
  | String c rest =>
      match b64_index c with
      | Some i => i :: sextets_of rest
      | None => []
      end
  end.

(** Padding is optional for the decoder: two trailing sextets give one
    byte, three give two, a lone one gives none. *)
Fixpoint bytes_of_sextets (l : list ascii) : string :=
  match l with
  | s1 :: s2 :: s3 :: s4 :: rest =>
      String (byte1 s1 s2) (String (byte2 s2 s3) (String (byte3 s3 s4)
        (bytes_of_sextets rest)))
  | [s1; s2; s3] => String (byte1 s1 s2) (String (byte2 s2 s3) EmptyString)
  | [s1; s2] => String (byte1 s1 s2) EmptyString
  | _ => EmptyString
  end.

Definition base64_decode (s : string) : string := bytes_of_sextets (sextets_of s).

(** [s.replace(/x/g, y)] for single characters. *)
Fixpoint replace_char (x y : ascii) (s : string) : string :=
  match s with
  | EmptyString => EmptyString
  | String c rest => String (if (c =? x)%char then y else c) (replace_char x y rest)
  end.

(** [s.replace(/=+$/, '')]: drop the trailing run of padding. *)
Fixpoint strip_padding (s : string) : string :=
  match s with
  | EmptyString => EmptyString
  | String c rest =>
      match strip_padding rest with
      | EmptyString => if (c =? "=")%char then EmptyString else String c EmptyString
      | rest' => String c rest'
      end
  end.

(** *** The JSON fragment of cursor payloads

    [JSON.stringify] and [JSON.parse] on flat objects whose members are
    strings without escape sequences, integers and the three literals;
    this is the shape of every cursor payload.  Nested values, escapes,
    fractions and exponents are outside the fragment and are reported as a
    parse failure. *)

(** The double quote character. *)
Definition dquote : ascii := "034"%char.

Inductive json :=
| JNull
| JBool (b : bool)
| JNum (n : Z)
| JStr (s : string).

Fixpoint digits_string (d : Decimal.uint) : string :=
  match d with
  | Decimal.Nil => EmptyString
  | Decimal.D0 r => String "0" (digits_string r)
  | Decimal.D1 r => String "1" (digits_string r)
  | Decimal.D2 r => String "2" (digits_string r)
  | Decimal.D3 r => String "3" (digits_string r)
  | Decimal.D4 r => String "4" (digits_string r)
  | Decimal.D5 r => String "5" (digits_string r)
  | Decimal.D6 r => String "6" (digits_string r)
  | Decimal.D7 r => String "7" (digits_string r)
  | Decimal.D8 r => String "8" (digits_string r)
  | Decimal.D9 r => String "9" (digits_string r)
  end.

(** [String(n)] for an integer [n]: decimal digits, a leading minus sign
    for negatives. *)
Definition Number_toString (n : Z) : string :=
  match n with
  | Z0 => "0"
  | Zpos p => digits_string (Pos.to_uint p)
  | Zneg p => String "-" (digits_string (Pos.to_uint p))
  end.

Definition is_digit (c : ascii) : bool := in_range "0" "9" c.

Definition digit_value (c : ascii) : Z := Z.of_N (N_of_ascii c) - 48.

(** Value of a digit string read left to right, starting from [acc]. *)
Fixpoint digits_value (acc : Z) (s : string) : Z :=
  match s with
  | EmptyString => acc
  | String c rest => digits_value (10 * acc + digit_value c) rest
  end.

Definition stringify_value (v : json) : string :=
  match v with
  | JNull => "null"
  | JBool true => "true"
  | JBool false => "false"
  | JNum n => Number_toString n
  | JStr s => String dquote (s ++ String dquote EmptyString)
  end.

Definition stringify_member (m : string * json) : string :=
  String dquote (fst m ++ String dquote (":" ++ stringify_value (snd m))).

Fixpoint stringify_members (ms : list (string * json)) : string :=
  match ms with
  | [] => EmptyString
  | [m] => stringify_member m
  | m :: rest => stringify_member m ++ "," ++ stringify_members rest
  end.

(** [JSON.stringify] of an object literal: members in insertion order, no
    white space. *)
Definition JSON_stringify (ms : list (string * json)) : string :=
  "{" ++ stringify_members ms ++ "}".

Inductive token :=
| TLBrace | TRBrace | TColon | TComma
| TStr (s : string)
| TNum (n : Z)
| TLit (v : json).

Inductive lex_state :=
| LDefault
| LStr (acc : string)
| LNum (neg : bool) (digits : string)
| LWord (acc : string).

Definition is_space (c : ascii) : bool :=
  (c =? " ")%char || (c =? "009")%char || (c =? "010")%char || (c =? "013")%char.

Definition is_lower (c : ascii) : bool := in_range "a" "z" c.

(** A number token is complete: it needs a digit, and no leading zero in
    front of further digits. *)
Definition finish_number (neg : bool) (digits : string) : option token :=
  match digits with
  | EmptyString => None
  | String "0" (String _ _) => None
  | _ => let v := digits_value 0 digits in
         Some (TNum (if neg then - v else v))
  end.

Definition finish_word (w : string) : option token :=
  if (w =? "null")%string then Some (TLit JNull)
  else if (w =? "true")%string then Some (TLit (JBool true))
  else if (w =? "false")%string then Some (TLit (JBool false))
  else None.

(** What a character does when no token is open. *)
Definition lex_start (c : ascii) : option (list token * lex_state) :=
  if is_space c then Some ([], LDefault)
  else if (c =? "{")%char then Some ([TLBrace], LDefault)
  else if (c =? "}")%char then Some ([TRBrace], LDefault)
  else if (c =? ":")%char then Some ([TColon], LDefault)
  else if (c =? ",")%char then Some ([TComma], LDefault)
  else if (c =? dquote)%char then Some ([], LStr EmptyString)
  else if (c =? "-")%char then Some ([], LNum true EmptyString)
  else if is_digit c then Some ([], LNum false (String c EmptyString))
  else if is_lower c then Some ([], LWord (String c EmptyString))
  else None.

Definition close_then_start (t : option token) (c : ascii)
  : option (list token * lex_state) :=
  match t, lex_start c with
  | Some tk, Some (ts, st) => Some (tk :: ts, st)
  | _, _ => None
  end.

Definition lex_step (st : lex_state) (c : ascii) : option (list token * lex_state) :=
  match st with
  | LDefault => lex_start c
  | LStr acc =>
      if (c =? dquote)%char then Some ([TStr acc], LDefault)
      else if (c =? "\")%char then None
      else if (N_of_ascii c <? 32)%N then None
      else Some ([], LStr (acc ++ String c EmptyString))
  | LNum neg ds =>
      if is_digit c then Some ([], LNum neg (ds ++ String c EmptyString))
      else if (c =? ".")%char || (c =? "e")%char || (c =? "E")%char then None
      else close_then_start (finish_number neg ds) c
  | LWord w =>
      if is_lower c then Some ([], LWord (w ++ String c EmptyString))
      else close_then_start (finish_word w) c
  end.

Definition lex_end (st : lex_state) : option (list token) :=
  match st with
  | LDefault => Some []
  | LStr _ => None
  | LNum neg ds => option_map (fun t => [t]) (finish_number neg ds)
  | LWord w => option_map (fun t => [t]) (finish_word w)
  end.

Fixpoint lex (st : lex_state) (s : string) : option (list token) :=
  match s with
  | EmptyString => lex_end st
  | String c rest =>
      match lex_step st c with
      | Some (ts, st') => option_map (app ts) (lex st' rest)
      | None => None
      end
  end.

Definition token_value (t : token) : option json :=
  match t with
  | TStr s => Some (JStr s)
  | TNum n => Some (JNum n)
  | TLit v => Some v
  | _ => None
  end.

(** Members after the opening brace, each followed by a comma or by the
    closing brace, which must be the last token. *)
Fixpoint parse_members (ts : list token) : option (list (string * json)) :=
  match ts with
  | TStr k :: TColon :: v :: sep :: rest =>
      match token_value v, sep with
      | Some jv, TComma =>
          match rest with
          | [] => None
          | _ => option_map (cons (k, jv)) (parse_members rest)
          end
      | Some jv, TRBrace =>
          match rest with
          | [] => Some [(k, jv)]
          | _ => None
          end
      | _, _ => None
      end
  | _ => None
  end.

(** [JSON.parse], restricted to objects; [None] stands for the
    [SyntaxError] it throws. *)
Definition JSON_parse (s : string) : option (list (string * json)) :=
  match lex LDefault s with
  | Some [TLBrace; TRBrace] => Some []
  | Some (TLBrace :: ts) => parse_members ts
  | _ => None
  end.

(** [parsed[key]]: a key given twice keeps its last value. *)
Fixpoint get_property (key : string) (ms : list (string * json)) : option json :=
  match ms with
  | [] => None
  | (k, v) :: rest =>
      match get_property key rest with
      | Some v' => Some v'
      | None => if (k =? key)%string then Some v else None
      end
  end.

(** *** [Number] and [Date.parse] on strings *)

(** [/^\d+$/.test(s)] *)
Fixpoint digit_only (s : string) : bool :=
  match s with
  | EmptyString => false
  | String c EmptyString => is_digit c
  | String c rest => is_digit c && digit_only rest
  end.

(** [Number(s)] for a digit-only [s] is its decimal value; the result is
    a finite double when it rounds below 2^1024. *)
Definition Number_of_digits (s : string) : Z := digits_value 0 s.

Definition Number_isFinite (n : Z) : bool := n <? 2 ^ 1024 - 2 ^ 970.

Definition is_leap (y : Z) : bool :=
  ((y mod 4 =? 0) && negb (y mod 100 =? 0)) || (y mod 400 =? 0).

Definition days_in_month (y m : Z) : Z :=
  if m =? 2 then (if is_leap y then 29 else 28)
  else if (m =? 4) || (m =? 6) || (m =? 9) || (m =? 11) then 30
  else 31.

(** Days from 1970-01-01 to the given civil date (proleptic Gregorian). *)
Definition days_from_civil (y m d : Z) : Z :=
  let y' := if m <=? 2 then y - 1 else y in
  let era := y' / 400 in
  let yoe := y' - era * 400 in
  let doy := (153 * (if 2 <? m then m - 3 else m + 9) + 2) / 5 + d - 1 in
  let doe := yoe * 365 + yoe / 4 - yoe / 100 + doy in
  era * 146097 + doe - 719468.

(** Reads exactly [n] digits. *)
Fixpoint take_digits (n : nat) (acc : Z) (s : string) : option (Z * string) :=
  match n with
  | O => Some (acc, s)
  | S n' =>
      match s with
      | String c rest =>
          if is_digit c then take_digits n' (10 * acc + digit_value c) rest
          else None
      | EmptyString => None
      end
  end.

Definition expect (c : ascii) (s : string) : option string :=
  match s with
  | String c' rest => if (c' =? c)%char then Some rest else None
  | EmptyString => None
  end.

(** The time part after the [T]: [HH:mm:ss], optional [.sss], then [Z]. *)
Definition parse_time (s : string) : option Z :=
  '(h, s) ← take_digits 2 0 s;
  s ← expect ":" s;
  '(mi, s) ← take_digits 2 0 s;
  s ← expect ":" s;
  '(sec, s) ← take_digits 2 0 s;
  '(ms, s) ← match expect "." s with
              | Some s' => take_digits 3 0 s'
              | None => Some (0, s)
              end;
  match s with
  | "Z" =>
      if (h <=? 23) && (mi <=? 59) && (sec <=? 59)
      then Some (((h * 60 + mi) * 60 + sec) * 1000 + ms)
      else None
  | _ => None
  end.

(** [Date.parse] on the ECMAScript date-time string format in UTC:
    [YYYY-MM-DD] or [YYYY-MM-DDTHH:mm:ss(.sss)Z].  A value is what the
    engine returns for such a string.  [None] stands for NaN on these
    forms only: other forms that an engine reads (UTC offsets, dates
    past the end of a month, the implementation-defined formats) are not
    modelled, so the theorems use [Date_parse] only where it returns a
    value. *)
Definition Date_parse (s : string) : option Z :=
  '(y, s) ← take_digits 4 0 s;
  s ← expect "-" s;
  '(m, s) ← take_digits 2 0 s;
  s ← expect "-" s;
  '(d, s) ← take_digits 2 0 s;
  if (1 <=? m) && (m <=? 12) && (1 <=? d) && (d <=? days_in_month y m) then
    let day_ms := days_from_civil y m d * 86400000 in
    match s with
    | EmptyString => Some day_ms
    | String "T" t => t_ms ← parse_time t; Some (day_ms + t_ms)
    | _ => None
    end
  else None.

End Js.

(** ** Cursor codec and partitioner (core/cursor-forge) *)

Module CursorForge.
Import Js.

Definition toBase64Url (str : string) : string :=
  strip_padding (replace_char "/" "_" (replace_char "+" "-" (base64_encode str))).

Definition fromBase64Url (b64 : string) : string :=
  let padded := replace_char "_" "/" (replace_char "-" "+" b64) in
  base64_decode padded.

(** *** The cursor codec *)

Definition NULL_UUID : string := "00000000-0000-0000-0000-000000000000".
Definition FAR_FUTURE_EXP : Z := 4102444800000.

Definition forgeCursor (timestampMs : Z) : string :=
  let payload := JSON_stringify
    [("id", JStr NULL_UUID); ("ts", JNum timestampMs); ("v", JNum 2);
     ("exp", JNum FAR_FUTURE_EXP)] in
  toBase64Url payload.

Definition decodeCursorTimestamp (cursor : string) : option Z :=
  let json := fromBase64Url cursor in
  match JSON_parse json with
  | Some parsed =>
      match get_property "ts" parsed with
      | Some (JNum ts) => Some ts
      | _ => None
      end
  | None => None
  end.

(** *** The partitioner *)

Record TimestampChunk := { startTs : Z; endTs : Z }.

(** The [i]-th interior boundary, [Math.floor(startTs + width * i)], in
    exact arithmetic.  The program computes the quotient and the product
    in binary64, where a product such as [122 / 14 * 7] falls just below
    its exact value 61 and is floored to 60: the value of a boundary is
    therefore not stated below, only the order and the coverage of the
    chunks. *)
Definition boundary (startTs : Z) (width : Q) (i : nat) : Z :=
  Qfloor (inject_Z startTs + width * inject_Z (Z.of_nat i)).

Definition createTimestampChunks (startTs endTs : Z) (count : nat)
  : list TimestampChunk :=
  let width := (inject_Z (endTs - startTs) / inject_Z (Z.of_nat count))%Q in
  map (fun i : nat =>
         let chunkStart := boundary startTs width i in
         let chunkEnd :=
           if (i =? count - 1)%nat then endTs + 1
           else boundary startTs width (i + 1) in
         {| startTs := chunkStart; endTs := chunkEnd |})
      (seq 0 count).

End CursorForge.

(** ** Timestamp normalisation and event mapping (mappers) *)

Module Mappers.
Import Js.

Definition SECONDS_LIMIT : Z := 1000000000000.

Definition invalid_timestamp : Error := JsError "Invalid timestamp".

Definition normalizeTimestampMs (value : JsValue) : Result Z :=
  match value with
  | VNum q =>
      let n := Qfloor q in
      Ok (if n <? SECONDS_LIMIT then n * 1000 else n)
  | VStr s =>
      if (0 <? String.length s)%nat then
        let fallback :=
          match Date_parse s with
          | Some parsed => Ok parsed
          | None => Err invalid_timestamp
          end in
        if digit_only s then
          let n := Number_of_digits s in
          if Number_isFinite n
          then Ok (if n <? SECONDS_LIMIT then n * 1000 else n)
          else fallback
        else fallback
      else Err invalid_timestamp
  | _ => Err invalid_timestamp
  end.

(** A raw event: its [id] and [timestamp] members, and the text
    [JSON.stringify] gives for the whole record. *)
Record RawEvent := {
  id : JsValue;
  timestamp : JsValue;
  raw_json : string
}.

Record IngestionEvent := {
  eventId : string;
  timestampMs : Z;
  payload : string
}.

Definition toIngestionEvent (raw : RawEvent) : option IngestionEvent :=
  match id raw with
  | VStr i =>
      if (i =? EmptyString)%string then None
      else match normalizeTimestampMs (timestamp raw) with
           | Ok ts => Some {| eventId := i; timestampMs := ts; payload := raw_json raw |}
           | Err _ => None
           end
  | _ => None
  end.

Fixpoint toIngestionEvents (rawEvents : list RawEvent) : list IngestionEvent :=
  match rawEvents with
  | [] => []
  | raw :: rest =>
      match toIngestionEvent raw with
      | Some event => event :: toIngestionEvents rest
      | None => toIngestionEvents rest
      end
  end.

Record NormalizedPage := {
  events : list RawEvent;
  hasMore : bool;
  nextCursor : option string;
  total : option Z
}.

End Mappers.

(** ** The shared rate limiter (api/middleware/rate-limit) *)

Module RateLimit.

Definition Qltb (a b : Q) : bool := negb (Qle_bool b a).
Definition Qmin' (a b : Q) : Q := if Qle_bool a b then a else b.
Definition Qmax' (a b : Q) : Q := if Qle_bool a b then b else a.

Record RateLimitState := {
  remaining : option Q;
  limit : option Q;
  resetAtMs : option Q;
  adaptiveDelayMs : Q;
  consecutive429s : Z
}.

Definition ADAPTIVE_MULTIPLIER : Q := 13 # 10.
Definition ADAPTIVE_DECAY : Q := 1 # 2.
Definition ADAPTIVE_MIN_MS : Q := 1000.
Definition ADAPTIVE_MAX_MS : Q := 8000.
Definition LAST_429_DEDUP_WINDOW_MS : Z := 2000.

(** The closure of [createRateLimiter]: the state object and the time of
    the last 429 that took effect. *)
Record RateLimiter := {
  state : RateLimitState;
  last429AtMs : Z
}.

Definition createRateLimiter : RateLimiter :=
  {| state := {| remaining := None; limit := None; resetAtMs := None;
                 adaptiveDelayMs := 0; consecutive429s := 0 |};
     last429AtMs := 0 |}.

(** [now] is the value of [Date.now()] at the call. *)
Definition getPreRequestDelayMs (now : Z) (l : RateLimiter) : Q :=
  let st := state l in
  match remaining st, resetAtMs st with
  | Some r, Some resetAt =>
      if Qle_bool r 1 then
        let waitMs := (resetAt - inject_Z now)%Q in
        if Qltb 0 waitMs then (waitMs + 100)%Q
        else adaptiveDelayMs st
      else adaptiveDelayMs st
  | _, _ => adaptiveDelayMs st
  end.

(** The three rate-limit headers of a response, already read as numbers;
    [None] when the header is absent (or, for the reset header, not a
    finite number). *)
Record RateHeaders := {
  h_remaining : option Q;
  h_limit : option Q;
  h_reset : option Q
}.

Definition updateFromHeaders (now : Z) (headers : RateHeaders) (l : RateLimiter)
  : RateLimiter :=
  let st := state l in
  {| state :=
       {| remaining := match h_remaining headers with
                       | Some r => Some r
                       | None => remaining st
                       end;
          limit := match h_limit headers with
                   | Some v => Some v
                   | None => limit st
                   end;
          resetAtMs := match h_reset headers with
                       | Some resetVal =>
                           Some (if Qltb 1000000000 resetVal
                                 then resetVal * 1000
                                 else inject_Z now + resetVal * 1000)%Q
                       | None => resetAtMs st
                       end;
          adaptiveDelayMs := adaptiveDelayMs st;
          consecutive429s := consecutive429s st |};
     last429AtMs := last429AtMs l |}.

Definition record429 (now : Z) (l : RateLimiter) : RateLimiter :=
  if now - last429AtMs l <? LAST_429_DEDUP_WINDOW_MS then l
  else
    let st := state l in
    {| state :=
         {| remaining := remaining st;
            limit := limit st;
            resetAtMs := resetAtMs st;
            adaptiveDelayMs :=
              if Qeq_bool (adaptiveDelayMs st) 0 then ADAPTIVE_MIN_MS
              else Qmin' (adaptiveDelayMs st * ADAPTIVE_MULTIPLIER) ADAPTIVE_MAX_MS;
            consecutive429s := consecutive429s st + 1 |};
       last429AtMs := now |}.

Definition recordSuccess (l : RateLimiter) : RateLimiter :=
  let st := state l in
  if 0 <? consecutive429s st then
    let decayed := Qmax' (adaptiveDelayMs st * ADAPTIVE_DECAY) 0 in
    {| state :=
         {| remaining := remaining st;
            limit := limit st;
            resetAtMs := resetAtMs st;
            adaptiveDelayMs := if Qltb decayed 100 then 0%Q else decayed;
            consecutive429s := 0 |};
       last429AtMs := last429AtMs l |}
  else l.

Definition getState (l : RateLimiter) : RateLimitState := state l.

End RateLimit.

(** ** The relational store and the repositories (db) *)

Inductive WorkerStatus := RUNNING | COMPLETED | FAILED.

Module Db.
Import Mappers CursorForge.

(** A row of [ingested_events] under its key [event_id], and a row of
    [worker_checkpoints] under its key [worker_id], with the columns the
    program writes and reads back.  The two columns the server fills
    with [NOW()], [ingested_at] and [updated_at], are never read by the
    program and are not represented: equality of rows below is equality
    of the other columns. *)
Record EventRow := {
  timestamp_ms : Z;
  payload_jsonb : string
}.

Record CheckpointRow := {
  chunk_start_ts : Z;
  chunk_end_ts : Z;
  cursor : option string;
  last_ts : option Z;
  fetched_count : Z;
  inserted_count : Z;
  status : WorkerStatus
}.

Record Store := {
  ingested_events : gmap string EventRow;
  worker_checkpoints : gmap Z CheckpointRow
}.

(** The checkpoint a write task carries. *)
Record CheckpointInput := {
  workerId : Z;
  cp_cursor : option string;
  cp_lastTs : option Z;
  cp_fetchedCount : Z;
  cp_insertedCount : Z;
  cp_status : WorkerStatus
}.

Inductive Sql :=
| Begin
| Commit
| Rollback
| InsertEvents (rows : list IngestionEvent)
| UpdateCheckpoint (checkpoint : CheckpointInput)
| InsertCheckpoints (rows : list (Z * TimestampChunk))
| TruncateCheckpoints.

Definition kind (q : Sql) : Stmt :=
  match q with
  | Begin => SBegin
  | Commit => SCommit
  | Rollback => SRollback
  | InsertEvents _ => SInsertEvents
  | UpdateCheckpoint _ => SUpdateCheckpoint
  | InsertCheckpoints _ => SInitCheckpoints
  | TruncateCheckpoints => STruncate
  end.

(** [INSERT ... ON CONFLICT (event_id) DO NOTHING], row by row; the count
    is the number of rows actually inserted. *)
Fixpoint insert_events (rows : list IngestionEvent) (tbl : gmap string EventRow)
  : gmap string EventRow * Z :=
  match rows with
  | [] => (tbl, 0)
  | e :: rest =>
      match tbl !! eventId e with
      | Some _ => insert_events rest tbl
      | None =>
          let '(tbl', n) :=
            insert_events rest
              (<[eventId e := {| timestamp_ms := timestampMs e;
                                 payload_jsonb := Mappers.payload e |}]> tbl) in
          (tbl', n + 1)
      end
  end.

(** [UPDATE worker_checkpoints SET ... WHERE worker_id = $1] *)
Definition update_checkpoint (cp : CheckpointInput) (tbl : gmap Z CheckpointRow)
  : gmap Z CheckpointRow * Z :=
  match tbl !! workerId cp with
  | Some row =>
      (<[workerId cp := {| chunk_start_ts := chunk_start_ts row;
                           chunk_end_ts := chunk_end_ts row;
                           cursor := cp_cursor cp;
                           last_ts := cp_lastTs cp;
                           fetched_count := cp_fetchedCount cp;
                           inserted_count := cp_insertedCount cp;
                           status := cp_status cp |}]> tbl, 1)
  | None => (tbl, 0)
  end.

(** [INSERT INTO worker_checkpoints ... ON CONFLICT (worker_id) DO
    NOTHING]; the other columns take their defaults. *)
Fixpoint insert_checkpoints (rows : list (Z * TimestampChunk))
  (tbl : gmap Z CheckpointRow) : gmap Z CheckpointRow * Z :=
  match rows with
  | [] => (tbl, 0)
  | (w, chunk) :: rest =>
      match tbl !! w with
      | Some _ => insert_checkpoints rest tbl
      | None =>
          let '(tbl', n) :=
            insert_checkpoints rest
              (<[w := {| chunk_start_ts := startTs chunk;
                         chunk_end_ts := endTs chunk;
                         cursor := None; last_ts := None;
                         fetched_count := 0; inserted_count := 0;
                         status := RUNNING |}]> tbl) in
          (tbl', n + 1)
      end
  end.

(** Effect of a data statement on the tables it sees, with its row count. *)
Definition run_sql (q : Sql) (s : Store) : Store * Z :=
  match q with
  | InsertEvents rows =>
      let '(t, n) := insert_events rows (ingested_events s) in
      ({| ingested_events := t; worker_checkpoints := worker_checkpoints s |}, n)
  | UpdateCheckpoint cp =>
      let '(t, n) := update_checkpoint cp (worker_checkpoints s) in
      ({| ingested_events := ingested_events s; worker_checkpoints := t |}, n)
  | InsertCheckpoints rows =>
      let '(t, n) := insert_checkpoints rows (worker_checkpoints s) in
      ({| ingested_events := ingested_events s; worker_checkpoints := t |}, n)
  | TruncateCheckpoints =>
      ({| ingested_events := ingested_events s; worker_checkpoints := ∅ |}, 0)
  | _ => (s, 0)
  end.

(** A pooled connection: the committed tables every session sees, the
    private copy of the open transaction if there is one, and which kinds
    of request the server or the driver is going to reject. *)
Record Client := {
  committed : Store;
  txn : option Store;
  fault : Stmt → bool
}.

Definition DbM (A : Type) : Type := Client → Result A * Client.

Definition ret {A} (a : A) : DbM A := fun c => (Ok a, c).
Definition throw {A} (e : Error) : DbM A := fun c => (Err e, c).
Definition bind {A B} (m : DbM A) (k : A → DbM B) : DbM B :=
  fun c => match m c with
           | (Ok a, c') => k a c'
           | (Err e, c') => (Err e, c')
           end.
Definition try_catch {A} (m : DbM A) (handler : Error → DbM A) : DbM A :=
  fun c => match m c with
           | (Ok a, c') => (Ok a, c')
           | (Err e, c') => handler e c'
           end.

Declare Scope db_scope.
Delimit Scope db_scope with db.
Notation "x ←ᵈ m ; k" := (bind m (fun x => k))
  (at level 100, m at next level, right associativity) : db_scope.
Notation "m ;;ᵈ k" := (bind m (fun _ => k))
  (at level 100, right associativity) : db_scope.

(** [client.query(sql)]: a rejected request changes nothing; inside a
    transaction statements work on the private copy, outside they commit
    at once. *)
Definition query (q : Sql) : DbM Z := fun c =>
  if fault c (kind q) then (Err (DriverError (kind q)), c)
  else match q with
       | Begin =>
           (Ok 0, {| committed := committed c;
                     txn := Some (default (committed c) (txn c));
                     fault := fault c |})
       | Commit =>
           (Ok 0, {| committed := default (committed c) (txn c);
                     txn := None; fault := fault c |})
       | Rollback =>
           (Ok 0, {| committed := committed c; txn := None; fault := fault c |})
       | _ =>
           match txn c with
           | Some t =>
               let '(t', n) := run_sql q t in
               (Ok n, {| committed := committed c; txn := Some t'; fault := fault c |})
           | None =>
               let '(s', n) := run_sql q (committed c) in
               (Ok n, {| committed := s'; txn := None; fault := fault c |})
           end
       end.

(** [pool.query(sql)]: one statement on a connection of its own. *)
Definition pool_query (f : Stmt → bool) (q : Sql) (s : Store) : Result Z * Store :=
  let '(r, c) := query q {| committed := s; txn := None; fault := f |} in
  (r, committed c).

(** *** events-repo *)

Definition insertEvents (events : list IngestionEvent) : DbM Z :=
  if (length events =? 0)%nat then ret 0
  else try_catch (query (InsertEvents events))
                 (fun err => throw (DbError "insertEvents" err)).

(** *** worker-state-repo *)

Definition upsertWorkerCheckpoint (checkpoint : CheckpointInput) : DbM unit :=
  try_catch (bind (query (UpdateCheckpoint checkpoint)) (fun _ => ret tt))
            (fun err => throw (DbError "upsertWorkerCheckpoint" err)).

Definition initializeWorkerCheckpoints (f : Stmt → bool)
  (chunks : list TimestampChunk) (s : Store) : Result unit * Store :=
  if (length chunks =? 0)%nat then (Ok tt, s)
  else
    let rows := imap (fun i chunk => (Z.of_nat i, chunk)) chunks in
    match pool_query f (InsertCheckpoints rows) s with
    | (Ok _, s') => (Ok tt, s')
    | (Err err, s') => (Err (DbError "initializeWorkerCheckpoints" err), s')
    end.

(** What [loadWorkerCheckpoints] makes of a row. *)
Record WorkerCheckpoint := {
  wc_workerId : Z;
  chunkStartTs : Z;
  chunkEndTs : Z;
  wc_cursor : option string;
  lastTs : option Z;
  fetchedCount : Z;
  insertedCount : Z;
  wc_status : WorkerStatus
}.

Definition checkpoint_of_row (w : Z) (row : CheckpointRow) : WorkerCheckpoint :=
  {| wc_workerId := w;
     chunkStartTs := chunk_start_ts row;
     chunkEndTs := chunk_end_ts row;
     wc_cursor := cursor row;
     lastTs := last_ts row;
     fetchedCount := fetched_count row;
     insertedCount := inserted_count row;
     wc_status := status row |}.

Definition by_worker_id (a b : Z * CheckpointRow) : Prop := (fst a <= fst b)%Z.

#[local] Instance by_worker_id_dec a b : Decision (by_worker_id a b) :=
  Z_le_dec (fst a) (fst b).

(** [SELECT ... FROM worker_checkpoints ORDER BY worker_id], for a
    statement the server accepts; the [DbError] the program makes of a
    refused one is not represented. *)
Definition loadWorkerCheckpoints (s : Store) : list WorkerCheckpoint :=
  map (fun kv => checkpoint_of_row (fst kv) (snd kv))
      (merge_sort by_worker_id (map_to_list (worker_checkpoints s))).

Definition resetAllCheckpoints (f : Stmt → bool) (s : Store) : Result unit * Store :=
  match pool_query f TruncateCheckpoints s with
  | (Ok _, s') => (Ok tt, s')
  | (Err err, s') => (Err (DbError "resetAllCheckpoints" err), s')
  end.

End Db.

(** ** The write queue (core/db-queue) *)

Module DbQueue.
Import Mappers Db.
Local Open Scope db_scope.

Record WriteTask := {
  events : list IngestionEvent;
  checkpoint : CheckpointInput
}.

(** [pool.connect()] hands out a connection with no transaction open. *)
Definition pool_connect (f : Stmt → bool) (s : Store) : Result Client :=
  if f SConnect then Err (DriverError SConnect)
  else Ok {| committed := s; txn := None; fault := f |}.

Definition write_transaction (task : WriteTask) : DbM Z :=
  try_catch
    (query Begin ;;ᵈ
     inserted ←ᵈ insertEvents (events task) ;
     upsertWorkerCheckpoint (checkpoint task) ;;ᵈ
     query Commit ;;ᵈ
     ret inserted)
    (fun err =>
       try_catch (query Rollback) (fun _ => ret 0) ;;ᵈ
       throw err).

(** One write task against the store [s], with the connection in the
    state in which [client.release()] gives it back to the pool; there
    is no connection when [pool.connect()] has failed. *)
Definition executeWrite_session (f : Stmt → bool) (s : Store) (task : WriteTask)
  : Result Z * option Client :=
  match pool_connect f s with
  | Err e => (Err e, None)
  | Ok client =>
      let '(r, c) := write_transaction task client in
      (r, Some c)
  end.

(** One write task against the store [s]; the result is the value or the
    error of the returned promise and the committed tables afterwards. *)
Definition executeWrite (f : Stmt → bool) (s : Store) (task : WriteTask)
  : Result Z * Store :=
  let '(r, released) := executeWrite_session f s task in
  (r, match released with
      | Some c => committed c
      | None => s
      end).

End DbQueue.

(** ** The per-partition worker (core/worker) *)

Module Worker.
Import Mappers CursorForge Db DbQueue.

Record FetchPageParams := {
  limit : Z;
  fp_cursor : option string
}.

Record WorkerResult := {
  r_workerId : Z;
  r_fetchedCount : Z;
  r_insertedCount : Z;
  r_status : WorkerStatus
}.

(** The collaborators of a worker.  The source and the queue answer a call
    from the call itself and from the calls made before it; the stop
    predicate answers from the number of times it was polled. *)
Record WorkerContext := {
  fetchPage : list FetchPageParams → FetchPageParams → Result NormalizedPage;
  enqueue : list WriteTask → WriteTask → Result Z;
  batchSize : Z;
  shouldStop : nat → bool
}.

(** What the worker has done to its collaborators so far. *)
Record World := {
  fetches : list FetchPageParams;
  writes : list WriteTask;
  polls : nat;
  progress : list (Z * Z * Z)
}.

Definition no_calls : World :=
  {| fetches := []; writes := []; polls := 0; progress := [] |}.

(** The local variables of [runWorker]; [fetchPromise] holds the outcome
    of the fetch in flight. *)
Record Loop := {
  cursor : option string;
  l_lastTs : option Z;
  l_fetchedCount : Z;
  l_insertedCount : Z;
  fetchPromise : option (Result NormalizedPage);
  done : bool
}.

(** [fetchPage(source, { limit: batchSize, cursor })] *)
Definition issue_fetch (ctx : WorkerContext) (w : World) (c : option string)
  : World * Result NormalizedPage :=
  let params := {| limit := batchSize ctx; fp_cursor := c |} in
  ({| fetches := fetches w ++ [params]; writes := writes w;
      polls := polls w; progress := progress w |},
   fetchPage ctx (fetches w) params).

(** The [for] loop over the events of a page, with its [break] and
    [continue]. *)
Fixpoint filter_events (chunkStart chunkEnd : Z) (allEvents : list IngestionEvent)
  (filtered : list IngestionEvent) (done : bool) : list IngestionEvent * bool :=
  match allEvents with
  | [] => (filtered, done)
  | event :: rest =>
      if timestampMs event <? chunkStart then (filtered, true)
      else if chunkEnd <=? timestampMs event
           then filter_events chunkStart chunkEnd rest filtered done
           else filter_events chunkStart chunkEnd rest (filtered ++ [event]) done
  end.

(** [Math.min(...xs)] of a non-empty argument list. *)
Definition Math_min (x : Z) (xs : list Z) : Z := fold_left Z.min xs x.

(** A cursor is truthy when it is neither [null] nor the empty string. *)
Definition truthy (c : option string) : bool :=
  match c with
  | Some s => negb (s =? EmptyString)%string
  | None => false
  end.

Definition call_enqueue (ctx : WorkerContext) (w : World) (task : WriteTask)
  : World * Result Z :=
  ({| fetches := fetches w; writes := writes w ++ [task];
      polls := polls w; progress := progress w |},
   enqueue ctx (writes w) task).

Definition report_progress (w : World) (p : Z * Z * Z) : World :=
  {| fetches := fetches w; writes := writes w;
     polls := polls w; progress := progress w ++ [p] |}.

(** The part of the loop body after a page has arrived. *)
Definition process_page (cp : WorkerCheckpoint) (ctx : WorkerContext)
  (w : World) (st : Loop) (page : NormalizedPage) : World * Result Loop :=
  let rawEvents := Mappers.events page in
  let allEvents := toIngestionEvents rawEvents in
  let '(filtered, done1) :=
    filter_events (chunkStartTs cp) (chunkEndTs cp) allEvents [] (done st) in
  let fetchedCount := l_fetchedCount st + Z.of_nat (length rawEvents) in
  let cursor1 := nextCursor page in
  let lastTs1 :=
    match map timestampMs allEvents with
    | t :: ts => Some (Math_min t ts)
    | [] => l_lastTs st
    end in
  let '(w1, promise) :=
    if hasMore page && negb done1 && truthy cursor1
    then let '(w', p) := issue_fetch ctx w cursor1 in (w', Some p)
    else (w, None) in
  let '(w2, inserted) :=
    if (0 <? length filtered)%nat then
      call_enqueue ctx w1
        {| events := filtered;
           checkpoint := {| workerId := wc_workerId cp;
                            cp_cursor := cursor1;
                            cp_lastTs := lastTs1;
                            cp_fetchedCount := fetchedCount;
                            cp_insertedCount := l_insertedCount st;
                            cp_status := RUNNING |} |}
    else (w1, Ok 0) in
  match inserted with
  | Err e => (w2, Err e)
  | Ok n =>
      let insertedCount := l_insertedCount st + n in
      (report_progress w2 (wc_workerId cp, fetchedCount, insertedCount),
       Ok {| cursor := cursor1;
             l_lastTs := lastTs1;
             l_fetchedCount := fetchedCount;
             l_insertedCount := insertedCount;
             fetchPromise := promise;
             done := done1 || negb (hasMore page)
                     || match promise with None => true | Some _ => false end |})
  end.

(** [err instanceof HttpError && err.status === 400] *)
Definition is_http_400 (err : Error) : bool :=
  match err with
  | HttpError status => status =? 400
  | _ => false
  end.

(** One pass through the body of the [while] loop. *)
Definition iteration (cp : WorkerCheckpoint) (ctx : WorkerContext)
  (w : World) (st : Loop) : World * Result Loop :=
  match fetchPromise st with
  | None => (w, Err (JsError "no page"))
  | Some (Err err) =>
      match is_http_400 err, l_lastTs st with
      | true, Some ts =>
          let c := forgeCursor ts in
          let '(w', p) := issue_fetch ctx w (Some c) in
          (w', Ok {| cursor := Some c;
                     l_lastTs := l_lastTs st;
                     l_fetchedCount := l_fetchedCount st;
                     l_insertedCount := l_insertedCount st;
                     fetchPromise := Some p;
                     done := done st |})
      | _, _ => (w, Err err)
      end
  | Some (Ok page) => process_page cp ctx w st page
  end.

Definition poll_stop (ctx : WorkerContext) (w : World) : World * bool :=
  ({| fetches := fetches w; writes := writes w;
      polls := S (polls w); progress := progress w |},
   shouldStop ctx (polls w)).

(** [while (!done && !shouldStop()) { ... }]; [None] when the fuel runs
    out before the loop ends. *)
Fixpoint worker_loop (fuel : nat) (cp : WorkerCheckpoint) (ctx : WorkerContext)
  (w : World) (st : Loop) : World * option (Result Loop) :=
  match fuel with
  | O => (w, None)
  | S fuel' =>
      if done st then (w, Some (Ok st))
      else
        let '(w1, stop) := poll_stop ctx w in
        if stop then (w1, Some (Ok st))
        else match iteration cp ctx w1 st with
             | (w2, Err e) => (w2, Some (Err e))
             | (w2, Ok st') => worker_loop fuel' cp ctx w2 st'
             end
  end.

(** The cursor a worker starts from: the saved one, or one forged at the
    upper end of its chunk. *)
Definition initial_cursor (cp : WorkerCheckpoint) : string :=
  match wc_cursor cp with
  | None => forgeCursor (chunkEndTs cp)
  | Some c => c
  end.

Definition runWorker (fuel : nat) (cp : WorkerCheckpoint) (ctx : WorkerContext)
  (w : World) : World * option (Result WorkerResult) :=
  let cursor0 := Some (initial_cursor cp) in
  if match wc_status cp with COMPLETED => true | _ => false end then
    (w, Some (Ok {| r_workerId := wc_workerId cp;
                    r_fetchedCount := fetchedCount cp;
                    r_insertedCount := insertedCount cp;
                    r_status := COMPLETED |}))
  else
    let '(w1, p) := issue_fetch ctx w cursor0 in
    let st0 := {| cursor := cursor0;
                  l_lastTs := lastTs cp;
                  l_fetchedCount := fetchedCount cp;
                  l_insertedCount := insertedCount cp;
                  fetchPromise := Some p;
                  done := false |} in
    match worker_loop fuel cp ctx w1 st0 with
    | (w2, None) => (w2, None)
    | (w2, Some (Err e)) => (w2, Some (Err e))
    | (w2, Some (Ok st)) =>
        let '(w3, stop) := poll_stop ctx w2 in
        (w3, Some (Ok {| r_workerId := wc_workerId cp;
                         r_fetchedCount := l_fetchedCount st;
                         r_insertedCount := l_insertedCount st;
                         r_status := if stop then RUNNING else COMPLETED |}))
    end.

End Worker.

(** ** Auxiliary definitions used in the proofs *)

Module Aux.
Import Js CursorForge.

(** What the two replacements of [toBase64Url], respectively of
    [fromBase64Url], do to one character. *)
Definition url_char (c : ascii) : ascii :=
  let c1 := if (c =? "+")%char then "-"%char else c in
  if (c1 =? "/")%char then "_"%char else c1.

Definition unurl_char (c : ascii) : ascii :=
  let c1 := if (c =? "-")%char then "+"%char else c in
  if (c1 =? "_")%char then "/"%char else c1.

(** The tokens and the lexer state after reading a prefix. *)
Fixpoint lex_run (st : lex_state) (s : string) : option (list token * lex_state) :=
  match s with
  | EmptyString => Some ([], st)
  | String c rest =>
      match lex_step st c with
      | Some (ts, st') =>
          match lex_run st' rest with
          | Some (ts', st'') => Some ((ts ++ ts')%list, st'')
          | None => None
          end
      | None => None
      end
  end.

(** The members of a forged cursor and the text around its timestamp. *)
Definition cursor_members (t : Z) : list (string * json) :=
  [("id", JStr NULL_UUID); ("ts", JNum t); ("v", JNum 2); ("exp", JNum FAR_FUTURE_EXP)].

Definition payload_prefix : string :=
  "{" ++ stringify_member ("id", JStr NULL_UUID) ++ ","
      ++ String dquote ("ts" ++ String dquote ":").
Definition payload_suffix : string :=
  String "," (stringify_member ("v", JNum 2) ++ ","
                ++ stringify_member ("exp", JNum FAR_FUTURE_EXP) ++ "}").

End Aux.

(** ** The specification's formulas, for comparison with the code *)

Module SpecWords.
Import RateLimit.

(** The header rule: when [remaining ≤ 1] and [resetAtMs > now], wait
    [resetAtMs − now + 100] ms. *)
Definition header_wait (now : Z) (l : RateLimiter) : option Q :=
  match remaining (state l), resetAtMs (state l) with
  | Some r, Some resetAt =>
      if Qle_bool r 1 && Qltb (inject_Z now) resetAt
      then Some (resetAt - inject_Z now + 100)%Q
      else None
  | _, _ => None
  end.

(** "Pre-request delay = max(header-derived wait, adaptiveDelay)". *)
Definition preRequestDelay_spec (now : Z) (l : RateLimiter) : Q :=
  match header_wait now l with
  | Some w => Qmax' w (adaptiveDelayMs (state l))
  | None => adaptiveDelayMs (state l)
  end.

(** "adaptiveDelayMs ← adaptiveDelayMs · 0.5 (snap to 0 below 100 ms)". *)
Definition decay_spec (d : Q) : Q :=
  let h := (d * (1 # 2))%Q in
  if Qltb h 100 then 0%Q else h.

End SpecWords.

(** ** Configuration from the environment (config) *)

Module Config.

Inductive Mode := INGEST | EXPLORE.
Inductive SyncCommit := SYNC_ON | SYNC_OFF.

Record AppConfig := {
  databaseUrl : string;
  apiBaseUrl : string;
  apiKey : string;
  mode : Mode;
  partitionCount : Z;
  batchSize : Z;
  dbWriteConcurrency : Z;
  maxPendingWrites : Z;
  pgSyncCommit : SyncCommit;
  healthPort : Z;
  autoSubmit : bool;
  githubRepoUrl : string;
  minTimestampMs : Z;
  maxTimestampMs : Z;
  progressLogIntervalMs : Z;
  requestTimeoutMs : Z;
  maxRetries : Z;
  retryBaseMs : Z;
  retryMaxMs : Z
}.

(** [process.env]: a variable is a string or is not set. *)
Definition Env := gmap string string.

Definition quoted (s : string) : string :=
  String Js.dquote (s ++ String Js.dquote EmptyString).

Definition mustGetEnv (env : Env) (key : string) : Result string :=
  match env !! key with
  | Some value =>
      if (value =? EmptyString)%string
      then Err (JsError ("Required environment variable " ++ key ++ " is not set"))
      else Ok value
  | None => Err (JsError ("Required environment variable " ++ key ++ " is not set"))
  end.

Definition getEnv (env : Env) (key fallback : string) : string :=
  match env !! key with
  | Some value => if (value =? EmptyString)%string then fallback else value
  | None => fallback
  end.

(** [parseInt raw] stands for [parseInt(raw, 10)] when that is a finite
    number, which is then an integer; [None] when it is NaN or infinite. *)
Definition getIntEnv (parseInt : string → option Z) (env : Env) (key : string)
  (fallback : Z) : Result Z :=
  match env !! key with
  | Some raw =>
      if (raw =? EmptyString)%string then Ok fallback
      else match parseInt raw with
           | Some parsed => Ok parsed
           | None =>
               Err (JsError ("Environment variable " ++ key
                             ++ " must be a valid integer, got: " ++ raw))
           end
  | None => Ok fallback
  end.

Definition getBoolEnv (env : Env) (key : string) (fallback : bool) : bool :=
  match env !! key with
  | Some raw =>
      if (raw =? EmptyString)%string then fallback
      else (raw =? "true")%string || (raw =? "1")%string
  | None => fallback
  end.

(** [url.replace(/\/+$/, '')] *)
Fixpoint strip_trailing_slashes (url : string) : string :=
  match url with
  | EmptyString => EmptyString
  | String c rest =>
      match strip_trailing_slashes rest with
      | EmptyString => if (c =? "/")%char then EmptyString else String c EmptyString
      | rest' => String c rest'
      end
  end.

Fixpoint endsWith (s suffix : string) : bool :=
  (s =? suffix)%string
  || match s with
     | EmptyString => false
     | String _ rest => endsWith rest suffix
     end.

Definition normalizeApiBaseUrl (url : string) : string :=
  let normalized := strip_trailing_slashes url in
  if endsWith normalized "/api/v1" then normalized
  else normalized ++ "/api/v1".

Definition bind {A B} (r : Result A) (k : A → Result B) : Result B :=
  match r with
  | Ok a => k a
  | Err e => Err e
  end.

Notation "x ←ʳ r ; k" := (bind r (fun x => k))
  (at level 100, r at next level, k at level 200, right associativity).

(** Numbers in the messages are printed as integers. *)
Definition loadConfig (parseInt : string → option Z) (env : Env) : Result AppConfig :=
  let int := getIntEnv parseInt env in
  let mode := getEnv env "MODE" "ingest" in
  mode ←ʳ (if (mode =? "ingest")%string then Ok INGEST
           else if (mode =? "explore")%string then Ok EXPLORE
           else Err (JsError ("MODE must be " ++ quoted "ingest" ++ " or "
                              ++ quoted "explore" ++ ", got: " ++ mode)));
  let pgSyncCommit := getEnv env "PG_SYNC_COMMIT" "off" in
  pgSyncCommit ←ʳ (if (pgSyncCommit =? "on")%string then Ok SYNC_ON
                   else if (pgSyncCommit =? "off")%string then Ok SYNC_OFF
                   else Err (JsError ("PG_SYNC_COMMIT must be " ++ quoted "on" ++ " or "
                                      ++ quoted "off" ++ ", got: " ++ pgSyncCommit)));
  minTimestampMs ←ʳ int "MIN_TIMESTAMP_MS" 1766700000000;
  maxTimestampMs ←ʳ int "MAX_TIMESTAMP_MS" 1769900000000;
  if maxTimestampMs <=? minTimestampMs then
    Err (JsError ("MIN_TIMESTAMP_MS (" ++ Js.Number_toString minTimestampMs
                  ++ ") must be less than MAX_TIMESTAMP_MS ("
                  ++ Js.Number_toString maxTimestampMs ++ ")"))
  else
    databaseUrl ←ʳ mustGetEnv env "DATABASE_URL";
    apiBaseUrl ←ʳ mustGetEnv env "API_BASE_URL";
    apiKey ←ʳ mustGetEnv env "TARGET_API_KEY";
    partitionCount ←ʳ int "PARTITION_COUNT" 8;
    batchSize ←ʳ int "BATCH_SIZE" 5000;
    dbWriteConcurrency ←ʳ int "DB_WRITE_CONCURRENCY" 2;
    maxPendingWrites ←ʳ int "MAX_PENDING_WRITES" 100;
    healthPort ←ʳ int "HEALTH_PORT" 8080;
    progressLogIntervalMs ←ʳ int "PROGRESS_LOG_INTERVAL_MS" 15000;
    requestTimeoutMs ←ʳ int "REQUEST_TIMEOUT_MS" 45000;
    maxRetries ←ʳ int "MAX_RETRIES" 8;
    retryBaseMs ←ʳ int "RETRY_BASE_MS" 250;
    retryMaxMs ←ʳ int "RETRY_MAX_MS" 15000;
    Ok {| databaseUrl := databaseUrl;
          apiBaseUrl := normalizeApiBaseUrl apiBaseUrl;
          apiKey := apiKey;
          mode := mode;
          partitionCount := Z.max 1 partitionCount;
          batchSize := Z.min 5000 (Z.max 1 batchSize);
          dbWriteConcurrency := Z.max 1 dbWriteConcurrency;
          maxPendingWrites := Z.max 1 maxPendingWrites;
          pgSyncCommit := pgSyncCommit;
          healthPort := healthPort;
          autoSubmit := getBoolEnv env "AUTO_SUBMIT" false;
          githubRepoUrl := getEnv env "GITHUB_REPO_URL" EmptyString;
          minTimestampMs := minTimestampMs;
          maxTimestampMs := maxTimestampMs;
          progressLogIntervalMs := progressLogIntervalMs;
          requestTimeoutMs := requestTimeoutMs;
          maxRetries := maxRetries;
          retryBaseMs := retryBaseMs;
          retryMaxMs := retryMaxMs |}.

End Config.

(** ** Values of unknown type *)

(** A value as [JSON.parse] or [response.text()] gives it: the body of a
    response before the program has looked at it.  The members of an
    object are its properties in insertion order. *)
#[local] Set Warnings "-register-all".
Inductive Unknown :=
| UNull
| UBool (b : bool)
| UNum (q : Q)
| UStr (s : string)
| UArr (items : list Unknown)
| UObj (members : list (string * Unknown)).
#[local] Set Warnings "register-all".

(** ** Page normalisation (mappers) *)

Module PageMapper.

(** [val[key]]; [None] is [undefined]. *)
Definition member (key : string) (val : Unknown) : option Unknown :=
  match val with
  | UObj members =>
      match List.find (fun m => (fst m =? key)%string) members with
      | Some m => Some (snd m)
      | None => None
      end
  | _ => None
  end.

(** [val?.[key]] *)
Definition optional_member (key : string) (val : option Unknown) : option Unknown :=
  match val with
  | Some v => member key v
  | None => None
  end.

(** [val ?? fallback] *)
Definition nullish_or (val : option Unknown) (fallback : Unknown) : Unknown :=
  match val with
  | None | Some UNull => fallback
  | Some v => v
  end.

Definition isRecord (val : option Unknown) : bool :=
  match val with
  | Some (UObj _) => true
  | _ => false
  end.

Definition is_string (val : option Unknown) : bool :=
  match val with
  | Some (UStr _) => true
  | _ => false
  end.

(** The page as the program holds it; the declared types of [hasMore],
    [nextCursor] and [total] are not checked at run time. *)
Record NormalizedPage := {
  events : list Unknown;
  hasMore : Unknown;
  nextCursor : Unknown;
  total : Unknown
}.

Definition empty_page : NormalizedPage :=
  {| events := []; hasMore := UBool false; nextCursor := UNull; total := UNull |}.

Fixpoint extractRawEvents (data : list Unknown) : list Unknown :=
  match data with
  | [] => []
  | item :: rest =>
      if isRecord (Some item) && is_string (member "id" item)
      then item :: extractRawEvents rest
      else extractRawEvents rest
  end.

Definition normalizePage (raw : Unknown) : NormalizedPage :=
  if negb (isRecord (Some raw)) then empty_page
  else
    match member "data" raw with
    | Some (UObj _ as nested) =>
        match member "data" nested with
        | Some (UArr data) =>
            let pagination := member "pagination" nested in
            let meta := member "meta" nested in
            {| events := extractRawEvents data;
               hasMore := nullish_or (optional_member "hasMore" pagination) (UBool false);
               nextCursor := nullish_or (optional_member "nextCursor" pagination) UNull;
               total := nullish_or (optional_member "total" meta) UNull |}
        | _ => empty_page
        end
    | Some (UArr data) =>
        let pagination :=
          match member "pagination" raw with
          | Some (UObj _ as pagination) => pagination
          | _ => raw
          end in
        {| events := extractRawEvents data;
           hasMore := nullish_or (member "hasMore" pagination) (UBool false);
           nextCursor := nullish_or (member "nextCursor" pagination) UNull;
           total := match member "meta" raw with
                    | Some (UObj _ as meta) => nullish_or (member "total" meta) UNull
                    | _ => UNull
                    end |}
    | _ => empty_page
    end.

(** The members of an item that the event mapper reads, and the text
    [stringify] gives for the item. *)
Definition as_JsValue (val : option Unknown) : JsValue :=
  match val with
  | Some (UNum q) => VNum q
  | Some (UStr s) => VStr s
  | _ => VOther
  end.

Definition as_RawEvent (stringify : Unknown → string) (item : Unknown)
  : Mappers.RawEvent :=
  {| Mappers.id := as_JsValue (member "id" item);
     Mappers.timestamp := as_JsValue (member "timestamp" item);
     Mappers.raw_json := stringify item |}.

End PageMapper.

(** ** The HTTP side: collaborators and their traces (api) *)

Module Api.

(** A request as the events source hands it to the HTTP client: the text
    given to [new URL], the search parameters set on it, and the header
    object. *)
Record Request := {
  url : string;
  searchParams : list (string * string);
  headers : gmap string string
}.

Record HttpResponse := {
  status : Z;
  response_headers : RateLimit.RateHeaders;
  body : Unknown
}.

Record StreamAccess := {
  endpoint : string;
  tokenHeader : string;
  token : string;
  expiresIn : Q
}.

(** The collaborators of the events source.  The HTTP client answers a
    request from the request and the ones sent before it; the stream
    manager answers its k-th call; [Math_random k] is the k-th random
    number; [URL_origin s] is [new URL(s).origin], [None] when the
    constructor throws, and [URL_canParse s] tells whether [new URL(s)]
    returns. *)
Record Deps := {
  httpClient_get : list Request → Request → Result HttpResponse;
  streamManager_get : nat → Result StreamAccess;
  Math_random : nat → Q;
  URL_origin : string → option string;
  URL_canParse : string → bool
}.

(** What has happened so far, and the two pieces of state the events
    source shares between calls: the rate limiter and the latch
    [streamDisabled]. *)
Record World := {
  requests : list Request;
  sleeps : list Q;
  randoms : nat;
  accesses : nat;
  invalidations : nat;
  rateLimiter : RateLimit.RateLimiter;
  streamDisabled : bool
}.

Definition M (A : Type) : Type := World → World * Result A.

Definition sleep (ms : Q) (w : World) : World :=
  {| requests := requests w; sleeps := sleeps w ++ [ms]; randoms := randoms w;
     accesses := accesses w; invalidations := invalidations w;
     rateLimiter := rateLimiter w; streamDisabled := streamDisabled w |}.

Definition next_random (deps : Deps) (w : World) : Q * World :=
  (Math_random deps (randoms w),
   {| requests := requests w; sleeps := sleeps w; randoms := S (randoms w);
      accesses := accesses w; invalidations := invalidations w;
      rateLimiter := rateLimiter w; streamDisabled := streamDisabled w |}).

Definition get (deps : Deps) (request : Request) : M HttpResponse :=
  fun w =>
    ({| requests := requests w ++ [request]; sleeps := sleeps w; randoms := randoms w;
        accesses := accesses w; invalidations := invalidations w;
        rateLimiter := rateLimiter w; streamDisabled := streamDisabled w |},
     httpClient_get deps (requests w) request).

Definition stream_access (deps : Deps) : M StreamAccess :=
  fun w =>
    ({| requests := requests w; sleeps := sleeps w; randoms := randoms w;
        accesses := S (accesses w); invalidations := invalidations w;
        rateLimiter := rateLimiter w; streamDisabled := streamDisabled w |},
     streamManager_get deps (accesses w)).

Definition invalidate (w : World) : World :=
  {| requests := requests w; sleeps := sleeps w; randoms := randoms w;
     accesses := accesses w; invalidations := S (invalidations w);
     rateLimiter := rateLimiter w; streamDisabled := streamDisabled w |}.

Definition set_rateLimiter (l : RateLimit.RateLimiter) (w : World) : World :=
  {| requests := requests w; sleeps := sleeps w; randoms := randoms w;
     accesses := accesses w; invalidations := invalidations w;
     rateLimiter := l; streamDisabled := streamDisabled w |}.

Definition disable_stream (w : World) : World :=
  {| requests := requests w; sleeps := sleeps w; randoms := randoms w;
     accesses := accesses w; invalidations := invalidations w;
     rateLimiter := rateLimiter w; streamDisabled := true |}.

End Api.

(** ** Retrying a request (api/middleware/retry) *)

Module Retry.
Import Config Api RateLimit.

Definition isRetryable (status : Z) : bool :=
  (status =? 429) || (500 <=? status) || (status =? 0).

(** The delay before the next attempt, in exact arithmetic. *)
Definition backoff (deps : Deps) (config : AppConfig) (attempt status : Z)
  (w : World) : Q * World :=
  if status =? 429 then
    (Qmin' (inject_Z (retryBaseMs config * 2 ^ (attempt - 1)))
           (inject_Z (retryMaxMs config)), w)
  else
    let base := inject_Z (retryBaseMs config * 2 ^ (attempt - 1)) in
    let '(r, w1) := next_random deps w in
    let jitter := (r * base * (3 # 10))%Q in
    (Qmin' (base + jitter) (inject_Z (retryMaxMs config)), w1).

(** The [for] loop of [withRetry] with [left] passes to go, the next of
    which is pass number [attempt]. *)
Fixpoint retry_loop (deps : Deps) (config : AppConfig) (fn : M HttpResponse)
  (left : nat) (attempt : Z) (lastError : option Error) : M HttpResponse :=
  fun w =>
    match left with
    | O =>
        (w, Err (match lastError with
                 | Some err => err
                 | None => HttpError 0
                 end))
    | S left' =>
        match fn w with
        | (w1, Ok response) => (w1, Ok response)
        | (w1, Err err) =>
            match err with
            | HttpError status =>
                if isRetryable status then
                  let '(delayMs, w2) := backoff deps config attempt status w1 in
                  retry_loop deps config fn left' (attempt + 1) (Some err)
                    (sleep delayMs w2)
                else (w1, Err err)
            | _ => (w1, Err err)
            end
        end
    end.

Definition withRetry (deps : Deps) (config : AppConfig) (fn : M HttpResponse)
  : M HttpResponse :=
  retry_loop deps config fn (Z.to_nat (maxRetries config)) 1 None.

End Retry.

(** ** The events source (api/events-source, api/middleware/auth) *)

Module EventsSource.
Import Config Api Retry RateLimit.

Definition FEED_PATH : string := "/events/d4ta/x7k9/feed".

Record FetchPageParams := {
  limit : Z;
  cursor : option string;
  since : option Z;
  until : option Z
}.

Definition getAuthHeaders (config : AppConfig) : gmap string string :=
  {[ "X-API-Key" := apiKey config ]}.

(** [if (params.cursor) ...]: a cursor that is a non-empty string. *)
Definition cursor_param (c : option string) : list (string * string) :=
  match c with
  | Some s => if (s =? EmptyString)%string then [] else [("cursor", s)]
  | None => []
  end.

(** [if (params.since) ...]: a number other than zero. *)
Definition number_param (key : string) (n : option Z) : list (string * string) :=
  match n with
  | Some v => if v =? 0 then [] else [(key, Js.Number_toString v)]
  | None => []
  end.

Definition fetchStreamPage (deps : Deps) (config : AppConfig) (params : FetchPageParams)
  : M HttpResponse :=
  fun w =>
    match stream_access deps w with
    | (w1, Err err) => (w1, Err err)
    | (w1, Ok access) =>
        match URL_origin deps (apiBaseUrl config) with
        | None => (w1, Err (JsError "Invalid URL"))
        | Some origin =>
            let target :=
              origin ++ (if (endpoint access =? EmptyString)%string then FEED_PATH
                         else endpoint access) in
            if URL_canParse deps target then
              get deps
                {| url := target;
                   searchParams :=
                     [("limit", Js.Number_toString (limit params))]
                     ++ cursor_param (cursor params)
                     ++ number_param "since" (since params)
                     ++ number_param "until" (until params);
                   headers :=
                     <["Referer" := origin ++ "/"]>
                       (<["Origin" := origin]>
                          (<["X-API-Key" := apiKey config]>
                             {[ tokenHeader access := token access ]})) |}
                w1
            else (w1, Err (JsError "Invalid URL"))
        end
    end.

Definition fetchFallbackPage (deps : Deps) (config : AppConfig) (params : FetchPageParams)
  : M HttpResponse :=
  fun w =>
    let target := apiBaseUrl config ++ "/events" in
    if URL_canParse deps target then
      get deps
        {| url := target;
           searchParams :=
             [("limit", Js.Number_toString (limit params))]
             ++ cursor_param (cursor params);
           headers := getAuthHeaders config |}
        w
    else (w, Err (JsError "Invalid URL")).

(** [err instanceof HttpError && (err.status === 401 || err.status === 403)] *)
Definition is_auth_failure (err : Error) : bool :=
  match err with
  | HttpError status => (status =? 401) || (status =? 403)
  | _ => false
  end.

Definition is_http_429 (err : Error) : bool :=
  match err with
  | HttpError status => status =? 429
  | _ => false
  end.

(** The end of [fetchPage] once a response is there. *)
Definition accept_response (now : Z) (response : HttpResponse) (w : World)
  : World * Result PageMapper.NormalizedPage :=
  (set_rateLimiter
     (recordSuccess (updateFromHeaders now (response_headers response) (rateLimiter w)))
     w,
   Ok (PageMapper.normalizePage (body response))).

(** [fetchPage]; [start] is [Date.now()] when the call begins, [finish]
    when its last request has been answered. *)
Definition fetchPage (deps : Deps) (config : AppConfig) (start finish : Z)
  (params : FetchPageParams) : M PageMapper.NormalizedPage :=
  fun w =>
    let delay := getPreRequestDelayMs start (rateLimiter w) in
    let w0 := if Qltb 0 delay then sleep delay w else w in
    let first :=
      if negb (streamDisabled w0)
      then withRetry deps config (fetchStreamPage deps config params) w0
      else withRetry deps config (fetchFallbackPage deps config params) w0 in
    match first with
    | (w1, Ok response) => accept_response finish response w1
    | (w1, Err err) =>
        if is_auth_failure err && negb (streamDisabled w1) then
          match withRetry deps config (fetchStreamPage deps config params)
                  (invalidate w1) with
          | (w2, Ok response) => accept_response finish response w2
          | (w2, Err retryErr) =>
              match withRetry deps config (fetchFallbackPage deps config params)
                      (disable_stream w2) with
              | (w3, Ok response) => accept_response finish response w3
              | (w3, Err fallbackErr) => (w3, Err fallbackErr)
              end
          end
        else if is_http_429 err then
          (set_rateLimiter (record429 finish (rateLimiter w1)) w1, Err err)
        else (w1, Err err)
    end.

End EventsSource.

(** ** The stream access token cache (api/stream-access) *)

Module StreamAccessManager.
Import Api RateLimit.

Record CachedStreamAccess := {
  access : StreamAccess;
  expiresAtMs : Q
}.

Definition REFRESH_BUFFER_S : Q := 60.

(** The outcome of a call of [get]: the cache afterwards, whether the
    token endpoint was asked, and the result. *)
Record Got := {
  cached : option CachedStreamAccess;
  requested : bool;
  result : Result StreamAccess
}.

(** [get], for calls that do not overlap; [now] is [Date.now()] at the
    call and [fetchStreamAccess] the outcome of asking the token
    endpoint, should the call ask. *)
Definition get (now : Z) (fetchStreamAccess : Result StreamAccess)
  (cache : option CachedStreamAccess) : Got :=
  let refresh :=
    match fetchStreamAccess with
    | Ok a =>
        {| cached := Some {| access := a;
                             expiresAtMs :=
                               (inject_Z now
                                + Qmax' 0 (expiresIn a - REFRESH_BUFFER_S) * 1000)%Q |};
           requested := true;
           result := Ok a |}
    | Err e => {| cached := cache; requested := true; result := Err e |}
    end in
  match cache with
  | Some c =>
      if Qltb (inject_Z now) (expiresAtMs c)
      then {| cached := cache; requested := false; result := Ok (access c) |}
      else refresh
  | None => refresh
  end.

Definition invalidate (cache : option CachedStreamAccess) : option CachedStreamAccess :=
  None.

End StreamAccessManager.

(** ** Start-up of the orchestrator (core/orchestrator, core/time-range) *)

Module Orchestrator.
Import CursorForge Db Config.

(** [discoverTimeRange]: the configured bounds. *)
Definition discoverTimeRange (knownMinTs knownMaxTs : Z) : TimestampChunk :=
  {| startTs := knownMinTs; endTs := knownMaxTs |}.

(** Steps 1 to 6 of [run]: chunk the range, reset the checkpoints when
    their number differs from the partition count, create the missing
    ones, and select the workers that are not completed. *)
Definition prepare (f : Stmt → bool) (config : AppConfig) (s : Store)
  : Result (list WorkerCheckpoint) * Store :=
  let timeRange := discoverTimeRange (minTimestampMs config) (maxTimestampMs config) in
  let chunks := createTimestampChunks (startTs timeRange) (endTs timeRange)
                  (Z.to_nat (partitionCount config)) in
  let savedCheckpoints := loadWorkerCheckpoints s in
  let '(r1, s1) :=
    if (0 <? length savedCheckpoints)%nat
       && negb (Z.of_nat (length savedCheckpoints) =? partitionCount config)
    then resetAllCheckpoints f s
    else (Ok tt, s) in
  match r1 with
  | Err e => (Err e, s1)
  | Ok _ =>
      match initializeWorkerCheckpoints f chunks s1 with
      | (Err e, s2) => (Err e, s2)
      | (Ok _, s2) =>
          let checkpoints := loadWorkerCheckpoints s2 in
          (Ok (List.filter
                 (fun cp => match wc_status cp with COMPLETED => false | _ => true end)
                 checkpoints),
           s2)
      end
  end.

End Orchestrator.

(** ** Notions used to state the properties *)

Module Views.
Import Mappers CursorForge Db DbQueue Worker.

(** The tables a session sees: its open transaction's copy, else the
    committed ones. *)
Definition session_view (c : Client) : Store :=
  match txn c with
  | Some t => t
  | None => committed c
  end.

(** The server accepts every request a write task makes. *)
Definition accepted (f : Stmt → bool) (task : WriteTask) : Prop :=
  f SConnect = false ∧ f SBegin = false
  ∧ (events task = [] ∨ f SInsertEvents = false)
  ∧ f SUpdateCheckpoint = false ∧ f SCommit = false.

(** A checkpoint row after the [UPDATE] of a write task. *)
Definition updated_row (cp : CheckpointInput) (row : CheckpointRow) : CheckpointRow :=
  {| chunk_start_ts := chunk_start_ts row;
     chunk_end_ts := chunk_end_ts row;
     Db.cursor := cp_cursor cp;
     last_ts := cp_lastTs cp;
     fetched_count := cp_fetchedCount cp;
     inserted_count := cp_insertedCount cp;
     status := cp_status cp |}.

(** The events of a page in front of the first one below [chunkStart]. *)
Fixpoint prefix_above (chunkStart : Z) (evs : list IngestionEvent)
  : list IngestionEvent :=
  match evs with
  | [] => []
  | e :: rest =>
      if timestampMs e <? chunkStart then []
      else e :: prefix_above chunkStart rest
  end.

Definition in_range_b (chunkStart chunkEnd : Z) (e : IngestionEvent) : bool :=
  (chunkStart <=? timestampMs e) && (timestampMs e <? chunkEnd).

(** Newest first, as the server orders a page. *)
Definition newest_first (evs : list IngestionEvent) : Prop :=
  StronglySorted (fun a b => timestampMs b <= timestampMs a) evs.

(** The write task the worker builds for the batch of a page. *)
Definition page_task (cp : WorkerCheckpoint) (st : Loop) (page : NormalizedPage)
  (batch : list IngestionEvent) : WriteTask :=
  {| events := batch;
     checkpoint :=
       {| workerId := wc_workerId cp;
          cp_cursor := nextCursor page;
          cp_lastTs := match map timestampMs (toIngestionEvents (Mappers.events page)) with
                       | t :: ts => Some (Math_min t ts)
                       | [] => l_lastTs st
                       end;
          cp_fetchedCount := l_fetchedCount st + Z.of_nat (length (Mappers.events page));
          cp_insertedCount := l_insertedCount st;
          cp_status := RUNNING |} |}.

(** The row [initializeWorkerCheckpoints] inserts for a chunk. *)
Definition fresh_row (chunk : TimestampChunk) : CheckpointRow :=
  {| chunk_start_ts := startTs chunk;
     chunk_end_ts := endTs chunk;
     Db.cursor := None; last_ts := None;
     fetched_count := 0; inserted_count := 0;
     status := RUNNING |}.

(** A write task that stays inside the partition of its worker. *)
Definition good_task (cp : WorkerCheckpoint) (task : WriteTask) : Prop :=
  events task ≠ []
  ∧ (∀ e, e ∈ events task → chunkStartTs cp <= timestampMs e < chunkEndTs cp)
  ∧ workerId (checkpoint task) = wc_workerId cp
  ∧ cp_status (checkpoint task) = RUNNING.

(** The characters of the URL-safe base64 alphabet. *)
Definition url_safe (c : ascii) : bool :=
  Js.in_range "A" "Z" c || Js.in_range "a" "z" c || Js.in_range "0" "9" c
  || (c =? "-")%char || (c =? "_")%char.

Fixpoint all_chars (p : ascii → bool) (s : string) : bool :=
  match s with
  | EmptyString => true
  | String c rest => p c && all_chars p rest
  end.

(** The calls the events source makes on the shared limiter. *)
Inductive LimiterCall :=
| CallUpdate (now : Z) (headers : RateLimit.RateHeaders)
| Call429 (now : Z)
| CallSuccess.

Definition apply_call (l : RateLimit.RateLimiter) (c : LimiterCall)
  : RateLimit.RateLimiter :=
  match c with
  | CallUpdate now h => RateLimit.updateFromHeaders now h l
  | Call429 now => RateLimit.record429 now l
  | CallSuccess => RateLimit.recordSuccess l
  end.

(** The limiter after a sequence of calls on a new one. *)
Definition run_calls (calls : list LimiterCall) : RateLimit.RateLimiter :=
  fold_left apply_call calls RateLimit.createRateLimiter.

Definition delay_ok (l : RateLimit.RateLimiter) : Prop :=
  (0 <= RateLimit.adaptiveDelayMs (RateLimit.state l) <= 8000)%Q
  ∧ 0 <= RateLimit.consecutive429s (RateLimit.state l).

(** The array a body carries its events in: [data.data] in the nested
    format, else [data]. *)
Definition page_data (raw : Unknown) : option (list Unknown) :=
  match raw with
  | UObj _ =>
      match PageMapper.member "data" raw with
      | Some (UObj _ as nested) =>
          match PageMapper.member "data" nested with
          | Some (UArr data) => Some data
          | _ => None
          end
      | Some (UArr data) => Some data
      | _ => None
      end
  | _ => None
  end.

(** An item that [extractRawEvents] keeps: a record with a string [id]. *)
Definition has_string_id (item : Unknown) : bool :=
  PageMapper.isRecord (Some item)
  && PageMapper.is_string (PageMapper.member "id" item).

(** An error that [withRetry] answers with another attempt. *)
Definition retryable_error (err : Error) : bool :=
  match err with
  | HttpError status => Retry.isRetryable status
  | _ => false
  end.

(** An action that sends at most one request and touches nothing but the
    request log and the count of token look-ups. *)
Definition one_request {A} (fn : Api.M A) : Prop :=
  ∀ w, Api.sleeps (fn w).1 = Api.sleeps w
       ∧ Api.randoms (fn w).1 = Api.randoms w
       ∧ Api.invalidations (fn w).1 = Api.invalidations w
       ∧ Api.rateLimiter (fn w).1 = Api.rateLimiter w
       ∧ Api.streamDisabled (fn w).1 = Api.streamDisabled w
       ∧ ∃ new, Api.requests (fn w).1 = (Api.requests w ++ new)%list
                ∧ (length new ≤ 1)%nat.

End Views.

(** ** Concrete runs *)

Module Scenarios.
Import Mappers CursorForge RateLimit Db DbQueue Worker.

(** Two 429 responses three seconds apart, then a response whose headers
    say that the quota is used up for one more second. *)
Definition throttled : RateLimiter :=
  updateFromHeaders 1768000003000
    {| h_remaining := Some 0%Q; h_limit := None; h_reset := Some 1%Q |}
    (record429 1768000003000 (record429 1768000000000 createRateLimiter)).

(** One 429 response followed by one success. *)
Definition recovered : RateLimiter :=
  recordSuccess (record429 1768000000000 createRateLimiter).

Definition no_fault : Stmt → bool := fun _ => false.

Definition empty_store : Store :=
  {| ingested_events := ∅; worker_checkpoints := ∅ |}.

(** Four partitions of [1766000000000, 1770000000000], freshly
    initialised. *)
Definition store0 : Store :=
  (initializeWorkerCheckpoints no_fault
     (createTimestampChunks 1766000000000 1770000000000 4) empty_store).2.

Definition raw (i : string) (t : Z) : RawEvent :=
  {| id := VStr i; timestamp := VNum (inject_Z t); raw_json := "{}" |}.

(** The store after the write tasks of a log, each run as a transaction. *)
Definition replay (s : Store) (tasks : list WriteTask) : Store :=
  fold_left (fun s t => (executeWrite no_fault s t).2) tasks s.

(** A queue that runs each task on the store the earlier tasks left. *)
Definition queue_on (s : Store) : list WriteTask → WriteTask → Result Z :=
  fun earlier task => (executeWrite no_fault (replay s earlier) task).1.

(** A page that reaches below the start of partition 2
    ([1768000000000, 1769000000000)) while the server has more. *)
Definition crossing_page : NormalizedPage :=
  {| Mappers.events := [raw "in-range" 1768500000000; raw "below" 1766500000000];
     hasMore := true; nextCursor := Some "c2"; total := None |}.

(** A page that is not in the server's order: the event below the
    partition comes first. *)
Definition unordered_page : NormalizedPage :=
  {| Mappers.events := [raw "below" 1766500000000; raw "in-range" 1768500000000];
     hasMore := false; nextCursor := None; total := None |}.

Definition last_page : NormalizedPage :=
  {| Mappers.events := []; hasMore := false; nextCursor := None; total := None |}.

Definition unstarted (w : Z) : WorkerCheckpoint :=
  {| wc_workerId := w; chunkStartTs := 0; chunkEndTs := 0; wc_cursor := None;
     lastTs := None; fetchedCount := 0; insertedCount := 0; wc_status := RUNNING |}.

(** The first run of worker 2. *)
Definition first_ctx : WorkerContext :=
  {| fetchPage := fun _ _ => Ok crossing_page;
     enqueue := queue_on store0;
     batchSize := 5000;
     shouldStop := fun _ => false |}.

Definition first_checkpoint : WorkerCheckpoint :=
  nth 2 (loadWorkerCheckpoints store0) (unstarted 2).

Definition unordered_ctx : WorkerContext :=
  {| fetchPage := fun _ _ => Ok unordered_page;
     enqueue := queue_on store0;
     batchSize := 5000;
     shouldStop := fun _ => false |}.

Definition first_run : World * option (Result WorkerResult) :=
  runWorker 10 first_checkpoint first_ctx no_calls.

Definition store1 : Store := replay store0 (writes first_run.1).

(** The process restarts: worker 2 resumes from its row, and the server
    no longer honours the saved cursor. *)
Definition resumed_checkpoint : WorkerCheckpoint :=
  nth 2 (loadWorkerCheckpoints store1) (unstarted 2).

Definition second_ctx : WorkerContext :=
  {| fetchPage := fun _ p => if decide (fp_cursor p = Some "c2")
                             then Err (HttpError 400) else Ok last_page;
     enqueue := queue_on store1;
     batchSize := 5000;
     shouldStop := fun _ => false |}.

Definition second_run : World * option (Result WorkerResult) :=
  runWorker 10 resumed_checkpoint second_ctx no_calls.

(** A source that always serves the same page, a queue that reports
    every event of a task as inserted, and a fixed stop answer. *)
Definition mock_ctx (page : NormalizedPage) (stop : bool) : WorkerContext :=
  {| fetchPage := fun _ _ => Ok page;
     enqueue := fun _ t => Ok (Z.of_nat (length (events t)));
     batchSize := 5000;
     shouldStop := fun _ => stop |}.

(** A source that refuses every cursor. *)
Definition expired_ctx : WorkerContext :=
  {| fetchPage := fun _ _ => Err (HttpError 400);
     enqueue := fun _ t => Ok (Z.of_nat (length (events t)));
     batchSize := 5000;
     shouldStop := fun _ => false |}.


Definition sample_task : WriteTask :=
  {| events := [{| eventId := "e1"; timestampMs := 1768500000000; payload := "{}" |}];
     checkpoint := {| workerId := 2; cp_cursor := Some "c2";
                      cp_lastTs := Some 1768500000000;
                      cp_fetchedCount := 1; cp_insertedCount := 0;
                      cp_status := RUNNING |} |}.

(** An engine-independent stand-in for [parseInt]: digit-only text. *)
Definition parse_digits (s : string) : option Z :=
  if Js.digit_only s then Some (Js.Number_of_digits s) else None.

Definition sample_env : Config.Env :=
  {[ "DATABASE_URL" := "postgresql://db/ingest";
     "API_BASE_URL" := "http://example.com//";
     "TARGET_API_KEY" := "key";
     "PARTITION_COUNT" := "0";
     "BATCH_SIZE" := "90000";
     "MAX_RETRIES" := "0" ]}.

(** The default settings, with three attempts per request. *)
Definition sample_config : Config.AppConfig :=
  {| Config.databaseUrl := "postgresql://db/ingest";
     Config.apiBaseUrl := "http://example.com/api/v1";
     Config.apiKey := "key";
     Config.mode := Config.INGEST;
     Config.partitionCount := 4; Config.batchSize := 5000;
     Config.dbWriteConcurrency := 2; Config.maxPendingWrites := 100;
     Config.pgSyncCommit := Config.SYNC_OFF; Config.healthPort := 8080;
     Config.autoSubmit := false; Config.githubRepoUrl := EmptyString;
     Config.minTimestampMs := 1766000000000; Config.maxTimestampMs := 1770000000000;
     Config.progressLogIntervalMs := 15000; Config.requestTimeoutMs := 45000;
     Config.maxRetries := 3; Config.retryBaseMs := 250; Config.retryMaxMs := 15000 |}.

(** A body in the nested format whose items are an event, a number and
    an event without id. *)
Definition sample_items : list Unknown :=
  [UObj [("id", UStr "e1"); ("timestamp", UNum 1768000000)];
   UNum 7;
   UObj [("timestamp", UNum 1768000001)]].

Definition sample_body : Unknown :=
  UObj [("data", UObj [("data", UArr sample_items);
                       ("meta", UObj [("total", UNum 3000000)])]);
        ("hasMore", UBool true)].

Definition no_headers : RateHeaders :=
  {| h_remaining := None; h_limit := None; h_reset := None |}.

Definition sample_access : Api.StreamAccess :=
  {| Api.endpoint := EmptyString; Api.tokenHeader := "X-Stream-Token";
     Api.token := "t0"; Api.expiresIn := 300 |}.

(** A server that answers every request with the given status, with an
    empty body when the status is 200. *)
Definition server (status : Z) : Api.Deps :=
  {| Api.httpClient_get := fun _ _ =>
       if status =? 200
       then Ok {| Api.status := 200; Api.response_headers := no_headers;
                  Api.body := UNull |}
       else Err (HttpError status);
     Api.streamManager_get := fun _ => Ok sample_access;
     Api.Math_random := fun _ => 1 # 2;
     Api.URL_origin := fun _ => Some "http://example.com";
     Api.URL_canParse := fun _ => true |}.

(** Nothing sent yet, a new limiter, the stream enabled. *)
Definition idle : Api.World :=
  {| Api.requests := []; Api.sleeps := []; Api.randoms := 0; Api.accesses := 0;
     Api.invalidations := 0; Api.rateLimiter := createRateLimiter;
     Api.streamDisabled := false |}.

Definition first_page : EventsSource.FetchPageParams :=
  {| EventsSource.limit := 5000; EventsSource.cursor := None;
     EventsSource.since := None; EventsSource.until := None |}.

End Scenarios.

(** * Properties *)

(** ** The cursor codec *)

Section CursorCodec.
Import Js CursorForge Aux.
#[local] Arguments String.append !_ _ / : simpl nomatch.

Lemma sextet_roundtrip (s0 s1 s2 s3 s4 s5 : bool) :
  let x := Ascii s0 s1 s2 s3 s4 s5 false false in
  b64_index (unurl_char (url_char (b64_char x))) = Some x
  ∧ (url_char (b64_char x) =? "=")%char = false.
Proof.
  destruct s0, s1, s2, s3, s4, s5; split; vm_compute; reflexivity.
Qed.

Lemma strip_padding_cons c rest :
  (c =? "=")%char = false →
  strip_padding (String c rest) = String c (strip_padding rest).
Proof.
  intros Hc. cbn [strip_padding]. rewrite Hc. destruct (strip_padding rest); reflexivity.
Qed.

Lemma url_replace s :
  replace_char "/" "_" (replace_char "+" "-" s) = 
  match s with EmptyString => EmptyString | String c r => String (url_char c) (replace_char "/" "_" (replace_char "+" "-" r)) end.
Proof. destruct s; reflexivity. Qed.

Lemma unurl_replace s :
  replace_char "_" "/" (replace_char "-" "+" s) = 
  match s with EmptyString => EmptyString | String c r => String (unurl_char c) (replace_char "_" "/" (replace_char "-" "+" r)) end.
Proof. destruct s; reflexivity. Qed.

Lemma string_ind3 (P : string → Prop) :
  P EmptyString →
  (∀ a, P (String a EmptyString)) →
  (∀ a b, P (String a (String b EmptyString))) →
  (∀ a b c r, P r → P (String a (String b (String c r)))) →
  ∀ s, P s.
Proof.
  intros H0 H1 H2 H3.
  assert (H : ∀ s, P s ∧ (∀ a, P (String a s)) ∧ (∀ a b, P (String a (String b s)))).
  { induction s as [|c s (IH0 & IH1 & IH2)].
    - auto.
    - repeat split; auto. }
  intros s. apply H.
Qed.

Lemma fromBase64Url_toBase64Url (s : string) : fromBase64Url (toBase64Url s) = s.
Proof.
  unfold fromBase64Url, toBase64Url, base64_decode.
  induction s as [|a|a b|a b c r IH] using string_ind3.
  - reflexivity.
  - destruct a as [a0 a1 a2 a3 a4 a5 a6 a7].
    cbn [base64_encode sextet1 sextet2 zero_byte].
    destruct (sextet_roundtrip a2 a3 a4 a5 a6 a7) as [E1 N1].
    destruct (sextet_roundtrip false false false false a0 a1) as [E2 N2].
    cbv zeta in *.
    rewrite !url_replace.
    rewrite strip_padding_cons by assumption.
    rewrite strip_padding_cons by assumption.
    change (strip_padding _) with EmptyString.
    rewrite !unurl_replace.
    cbn [sextets_of]. rewrite E1, E2. reflexivity.
  - destruct a as [a0 a1 a2 a3 a4 a5 a6 a7], b as [b0 b1 b2 b3 b4 b5 b6 b7].
    cbn [base64_encode sextet1 sextet2 sextet3 zero_byte].
    destruct (sextet_roundtrip a2 a3 a4 a5 a6 a7) as [E1 N1].
    destruct (sextet_roundtrip b4 b5 b6 b7 a0 a1) as [E2 N2].
    destruct (sextet_roundtrip false false b0 b1 b2 b3) as [E3 N3].
    cbv zeta in *.
    rewrite !url_replace.
    rewrite !strip_padding_cons by assumption.
    change (strip_padding _) with EmptyString.
    rewrite !unurl_replace.
    cbn [sextets_of]. rewrite E1, E2, E3. reflexivity.
  - destruct a as [a0 a1 a2 a3 a4 a5 a6 a7], b as [b0 b1 b2 b3 b4 b5 b6 b7],
      c as [c0 c1 c2 c3 c4 c5 c6 c7].
    cbn [base64_encode sextet1 sextet2 sextet3 sextet4].
    destruct (sextet_roundtrip a2 a3 a4 a5 a6 a7) as [E1 N1].
    destruct (sextet_roundtrip b4 b5 b6 b7 a0 a1) as [E2 N2].
    destruct (sextet_roundtrip c6 c7 b0 b1 b2 b3) as [E3 N3].
    destruct (sextet_roundtrip c0 c1 c2 c3 c4 c5) as [E4 N4].
    cbv zeta in *.
    rewrite 4!url_replace.
    rewrite !strip_padding_cons by assumption.
    rewrite 4!unurl_replace.
    cbn [sextets_of]. rewrite E1, E2, E3, E4.
    cbn [bytes_of_sextets byte1 byte2 byte3]. rewrite IH. reflexivity.
Qed.
Lemma digits_value_acc (d : Decimal.uint) (acc : positive) :
  digits_value (Zpos acc) (digits_string d) = Zpos (Pos.of_uint_acc d acc).
Proof.
  revert acc. induction d; intros acc; cbn [digits_string digits_value Pos.of_uint_acc];
    try reflexivity;
    rewrite <- IHd; f_equal; unfold digit_value; cbn; lia.
Qed.

Lemma digits_value_of_uint (d : Decimal.uint) :
  digits_value 0 (digits_string d) = Z.of_N (Pos.of_uint d).
Proof.
  induction d; cbn [digits_string digits_value Pos.of_uint]; try reflexivity;
    try (rewrite <- IHd; reflexivity);
    cbn [Z.of_N]; rewrite <- digits_value_acc; reflexivity.
Qed.

Lemma digits_value_to_uint (p : positive) :
  digits_value 0 (digits_string (Pos.to_uint p)) = Zpos p.
Proof. rewrite digits_value_of_uint, DecimalPos.Unsigned.of_to. reflexivity. Qed.

Lemma nzhead_no_zero (d u : Decimal.uint) : Decimal.nzhead d ≠ Decimal.D0 u.
Proof. induction d; cbn; try discriminate; assumption. Qed.

Lemma to_uint_head (p : positive) :
  ∀ u, Pos.to_uint p ≠ Decimal.D0 u.
Proof.
  intros u Hu.
  pose proof (DecimalPos.Unsigned.to_of (Pos.to_uint p)) as H.
  rewrite DecimalPos.Unsigned.of_to in H. cbn [N.to_uint] in H.
  rewrite Hu in H. unfold Decimal.unorm in H.
  destruct (Decimal.nzhead (Decimal.D0 u)) eqn:E;
    try (rewrite <- H in E; exact (nzhead_no_zero _ _ E)).
  injection H as ->. exact (DecimalPos.Unsigned.to_uint_nonzero p Hu).
Qed.

Lemma finish_number_to_uint (neg : bool) (p : positive) :
  finish_number neg (digits_string (Pos.to_uint p))
  = Some (TNum (if neg then Zneg p else Zpos p)).
Proof.
  pose proof (digits_value_to_uint p) as V.
  pose proof (to_uint_head p) as Hd.
  pose proof (DecimalPos.Unsigned.to_uint_nonnil p) as Hn.
  destruct (Pos.to_uint p) as [|u|u|u|u|u|u|u|u|u|u]; try congruence;
    try (exfalso; exact (Hd _ eq_refl));
    cbn [digits_string] in V |- *; unfold finish_number; rewrite V;
    destruct neg; reflexivity.
Qed.

Lemma append_empty_r (s : string) : s ++ EmptyString = s.
Proof. induction s as [|c s IH]; cbn [String.append]; [reflexivity | rewrite IH; reflexivity]. Qed.

Lemma append_assoc' (a b c : string) : (a ++ b) ++ c = a ++ (b ++ c).
Proof. induction a as [|x a IH]; cbn [String.append]; [reflexivity | rewrite IH; reflexivity]. Qed.

Lemma option_map_app_nil {A} (o : option (list A)) : option_map (app []) o = o.
Proof. destruct o; reflexivity. Qed.

Lemma lex_digits (d : Decimal.uint) (neg : bool) (acc rest : string) :
  lex (LNum neg acc) (digits_string d ++ rest)
  = lex (LNum neg (acc ++ digits_string d)) rest.
Proof.
  revert acc. induction d; intros acc; cbn [digits_string];
    try (rewrite append_empty_r; reflexivity);
    cbn [String.append lex]; unfold lex_step;
    match goal with
    | |- context [is_digit ?c] => change (is_digit c) with true
    end; cbv iota; rewrite option_map_app_nil, IHd, append_assoc'; reflexivity.
Qed.

Lemma lex_number_start (d : Decimal.uint) (rest : string) :
  d ≠ Decimal.Nil →
  lex LDefault (digits_string d ++ rest) = lex (LNum false (digits_string d)) rest.
Proof.
  intros Hd. destruct d; try congruence; cbn [digits_string String.append lex];
    unfold lex_step;
    match goal with
    | |- context [lex_start ?c] =>
        let r := eval vm_compute in (lex_start c) in change (lex_start c) with r
    end; cbv iota; rewrite option_map_app_nil, lex_digits; reflexivity.
Qed.

Lemma payload_shape (t : Z) :
  JSON_stringify (cursor_members t)
  = payload_prefix ++ (Number_toString t ++ payload_suffix).
Proof.
  unfold JSON_stringify, cursor_members, stringify_members, stringify_member,
    stringify_value, fst, snd.
  generalize (Number_toString t). intros N.
  rewrite ?append_assoc'. cbn [String.append].
  rewrite ?append_assoc'. reflexivity.
Qed.

Lemma lex_app (s1 s2 : string) (st : lex_state) :
  lex st (s1 ++ s2)
  = match lex_run st s1 with
    | Some (ts, st') => option_map (app ts) (lex st' s2)
    | None => None
    end.
Proof.
  revert st. induction s1 as [|c s1 IH]; intros st; cbn [String.append lex lex_run].
  - rewrite option_map_app_nil. reflexivity.
  - destruct (lex_step st c) as [[ts st']|]; [|reflexivity].
    rewrite IH. destruct (lex_run st' s1) as [[ts' st'']|]; [|reflexivity].
    destruct (lex st'' s2); cbn [option_map]; [|reflexivity].
    rewrite <- app_assoc. reflexivity.
Qed.

Lemma lex_payload_prefix (rest : string) :
  lex LDefault (payload_prefix ++ rest)
  = option_map (app [TLBrace; TStr "id"; TColon; TStr NULL_UUID; TComma;
                     TStr "ts"; TColon])
               (lex LDefault rest).
Proof.
  rewrite lex_app.
  assert (lex_run LDefault payload_prefix
          = Some ([TLBrace; TStr "id"; TColon; TStr NULL_UUID; TComma;
                   TStr "ts"; TColon], LDefault)) as -> by (vm_compute; reflexivity).
  reflexivity.
Qed.

Lemma lex_payload_suffix (neg : bool) (D : string) (n : Z) :
  finish_number neg D = Some (TNum n) →
  lex (LNum neg D) payload_suffix
  = Some [TNum n; TComma; TStr "v"; TColon; TNum 2; TComma;
          TStr "exp"; TColon; TNum FAR_FUTURE_EXP; TRBrace].
Proof.
  intros Hfin. unfold payload_suffix.
  cbn [lex]. unfold lex_step at 1.
  change (is_digit ",") with false. cbv iota.
  change ((("," =? ".")%char || ("," =? "e")%char || ("," =? "E")%char)) with false.
  cbv iota. rewrite Hfin. vm_compute. reflexivity.
Qed.

Lemma parse_stringify_cursor (t : Z) :
  JSON_parse (JSON_stringify (cursor_members t)) = Some (cursor_members t).
Proof.
  rewrite payload_shape. unfold JSON_parse. rewrite lex_payload_prefix.
  destruct t as [|p|p]; unfold Number_toString.
  - vm_compute. reflexivity.
  - rewrite lex_number_start by apply DecimalPos.Unsigned.to_uint_nonnil.
    rewrite (lex_payload_suffix _ _ _ (finish_number_to_uint false p)).
    reflexivity.
  - change (String "-" ?d ++ ?r) with (String "-" (d ++ r)).
    cbn [lex]. change (lex_step LDefault "-") with (Some ([] : list token, LNum true EmptyString)).
    cbv iota. rewrite option_map_app_nil.
    rewrite lex_digits. change (EmptyString ++ ?d) with d.
    rewrite (lex_payload_suffix _ _ _ (finish_number_to_uint true p)).
    reflexivity.
Qed.

Lemma decode_forge (t : Z) : decodeCursorTimestamp (forgeCursor t) = Some t.
Proof.
  unfold decodeCursorTimestamp, forgeCursor.
  rewrite fromBase64Url_toBase64Url.
  pose proof (parse_stringify_cursor t) as H. unfold cursor_members in H.
  rewrite H. reflexivity.
Qed.

(** C2: for every integer timestamp [t], decoding the cursor forged from
    [t] gives back [t]. *)
Theorem C2_decode_forge_roundtrip (t : Z) :
  decodeCursorTimestamp (forgeCursor t) = Some t.
Proof. exact (decode_forge t). Qed.

End CursorCodec.

(** ** The partitioner *)

Section Partitioner.
Import CursorForge.
#[local] Arguments boundary : simpl never.

Lemma lookup_map {A B} (f : A → B) (l : list A) (i : nat) :
  map f l !! i = f <$> (l !! i).
Proof.
  revert i. induction l as [|x l IH]; intros [|i]; cbn; auto.
Qed.

Lemma boundary_0 (a : Z) (w : Q) : boundary a w 0 = a.
Proof.
  unfold boundary. rewrite <- (Qfloor_Z a) at 2. apply Qfloor_comp.
  cbn [Z.of_nat]. ring.
Qed.

Lemma boundary_mono (a : Z) (w : Q) (i j : nat) :
  (0 <= w)%Q → (i ≤ j)%nat → boundary a w i <= boundary a w j.
Proof.
  intros Hw Hij. unfold boundary. apply Qfloor_resp_le.
  apply Qplus_le_r. rewrite !(Qmult_comm w).
  apply Qmult_le_compat_r; [|exact Hw].
  rewrite <- Zle_Qle. lia.
Qed.

Lemma width_nonneg (a b : Z) (N : nat) :
  a < b → (0 <= inject_Z (b - a) / inject_Z (Z.of_nat N))%Q.
Proof.
  intros Hab. destruct N as [|N].
  - cbn. unfold Qdiv, Qinv. cbn. rewrite Qmult_0_r. apply Qle_refl.
  - apply Qle_shift_div_l.
    + rewrite <- (Zlt_Qlt 0). lia.
    + rewrite Qmult_0_l. rewrite <- (Zle_Qle 0). lia.
Qed.

Lemma chunk_lookup (a b : Z) (N i : nat) :
  (i < N)%nat →
  createTimestampChunks a b N !! i
  = Some {| startTs := boundary a (inject_Z (b - a) / inject_Z (Z.of_nat N)) i;
            endTs := if (i =? N - 1)%nat then b + 1
                     else boundary a (inject_Z (b - a) / inject_Z (Z.of_nat N)) (i + 1) |}.
Proof.
  intros Hi. unfold createTimestampChunks. rewrite lookup_map.
  rewrite lookup_seq_lt by exact Hi. reflexivity.
Qed.

Lemma chunk_lookup_inv (a b : Z) (N i : nat) (c : TimestampChunk) :
  createTimestampChunks a b N !! i = Some c →
  (i < N)%nat
  ∧ c = {| startTs := boundary a (inject_Z (b - a) / inject_Z (Z.of_nat N)) i;
           endTs := if (i =? N - 1)%nat then b + 1
                    else boundary a (inject_Z (b - a) / inject_Z (Z.of_nat N)) (i + 1) |}.
Proof.
  intros H. assert (Hi : (i < N)%nat).
  { apply lookup_lt_Some in H. unfold createTimestampChunks in H.
    rewrite length_map, length_seq in H. exact H. }
  split; [exact Hi|]. rewrite chunk_lookup in H by exact Hi. congruence.
Qed.

(** Between a boundary at or below [x] and the last chunk there is a chunk
    that holds [x]. *)
Lemma find_chunk (a : Z) (w : Q) (top x : Z) (N : nat) (d k : nat) :
  (k + d = N - 1)%nat → boundary a w k <= x → x < top →
  ∃ i, (k ≤ i ≤ N - 1)%nat ∧ boundary a w i <= x
       ∧ x < (if (i =? N - 1)%nat then top else boundary a w (i + 1)).
Proof.
  revert k. induction d as [|d IH]; intros k Hk Hlo Hx.
  - exists k. replace (k =? N - 1)%nat with true by (symmetry; apply Nat.eqb_eq; lia).
    repeat split; try lia; assumption.
  - destruct (Z_lt_le_dec x (boundary a w (k + 1))) as [Hlt|Hge].
    + exists k. replace (k =? N - 1)%nat with false by (symmetry; apply Nat.eqb_neq; lia).
      repeat split; try lia; assumption.
    + destruct (IH (k + 1)%nat) as (i & Hi & H1 & H2); [lia|assumption|assumption|].
      exists i. repeat split; try lia; assumption.
Qed.

(** C3: for [N ≥ 1] and [a < b], [createTimestampChunks a b N] has [N]
    chunks, the first starts at [a], the last ends at [b + 1], each chunk
    ends where the next one starts, the half-open chunks are pairwise
    disjoint and every integer of [[a, b]] lies in one of them; for
    [N = 1] the single chunk is [[a, b + 1)]. *)
Theorem C3_chunks_partition (a b : Z) (N : nat) :
  (1 ≤ N)%nat → a < b →
  let chunks := createTimestampChunks a b N in
  length chunks = N
  ∧ startTs <$> chunks !! 0%nat = Some a
  ∧ endTs <$> chunks !! (N - 1)%nat = Some (b + 1)
  ∧ (∀ i c c', chunks !! i = Some c → chunks !! S i = Some c' →
               endTs c = startTs c')
  ∧ (∀ i j ci cj x, i ≠ j → chunks !! i = Some ci → chunks !! j = Some cj →
                    ¬ (startTs ci <= x < endTs ci ∧ startTs cj <= x < endTs cj))
  ∧ (∀ x, a <= x <= b →
          ∃ i c, chunks !! i = Some c ∧ startTs c <= x < endTs c)
  ∧ (N = 1%nat → chunks = [{| startTs := a; endTs := b + 1 |}]).
Proof.
  intros HN Hab chunks. subst chunks.
  pose proof (width_nonneg a b N Hab) as Hw.
  set (w := (inject_Z (b - a) / inject_Z (Z.of_nat N))%Q) in *.
  assert (Hdisj : ∀ i j ci cj x, (i < j)%nat →
            createTimestampChunks a b N !! i = Some ci →
            createTimestampChunks a b N !! j = Some cj →
            ¬ (startTs ci <= x < endTs ci ∧ startTs cj <= x < endTs cj)).
  { intros i j ci cj x Hij Hi Hj [[_ H1] [H2 _]].
    apply chunk_lookup_inv in Hi as [Hi ->]. apply chunk_lookup_inv in Hj as [Hj ->].
    cbn in H1, H2. fold w in H1, H2.
    replace (i =? N - 1)%nat with false in H1 by (symmetry; apply Nat.eqb_neq; lia).
    pose proof (boundary_mono a w (i + 1) j Hw ltac:(lia)). lia. }
  repeat split.
  - unfold createTimestampChunks. rewrite length_map, length_seq. reflexivity.
  - rewrite chunk_lookup by lia. cbn. fold w. rewrite boundary_0. reflexivity.
  - rewrite chunk_lookup by lia. cbn. rewrite Nat.eqb_refl. reflexivity.
  - intros i c c' Hc Hc'.
    apply chunk_lookup_inv in Hc as [Hi ->]. apply chunk_lookup_inv in Hc' as [Hi' ->].
    cbn. replace (i =? N - 1)%nat with false by (symmetry; apply Nat.eqb_neq; lia).
    replace (i + 1)%nat with (S i) by lia. reflexivity.
  - intros i j ci cj x Hij Hi Hj.
    destruct (Nat.lt_total i j) as [H|[H|H]]; [eauto|contradiction|].
    intros [H1 H2]. exact (Hdisj j i cj ci x H Hj Hi (conj H2 H1)).
  - intros x [Hax Hxb].
    destruct (find_chunk a w (b + 1) x N (N - 1) 0) as (i & Hi & Hlo & Hhi);
      [lia|rewrite boundary_0; lia|lia|].
    eexists i, _. split; [apply chunk_lookup; lia|]. cbn. fold w. split; assumption.
  - intros ->. unfold createTimestampChunks. cbn. fold (boundary a (inject_Z (b - a) / inject_Z 1) 0).
    rewrite boundary_0. reflexivity.
Qed.

Lemma C3_chunks_partition_witness :
  let chunks := createTimestampChunks 0 3000 3 in
  length chunks = 3%nat
  ∧ startTs <$> chunks !! 0%nat = Some 0
  ∧ endTs <$> chunks !! 2%nat = Some 3001
  ∧ (∀ i c c', chunks !! i = Some c → chunks !! S i = Some c' →
               endTs c = startTs c')
  ∧ (∀ i j ci cj x, i ≠ j → chunks !! i = Some ci → chunks !! j = Some cj →
                    ¬ (startTs ci <= x < endTs ci ∧ startTs cj <= x < endTs cj))
  ∧ (∀ x, 0 <= x <= 3000 →
          ∃ i c, chunks !! i = Some c ∧ startTs c <= x < endTs c)
  ∧ (3%nat = 1%nat → chunks = [{| startTs := 0; endTs := 3000 + 1 |}]).
Proof. apply (C3_chunks_partition 0 3000 3); lia. Defined.
End Partitioner.

(** ** The rate limiter *)

Section RateLimiterFacts.
Import RateLimit SpecWords Scenarios.

Lemma Qltb_lt (a b : Q) : Qltb a b = true ↔ (a < b)%Q.
Proof.
  unfold Qltb. rewrite negb_true_iff. split.
  - intros H. apply Qnot_le_lt. intros Hle. apply Qle_bool_iff in Hle. congruence.
  - intros H. destruct (Qle_bool b a) eqn:E; [|reflexivity].
    apply Qle_bool_iff in E. exfalso. exact (Qlt_not_le _ _ H E).
Qed.

Lemma Qltb_ge (a b : Q) : Qltb a b = false ↔ (b <= a)%Q.
Proof.
  unfold Qltb. rewrite negb_false_iff. apply Qle_bool_iff.
Qed.

Lemma wait_positive (now : Z) (t : Q) :
  Qltb 0 (t - inject_Z now) = Qltb (inject_Z now) t.
Proof.
  destruct (Qltb (inject_Z now) t) eqn:E.
  - apply Qltb_lt in E. apply Qltb_lt. unfold Qminus. rewrite <- Qlt_minus_iff. exact E.
  - apply Qltb_ge in E. apply Qltb_ge.
    apply Qplus_le_l with (z := inject_Z now). ring_simplify. exact E.
Qed.

Lemma delay_by_header_wait (now : Z) (l : RateLimiter) :
  getPreRequestDelayMs now l
  = match header_wait now l with
    | Some w => w
    | None => adaptiveDelayMs (state l)
    end.
Proof.
  unfold getPreRequestDelayMs, header_wait.
  destruct (remaining (state l)) as [r|]; [|reflexivity].
  destruct (resetAtMs (state l)) as [t|]; [|reflexivity].
  rewrite wait_positive.
  destruct (Qle_bool r 1), (Qltb (inject_Z now) t); reflexivity.
Qed.

(** C5 (as the code has it): when [remaining ≤ 1] and [resetAtMs > now]
    the pre-request delay is [resetAtMs − now + 100], whatever the
    adaptive delay; in every other state it is [adaptiveDelayMs].  It
    agrees with the maximum of the two whenever the adaptive delay does
    not exceed an applicable header wait. *)
Theorem C5_header_wait_takes_precedence (now : Z) (l : RateLimiter) :
  (∀ r t, remaining (state l) = Some r → resetAtMs (state l) = Some t →
          (r <= 1)%Q → (inject_Z now < t)%Q →
          getPreRequestDelayMs now l = (t - inject_Z now + 100)%Q)
  ∧ ((remaining (state l) = None ∨ resetAtMs (state l) = None
      ∨ (∃ r, remaining (state l) = Some r ∧ (1 < r)%Q)
      ∨ (∃ t, resetAtMs (state l) = Some t ∧ (t <= inject_Z now)%Q)) →
     getPreRequestDelayMs now l = adaptiveDelayMs (state l))
  ∧ ((∀ w, header_wait now l = Some w → (adaptiveDelayMs (state l) <= w)%Q) →
     (getPreRequestDelayMs now l == preRequestDelay_spec now l)%Q).
Proof.
  rewrite delay_by_header_wait. unfold preRequestDelay_spec, header_wait.
  repeat split.
  - intros r t -> -> Hr Ht.
    apply Qle_bool_iff in Hr. apply Qltb_lt in Ht. rewrite Hr, Ht. reflexivity.
  - intros [->|[H|[(r & -> & Hr)|(t & H & Ht)]]].
    + reflexivity.
    + rewrite H. destruct (remaining (state l)); reflexivity.
    + destruct (resetAtMs (state l)) as [t|]; [|reflexivity].
      replace (Qle_bool r 1) with false; [reflexivity|].
      symmetry. apply not_true_is_false. intros E. apply Qle_bool_iff in E.
      exact (Qlt_not_le _ _ Hr E).
    + rewrite H. apply Qltb_ge in Ht.
      destruct (remaining (state l)); [|reflexivity].
      rewrite Ht, andb_false_r. reflexivity.
  - intros Hle.
    destruct (remaining (state l)) as [r|]; [|reflexivity].
    destruct (resetAtMs (state l)) as [t|]; [|reflexivity].
    destruct (Qle_bool r 1 && Qltb (inject_Z now) t); [|reflexivity].
    specialize (Hle _ eq_refl). unfold Qmax'.
    destruct (Qle_bool (t - inject_Z now + 100) (adaptiveDelayMs (state l))) eqn:E;
      [|reflexivity].
    apply Qle_bool_iff in E. apply Qle_antisym; assumption.
Qed.

(** A reachable state in which the header wait applies (1100 ms) and the
    adaptive delay is larger (1300 ms): the delay is 1100 ms, not the
    maximum. *)
Lemma C5_counterexample :
  (getPreRequestDelayMs 1768000003000 throttled == 1100)%Q
  ∧ (adaptiveDelayMs (state throttled) == 1300)%Q
  ∧ (preRequestDelay_spec 1768000003000 throttled == 1300)%Q
  ∧ ¬ (getPreRequestDelayMs 1768000003000 throttled
       == preRequestDelay_spec 1768000003000 throttled)%Q.
Proof.
  repeat split; try (vm_compute; reflexivity).
  vm_compute. discriminate.
Qed.

Lemma C5_header_wait_takes_precedence_witness :
  getPreRequestDelayMs 1768000003000 throttled
  = ((inject_Z 1768000003000 + 1 * 1000) - inject_Z 1768000003000 + 100)%Q.
Proof.
  apply (proj1 (C5_header_wait_takes_precedence 1768000003000 throttled)
           0%Q (inject_Z 1768000003000 + 1 * 1000)%Q);
    vm_compute; congruence.
Defined.

Lemma decay_code_is_spec (d : Q) :
  (if Qltb (Qmax' (d * ADAPTIVE_DECAY) 0) 100 then 0%Q
   else Qmax' (d * ADAPTIVE_DECAY) 0) = decay_spec d.
Proof.
  unfold decay_spec, ADAPTIVE_DECAY, Qmax'.
  destruct (Qle_bool (d * (1 # 2)) 0) eqn:E; [|reflexivity].
  change (Qltb 0 100) with true. cbv iota.
  replace (Qltb (d * (1 # 2)) 100) with true; [reflexivity|].
  symmetry. apply Qltb_lt. apply Qle_bool_iff in E.
  eapply Qle_lt_trans; [exact E|]. reflexivity.
Qed.

(** C6 (as the code has it): when the consecutive-429 counter is
    positive, [recordSuccess] halves the adaptive delay, snaps it to 0
    below 100 ms and resets the counter, leaving the rest of the state;
    when the counter is 0 it changes nothing. *)
Theorem C6_success_decays_after_429 (l : RateLimiter) :
  (0 < consecutive429s (state l) →
   adaptiveDelayMs (state (recordSuccess l)) = decay_spec (adaptiveDelayMs (state l))
   ∧ consecutive429s (state (recordSuccess l)) = 0
   ∧ remaining (state (recordSuccess l)) = remaining (state l)
   ∧ limit (state (recordSuccess l)) = limit (state l)
   ∧ resetAtMs (state (recordSuccess l)) = resetAtMs (state l)
   ∧ last429AtMs (recordSuccess l) = last429AtMs l)
  ∧ (consecutive429s (state l) <= 0 → recordSuccess l = l).
Proof.
  unfold recordSuccess. split; intros H.
  - replace (0 <? consecutive429s (state l)) with true by (symmetry; apply Z.ltb_lt; lia).
    cbn. rewrite decay_code_is_spec. repeat split.
  - replace (0 <? consecutive429s (state l)) with false by (symmetry; apply Z.ltb_ge; lia).
    reflexivity.
Qed.

(** After one 429 and one success the delay is 500 ms and the counter 0;
    a further success leaves the delay at 500 ms instead of halving it. *)
Lemma C6_counterexample :
  consecutive429s (state recovered) = 0
  ∧ (adaptiveDelayMs (state recovered) == 500)%Q
  ∧ (adaptiveDelayMs (state (recordSuccess recovered)) == 500)%Q
  ∧ ¬ (adaptiveDelayMs (state (recordSuccess recovered))
       == decay_spec (adaptiveDelayMs (state recovered)))%Q.
Proof.
  repeat split; try (vm_compute; reflexivity).
  vm_compute. discriminate.
Qed.

Lemma C6_success_decays_after_429_witness :
  adaptiveDelayMs (state (recordSuccess (record429 1768000000000 createRateLimiter)))
  = decay_spec 1000
  ∧ recordSuccess recovered = recovered.
Proof.
  split.
  - apply (proj1 (C6_success_decays_after_429
                    (record429 1768000000000 createRateLimiter))).
    vm_compute. reflexivity.
  - apply (proj2 (C6_success_decays_after_429 recovered)).
    vm_compute. discriminate.
Defined.

End RateLimiterFacts.

(** ** Timestamp normalisation *)

Section Timestamps.
Import Js Mappers.

Lemma digits_string_nonempty (d : Decimal.uint) :
  d ≠ Decimal.Nil → digits_string d ≠ EmptyString.
Proof. destruct d; cbn; congruence. Qed.

Lemma digit_only_cons (c : ascii) (s : string) :
  is_digit c = true → (s = EmptyString ∨ digit_only s = true) →
  digit_only (String c s) = true.
Proof.
  intros Hc [->|Hs]; cbn [digit_only]; [exact Hc|].
  destruct s; [exact Hc|]. rewrite Hc, Hs. reflexivity.
Qed.

Lemma digit_only_digits (d : Decimal.uint) :
  digits_string d = EmptyString ∨ digit_only (digits_string d) = true.
Proof.
  induction d; [left; reflexivity|..]; right; cbn [digits_string];
    apply digit_only_cons; (reflexivity || exact IHd).
Qed.

Lemma digit_only_toString (p : positive) :
  digit_only (Number_toString (Zpos p)) = true
  ∧ (0 <? String.length (Number_toString (Zpos p)))%nat = true.
Proof.
  cbn [Number_toString].
  pose proof (digits_string_nonempty _ (DecimalPos.Unsigned.to_uint_nonnil p)) as Hne.
  destruct (digit_only_digits (Pos.to_uint p)) as [H|H]; [contradiction|].
  split; [exact H|]. destruct (digits_string (Pos.to_uint p)); [contradiction|reflexivity].
Qed.

Lemma normalize_digits (p : positive) :
  Zpos p < 2 ^ 1024 - 2 ^ 970 →
  normalizeTimestampMs (VStr (Number_toString (Zpos p)))
  = Ok (if Zpos p <? SECONDS_LIMIT then Zpos p * 1000 else Zpos p).
Proof.
  intros Hfin. unfold normalizeTimestampMs.
  destruct (digit_only_toString p) as [-> ->].
  unfold Number_of_digits. cbn [Number_toString].
  rewrite digits_value_to_uint.
  unfold Number_isFinite. rewrite (proj2 (Z.ltb_lt _ _) Hfin). reflexivity.
Qed.

Lemma take_digits_4_dash (s : string) (y : Z) (r r' : string) :
  take_digits 4 0 s = Some (y, r) → expect "-" r = Some r' →
  digit_only s = false ∧ s ≠ EmptyString.
Proof.
  destruct s as [|c1 [|c2 [|c3 [|c4 [|c5 t]]]]]; cbn [take_digits];
    repeat match goal with
    | |- context [is_digit ?c] => destruct (is_digit c) eqn:?
    end; try discriminate;
    intros [= <- <-]; cbn [expect]; try discriminate.
  destruct (c5 =? "-")%char eqn:E; [|discriminate]. intros _.
  apply Ascii.eqb_eq in E. subst c5. split; [|discriminate].
  cbn [digit_only]. change (is_digit "-") with false.
  repeat match goal with H : is_digit _ = _ |- _ => rewrite H end.
  destruct t; cbn; reflexivity.
Qed.

Lemma Date_parse_not_digits (s : string) (m : Z) :
  Date_parse s = Some m → digit_only s = false ∧ s ≠ EmptyString.
Proof.
  unfold Date_parse. intros H.
  destruct (take_digits 4 0 s) as [[y r]|] eqn:E1; [|discriminate].
  cbn in H. destruct (expect "-" r) as [r'|] eqn:E2; [|discriminate].
  exact (take_digits_4_dash s y r r' E1 E2).
Qed.

Lemma normalize_date (s : string) (m : Z) :
  Date_parse s = Some m → normalizeTimestampMs (VStr s) = Ok m.
Proof.
  intros H. destruct (Date_parse_not_digits s m H) as [Hd Hne].
  unfold normalizeTimestampMs. rewrite Hd, H.
  destruct s; [contradiction|reflexivity].
Qed.

(** C7 (as the code has it): for an instant at a whole second [S] with
    [S < 10^12] whose millisecond value [M = 1000·S] is at least
    [10^12], the seconds integer, the milliseconds integer, their digit
    strings and every ISO-8601 string that [Date.parse] reads as [M] are
    all normalised to [M]. *)
Theorem C7_normalize_agrees (S M : Z) (iso : string) :
  M = 1000 * S → SECONDS_LIMIT <= M → S < SECONDS_LIMIT →
  Date_parse iso = Some M →
  normalizeTimestampMs (VNum (inject_Z S)) = Ok M
  ∧ normalizeTimestampMs (VNum (inject_Z M)) = Ok M
  ∧ normalizeTimestampMs (VStr (Number_toString S)) = Ok M
  ∧ normalizeTimestampMs (VStr (Number_toString M)) = Ok M
  ∧ normalizeTimestampMs (VStr iso) = Ok M.
Proof.
  unfold SECONDS_LIMIT. intros -> HM HS Hiso.
  assert (Hbig : 1000000000000000 < 2 ^ 1024 - 2 ^ 970) by (vm_compute; reflexivity).
  repeat split.
  - cbn [normalizeTimestampMs]. rewrite Qfloor_Z. unfold SECONDS_LIMIT.
    rewrite (proj2 (Z.ltb_lt _ _) HS). f_equal. lia.
  - cbn [normalizeTimestampMs]. rewrite Qfloor_Z. unfold SECONDS_LIMIT.
    rewrite (proj2 (Z.ltb_ge _ _) HM). reflexivity.
  - destruct S as [|p|p]; try lia.
    rewrite normalize_digits by lia. unfold SECONDS_LIMIT.
    rewrite (proj2 (Z.ltb_lt _ _) HS). f_equal. lia.
  - destruct (1000 * S) as [|p|p] eqn:E; try lia.
    rewrite normalize_digits by lia. unfold SECONDS_LIMIT.
    rewrite (proj2 (Z.ltb_ge _ _) HM). reflexivity.
  - exact (normalize_date iso _ Hiso).
Qed.

Lemma C7_normalize_agrees_witness :
  normalizeTimestampMs (VNum (inject_Z 1768003200)) = Ok 1768003200000
  ∧ normalizeTimestampMs (VNum (inject_Z 1768003200000)) = Ok 1768003200000
  ∧ normalizeTimestampMs (VStr (Number_toString 1768003200)) = Ok 1768003200000
  ∧ normalizeTimestampMs (VStr (Number_toString 1768003200000)) = Ok 1768003200000
  ∧ normalizeTimestampMs (VStr "2026-01-10T00:00:00.000Z") = Ok 1768003200000.
Proof.
  apply (C7_normalize_agrees 1768003200 1768003200000 "2026-01-10T00:00:00.000Z");
    vm_compute; congruence.
Defined.

(** The instant 2000-01-01T00:00:00Z lies below [10^12] ms: its ISO and
    seconds forms give 946684800000, its millisecond forms are read as
    seconds and give a thousand times that. *)
Lemma C7_counterexample :
  Date_parse "2000-01-01T00:00:00.000Z" = Some 946684800000
  ∧ normalizeTimestampMs (VStr "2000-01-01T00:00:00.000Z") = Ok 946684800000
  ∧ normalizeTimestampMs (VNum (inject_Z 946684800)) = Ok 946684800000
  ∧ normalizeTimestampMs (VStr (Number_toString 946684800)) = Ok 946684800000
  ∧ normalizeTimestampMs (VNum (inject_Z 946684800000)) = Ok 946684800000000
  ∧ normalizeTimestampMs (VStr (Number_toString 946684800000)) = Ok 946684800000000
  ∧ normalizeTimestampMs (VNum (inject_Z 946684800000))
    ≠ normalizeTimestampMs (VNum (inject_Z 946684800)).
Proof.
  repeat split; try (vm_compute; reflexivity).
  vm_compute. discriminate.
Qed.

End Timestamps.

(** ** Repositories and the write queue *)

Section Repositories.
Import Mappers CursorForge Db DbQueue Views Scenarios.

Lemma insert_events_lookup (rows : list IngestionEvent) (tbl : gmap string EventRow)
  (k : string) :
  is_Some ((insert_events rows tbl).1 !! k)
  ↔ is_Some (tbl !! k) ∨ k ∈ map eventId rows.
Proof.
  revert tbl. induction rows as [|e rows IH]; intros tbl; cbn [insert_events map].
  - rewrite elem_of_nil. tauto.
  - rewrite elem_of_cons. destruct (tbl !! eventId e) eqn:E.
    + rewrite IH. split; [tauto|]. intros [H|[->|H]]; [tauto| |tauto].
      left. rewrite E. eauto.
    + destruct (insert_events rows _) as [tbl' n] eqn:E'. cbn [fst].
      change tbl' with (tbl', n).1. rewrite <- E', IH.
      rewrite lookup_insert_is_Some.
      destruct (decide (eventId e = k)) as [Hk|Hk].
      * split; intros _; [right; left; congruence|left; left; exact Hk].
      * split.
        -- intros [[?|[_ H]]|H]; [contradiction|left; exact H|right; right; exact H].
        -- intros [H|[H|H]]; [left; right; split; assumption|congruence|right; exact H].
Qed.

Lemma insert_events_keeps (rows : list IngestionEvent) (tbl : gmap string EventRow)
  (k : string) (r : EventRow) :
  tbl !! k = Some r → (insert_events rows tbl).1 !! k = Some r.
Proof.
  revert tbl. induction rows as [|e rows IH]; intros tbl Hk; cbn [insert_events].
  - exact Hk.
  - destruct (tbl !! eventId e) eqn:E; [auto|].
    destruct (insert_events rows _) as [tbl' n] eqn:E'. cbn [fst].
    change tbl' with (tbl', n).1. rewrite <- E'. apply IH.
    rewrite lookup_insert_ne; [exact Hk|]. intros Heq. congruence.
Qed.

Lemma update_checkpoint_dom (cp : CheckpointInput) (tbl : gmap Z CheckpointRow) (w : Z) :
  is_Some ((update_checkpoint cp tbl).1 !! w) ↔ is_Some (tbl !! w).
Proof.
  unfold update_checkpoint. destruct (tbl !! workerId cp) eqn:E; cbn [fst]; [|reflexivity].
  rewrite lookup_insert_is_Some. split; [|intros H; destruct (decide (workerId cp = w)); auto].
  intros [<-|[_ H]]; [rewrite E; eauto|exact H].
Qed.

Lemma store_eta (s : Store) :
  {| ingested_events := ingested_events s; worker_checkpoints := worker_checkpoints s |} = s.
Proof. destruct s; reflexivity. Qed.

Lemma client_eta (c : Client) :
  {| committed := committed c; txn := txn c; fault := fault c |} = c.
Proof. destruct c; reflexivity. Qed.

Lemma query_update_view (cp : CheckpointInput) (c : Client) :
  fault c SUpdateCheckpoint = false →
  ∃ n c', query (UpdateCheckpoint cp) c = (Ok n, c')
    ∧ session_view c'
      = {| ingested_events := ingested_events (session_view c);
           worker_checkpoints :=
             (update_checkpoint cp (worker_checkpoints (session_view c))).1 |}
    ∧ n = (update_checkpoint cp (worker_checkpoints (session_view c))).2.
Proof.
  intros Hf. unfold query, session_view. cbn [kind]. rewrite Hf. cbn [run_sql].
  destruct (txn c) as [t|];
    destruct (update_checkpoint cp _) as [tbl n]; eauto.
Qed.

Lemma insert_checkpoints_lookup (rows : list (Z * TimestampChunk))
  (tbl : gmap Z CheckpointRow) (w : Z) :
  is_Some ((insert_checkpoints rows tbl).1 !! w)
  ↔ is_Some (tbl !! w) ∨ w ∈ map fst rows.
Proof.
  revert tbl. induction rows as [|[k ch] rows IH]; intros tbl;
    cbn [insert_checkpoints map fst].
  - rewrite elem_of_nil. tauto.
  - rewrite elem_of_cons. destruct (tbl !! k) eqn:E.
    + rewrite IH. split; [tauto|]. intros [H|[->|H]]; [tauto| |tauto].
      left. rewrite E. eauto.
    + destruct (insert_checkpoints rows _) as [tbl' n] eqn:E'. cbn [fst].
      change tbl' with (tbl', n).1. rewrite <- E', IH.
      rewrite lookup_insert_is_Some.
      destruct (decide (k = w)) as [Hk|Hk].
      * split; intros _; [right; left; congruence|left; left; exact Hk].
      * split.
        -- intros [[?|[_ H]]|H]; [contradiction|left; exact H|right; right; exact H].
        -- intros [H|[H|H]]; [left; right; split; assumption|congruence|right; exact H].
Qed.

Lemma worker_ids (chunks : list TimestampChunk) (w : Z) :
  w ∈ map fst (imap (fun i chunk => (Z.of_nat i, chunk)) chunks)
  ↔ ∃ i, (i < length chunks)%nat ∧ w = Z.of_nat i.
Proof.
  rewrite list_elem_of_In, in_map_iff. split.
  - intros ([k ch] & <- & Hin). apply list_elem_of_In, elem_of_lookup_imap in Hin.
    destruct Hin as (i & y & [= -> ->] & Hy). exists i. split; [|reflexivity].
    eapply lookup_lt_Some, Hy.
  - intros (i & Hi & ->). destruct (lookup_lt_is_Some_2 chunks i Hi) as [y Hy].
    exists (Z.of_nat i, y). split; [reflexivity|].
    apply list_elem_of_In, elem_of_lookup_imap. eauto.
Qed.

Lemma initialize_rows (f : Stmt → bool) (chunks : list TimestampChunk) (s : Store) (w : Z) :
  f SInitCheckpoints = false →
  is_Some (worker_checkpoints (initializeWorkerCheckpoints f chunks s).2 !! w)
  ↔ is_Some (worker_checkpoints s !! w)
    ∨ ∃ i, (i < length chunks)%nat ∧ w = Z.of_nat i.
Proof.
  intros Hf. unfold initializeWorkerCheckpoints.
  destruct (length chunks =? 0)%nat eqn:El.
  - apply Nat.eqb_eq in El. cbn [snd]. split; [tauto|].
    intros [H|(i & Hi & _)]; [exact H|lia].
  - unfold pool_query, query. cbn [kind fault]. rewrite Hf. cbn [txn committed run_sql].
    destruct (insert_checkpoints _ _) as [tbl n] eqn:E. cbn [snd committed worker_checkpoints].
    change tbl with (tbl, n).1. rewrite <- E, insert_checkpoints_lookup, worker_ids.
    reflexivity.
Qed.

#[local] Arguments insert_events : simpl never.
#[local] Arguments update_checkpoint : simpl never.

Ltac failed_step f :=
  right; split;
  [ intros (? & ? & [?|?] & ? & ?); congruence
  | cbn [kind fault txn committed]; destruct (f SRollback) eqn:?;
    cbn [committed txn fst snd]; eexists _, _;
    (split; [reflexivity|]); (split; [set_solver|]);
    repeat split; first [discriminate|reflexivity|congruence|eauto] ].

(** The outcomes of a write task, with the connection it gives back. *)
Lemma executeWrite_session_cases (f : Stmt → bool) (s : Store) (task : WriteTask) :
  (accepted f task
   ∧ executeWrite_session f s task
     = (Ok (insert_events (events task) (ingested_events s)).2,
        Some {| committed :=
                  {| ingested_events :=
                       (insert_events (events task) (ingested_events s)).1;
                     worker_checkpoints :=
                       (update_checkpoint (checkpoint task) (worker_checkpoints s)).1 |};
                txn := None;
                fault := f |}))
  ∨ (¬ accepted f task
     ∧ ∃ e released,
         executeWrite_session f s task = (Err e, released)
         ∧ e ∈ [DriverError SConnect; DriverError SBegin;
                DbError "insertEvents" (DriverError SInsertEvents);
                DbError "upsertWorkerCheckpoint" (DriverError SUpdateCheckpoint);
                DriverError SCommit]
         ∧ match released with
           | None => e = DriverError SConnect
           | Some c =>
               e ≠ DriverError SConnect ∧ committed c = s
               ∧ (f SRollback = false → txn c = None)
               ∧ (f SRollback = true → e ≠ DriverError SBegin → is_Some (txn c))
           end).
Proof.
  unfold accepted, executeWrite_session, pool_connect, write_transaction, insertEvents,
    upsertWorkerCheckpoint, try_catch, bind, ret, throw, query.
  destruct (f SConnect) eqn:F0.
  { right. split; [intros (? & _); congruence|].
    eexists _, _. split; [reflexivity|]. split; [set_solver|reflexivity]. }
  cbn [kind fault txn committed]. destruct (f SBegin) eqn:F1; [failed_step f|].
  cbn [kind fault txn committed default from_option id run_sql].
  destruct (events task) as [|ev evs] eqn:Eev.
  - cbn [length Nat.eqb kind fault txn committed].
    destruct (f SUpdateCheckpoint) eqn:F3; [failed_step f|].
    cbn [run_sql kind fault txn committed ingested_events worker_checkpoints].
    destruct (update_checkpoint _ _) as [tbl m]. cbn [fault kind].
    destruct (f SCommit) eqn:F4; [failed_step f|].
    left. split; [auto|]. cbn. reflexivity.
  - cbn [length Nat.eqb kind fault txn committed].
    destruct (f SInsertEvents) eqn:F2; [failed_step f|].
    cbn [run_sql]. destruct (insert_events _ _) as [et n].
    cbn [kind fault txn committed ingested_events worker_checkpoints].
    destruct (f SUpdateCheckpoint) eqn:F3; [failed_step f|].
    cbn [run_sql kind fault txn committed ingested_events worker_checkpoints].
    destruct (update_checkpoint _ _) as [tbl m]. cbn [fault kind].
    destruct (f SCommit) eqn:F4; [failed_step f|].
    left. split; [auto|]. cbn. reflexivity.
Qed.

Lemma executeWrite_cases (f : Stmt → bool) (s : Store) (task : WriteTask) :
  (accepted f task
   ∧ executeWrite f s task
     = (Ok (insert_events (events task) (ingested_events s)).2,
        {| ingested_events := (insert_events (events task) (ingested_events s)).1;
           worker_checkpoints :=
             (update_checkpoint (checkpoint task) (worker_checkpoints s)).1 |}))
  ∨ (¬ accepted f task
     ∧ ∃ e, executeWrite f s task = (Err e, s)
            ∧ e ∈ [DriverError SConnect; DriverError SBegin;
                   DbError "insertEvents" (DriverError SInsertEvents);
                   DbError "upsertWorkerCheckpoint" (DriverError SUpdateCheckpoint);
                   DriverError SCommit]).
Proof.
  unfold executeWrite.
  destruct (executeWrite_session_cases f s task)
    as [[Hacc ->]|[Hrej (e & released & -> & He & Hrel)]].
  - left. split; [exact Hacc|reflexivity].
  - right. split; [exact Hrej|]. exists e. split; [|exact He].
    destruct released as [c|]; [|reflexivity].
    destruct Hrel as (_ & -> & _). reflexivity.
Qed.



(** C9: when the statement is accepted and the session sees no row for
    the worker, [upsertWorkerCheckpoint] succeeds and changes nothing; it
    never adds or removes a row, and the rows there are are those that
    were there before and those [initializeWorkerCheckpoints] inserted,
    one for each chunk index. *)
Theorem C9_upsert_needs_existing_row (cp : CheckpointInput) (c : Client) :
  fault c SUpdateCheckpoint = false →
  (worker_checkpoints (session_view c) !! workerId cp = None →
   upsertWorkerCheckpoint cp c = (Ok tt, c))
  ∧ (∀ w, is_Some (worker_checkpoints (session_view (upsertWorkerCheckpoint cp c).2) !! w)
          ↔ is_Some (worker_checkpoints (session_view c) !! w))
  ∧ (∀ f chunks s w, f SInitCheckpoints = false →
       is_Some (worker_checkpoints (initializeWorkerCheckpoints f chunks s).2 !! w)
       ↔ is_Some (worker_checkpoints s !! w)
         ∨ ∃ i, (i < length chunks)%nat ∧ w = Z.of_nat i).
Proof.
  intros Hf. split; [|split].
  - intros Hnone.
    unfold upsertWorkerCheckpoint, try_catch, bind, ret, query, session_view in *.
    cbn [kind]. rewrite Hf. cbn [run_sql]. unfold update_checkpoint.
    revert Hnone. destruct (txn c) as [t|] eqn:Et; intros Hnone; rewrite Hnone.
    + rewrite store_eta, <- Et, client_eta. reflexivity.
    + rewrite store_eta, <- Et, client_eta. reflexivity.
  - intros w. destruct (query_update_view cp c Hf) as (n & c' & Hq & Hv & _).
    unfold upsertWorkerCheckpoint, try_catch, bind, ret. rewrite Hq. cbn [snd].
    rewrite Hv. cbn [worker_checkpoints]. apply update_checkpoint_dom.
  - intros f chunks s w Hi. apply initialize_rows, Hi.
Qed.

Lemma C9_upsert_needs_existing_row_witness :
  let c := {| committed := store0; txn := Some store0; fault := no_fault |} in
  let cp := {| workerId := 7; cp_cursor := Some "c2"; cp_lastTs := Some 1768500000000;
               cp_fetchedCount := 5000; cp_insertedCount := 4999;
               cp_status := RUNNING |} in
  upsertWorkerCheckpoint cp c = (Ok tt, c).
Proof.
  intros c cp.
  apply (proj1 (C9_upsert_needs_existing_row cp c eq_refl)).
  vm_compute. reflexivity.
Defined.
End Repositories.

(** ** The worker *)

Section WorkerFacts.
Import Mappers CursorForge Db DbQueue Worker Views Scenarios.

Lemma filter_events_spec (lo hi : Z) (evs acc : list IngestionEvent) (d : bool) :
  filter_events lo hi evs acc d
  = ((acc ++ List.filter (in_range_b lo hi) (prefix_above lo evs))%list,
     d || existsb (fun e => timestampMs e <? lo) evs).
Proof.
  revert acc. induction evs as [|e evs IH]; intros acc;
    cbn [filter_events prefix_above List.filter existsb].
  - rewrite app_nil_r, orb_false_r. reflexivity.
  - destruct (timestampMs e <? lo) eqn:Elo.
    + cbn [List.filter orb]. rewrite app_nil_r, orb_true_r. reflexivity.
    + cbn [List.filter orb]. unfold in_range_b at 1.
      replace (lo <=? timestampMs e) with true by (symmetry; apply Z.leb_le; lia).
      cbn [andb]. rewrite !IH.
      destruct (hi <=? timestampMs e) eqn:Ehi.
      * replace (timestampMs e <? hi) with false by (symmetry; apply Z.ltb_ge; lia).
        reflexivity.
      * replace (timestampMs e <? hi) with true by (symmetry; apply Z.ltb_lt; lia).
        cbv iota. rewrite <- app_assoc. reflexivity.
Qed.

Lemma in_batch (lo hi : Z) (evs : list IngestionEvent) (e : IngestionEvent) :
  In e (List.filter (in_range_b lo hi) (prefix_above lo evs)) →
  In e evs ∧ lo <= timestampMs e < hi.
Proof.
  rewrite filter_In. intros [Hin Hr]. split.
  - clear Hr. induction evs as [|x evs IH]; cbn [prefix_above] in Hin; [contradiction|].
    destruct (timestampMs x <? lo); [contradiction|].
    destruct Hin as [->|Hin]; [left; reflexivity|right; auto].
  - unfold in_range_b in Hr. apply andb_true_iff in Hr as [H1 H2]. lia.
Qed.

Lemma batch_complete (lo hi : Z) (evs : list IngestionEvent) (e : IngestionEvent) :
  newest_first evs → In e evs → lo <= timestampMs e < hi →
  In e (List.filter (in_range_b lo hi) (prefix_above lo evs)).
Proof.
  intros Hs Hin Hr. apply filter_In. split.
  - induction Hs as [|x evs Hs IH Hall]; [contradiction|]. cbn [prefix_above].
    destruct Hin as [->|Hin].
    + replace (timestampMs e <? lo) with false by (symmetry; apply Z.ltb_ge; lia).
      left. reflexivity.
    + rewrite Forall_forall in Hall. pose proof (Hall e (proj2 (list_elem_of_In _ _) Hin)) as Hle.
      replace (timestampMs x <? lo) with false by (symmetry; apply Z.ltb_ge; lia).
      right. auto.
  - unfold in_range_b. apply andb_true_iff. split; [apply Z.leb_le|apply Z.ltb_lt]; lia.
Qed.

Lemma crossed (lo : Z) (evs : list IngestionEvent) :
  (∃ e, In e evs ∧ timestampMs e < lo) →
  existsb (fun e => timestampMs e <? lo) evs = true.
Proof.
  intros (e & Hin & Hlt). apply existsb_exists. exists e. split; [exact Hin|].
  apply Z.ltb_lt, Hlt.
Qed.

Lemma process_page_effects (cp : WorkerCheckpoint) (ctx : WorkerContext) (w : World)
  (st : Loop) (page : NormalizedPage) :
  let all := toIngestionEvents (Mappers.events page) in
  let batch := List.filter (in_range_b (chunkStartTs cp) (chunkEndTs cp))
                 (prefix_above (chunkStartTs cp) all) in
  let crossing := done st || existsb (fun e => timestampMs e <? chunkStartTs cp) all in
  let out := process_page cp ctx w st page in
  writes out.1
  = (writes w ++ match batch with [] => [] | _ => [page_task cp st page batch] end)%list
  ∧ fetches out.1
    = (fetches w ++ (if hasMore page && negb crossing && truthy (nextCursor page)
                     then [{| limit := batchSize ctx; fp_cursor := nextCursor page |}]
                     else []))%list
  ∧ ∀ st', out.2 = Ok st' →
      l_lastTs st' = cp_lastTs (checkpoint (page_task cp st page batch))
      ∧ cursor st' = nextCursor page
      ∧ l_fetchedCount st' = l_fetchedCount st + Z.of_nat (length (Mappers.events page))
      ∧ (crossing = true → done st' = true ∧ fetchPromise st' = None)
      ∧ (hasMore page = false → done st' = true ∧ fetchPromise st' = None).
Proof.
  cbv zeta. unfold process_page. rewrite filter_events_spec. cbn [app].
  set (batch := List.filter _ _).
  set (crossing := done st || _).
  unfold issue_fetch, call_enqueue, report_progress.
  destruct (hasMore page && negb crossing && truthy (nextCursor page)) eqn:Enext;
    destruct batch as [|b batch'] eqn:Eb; cbn [length Nat.ltb Nat.leb];
    try destruct (enqueue ctx _ _) as [n|err];
    cbn [fst snd writes fetches]; rewrite ?app_nil_r;
    (split; [reflexivity|split; [reflexivity|]]);
    intros st' [= <-]; cbn [l_lastTs cursor l_fetchedCount done fetchPromise page_task checkpoint cp_lastTs];
    (split; [reflexivity|split; [reflexivity|split; [reflexivity|]]]);
    (split; [intros Hc|intros Hm]); rewrite ?orb_true_r; try (split; reflexivity);
    try (rewrite Hc in Enext; rewrite andb_false_r in Enext; discriminate);
    try (rewrite Hm in Enext; discriminate).
Qed.

Lemma Math_min_spec (t : Z) (ts : list Z) :
  Math_min t ts ∈ t :: ts ∧ ∀ x, x ∈ t :: ts → Math_min t ts <= x.
Proof.
  unfold Math_min. revert t. induction ts as [|u ts IH]; intros t; cbn [fold_left].
  - split; [left|]. intros x Hx. apply list_elem_of_singleton in Hx. lia.
  - destruct (IH (Z.min t u)) as [Hin Hle]. split.
    + apply elem_of_cons in Hin as [->|Hin].
      * destruct (Z.min_spec t u) as [[_ ->]|[_ ->]]; [left|right; left].
      * right. right. exact Hin.
    + intros x Hx. apply elem_of_cons in Hx as [->|Hx].
      * pose proof (Hle (Z.min t u) ltac:(left)). lia.
      * apply elem_of_cons in Hx as [->|Hx].
        -- pose proof (Hle (Z.min t u) ltac:(left)). lia.
        -- apply Hle. right. exact Hx.
Qed.

Lemma filter_none {A} (p : A → bool) (l : list A) :
  Forall (fun x => p x = false) l → List.filter p l = [].
Proof.
  induction 1 as [|x l Hx _ IH]; cbn [List.filter]; [reflexivity|].
  rewrite Hx. exact IH.
Qed.

Lemma newest_first_prefix (lo hi : Z) (evs : list IngestionEvent) :
  newest_first evs →
  List.filter (in_range_b lo hi) (prefix_above lo evs)
  = List.filter (in_range_b lo hi) evs.
Proof.
  induction 1 as [|x evs Hs IH Hall]; [reflexivity|]. cbn [prefix_above].
  destruct (timestampMs x <? lo) eqn:Ex.
  - apply Z.ltb_lt in Ex. symmetry. apply filter_none. constructor.
    + unfold in_range_b. replace (lo <=? timestampMs x) with false; [reflexivity|].
      symmetry. apply Z.leb_gt, Ex.
    + eapply Forall_impl; [exact Hall|]. cbn beta. intros e He. unfold in_range_b.
      replace (lo <=? timestampMs e) with false; [reflexivity|].
      symmetry. apply Z.leb_gt. lia.
  - cbn [List.filter]. rewrite IH. reflexivity.
Qed.

(** C4: from a fetched page, in the server's newest-first order, the
    worker enqueues exactly the in-range events: one task whose events
    are the valid events of the page with
    [chunkStartTs ≤ ts < chunkEndTs], in page order (no task when there
    is none), so that every such event is in the batch and every event
    below [chunkStartTs] or at or above [chunkEndTs] is left out.  An
    event below [chunkStartTs] makes the worker issue no further fetch
    and finish after this batch. *)
Theorem C4_enqueues_in_range (cp : WorkerCheckpoint) (ctx : WorkerContext)
  (w : World) (st : Loop) (page : NormalizedPage) :
  fetchPromise st = Some (Ok page) →
  let all := toIngestionEvents (Mappers.events page) in
  newest_first all →
  let batch := List.filter (in_range_b (chunkStartTs cp) (chunkEndTs cp)) all in
  let out := iteration cp ctx w st in
  writes out.1
  = (writes w ++ match batch with [] => [] | _ => [page_task cp st page batch] end)%list
  ∧ (∀ e, e ∈ batch
          ↔ e ∈ all ∧ chunkStartTs cp <= timestampMs e < chunkEndTs cp)
  ∧ (∀ e, e ∈ all →
          timestampMs e < chunkStartTs cp ∨ chunkEndTs cp <= timestampMs e →
          e ∉ batch)
  ∧ ((∃ e, e ∈ all ∧ timestampMs e < chunkStartTs cp) →
     fetches out.1 = fetches w
     ∧ ∀ st', out.2 = Ok st' → done st' = true ∧ fetchPromise st' = None).
Proof.
  intros Hpage all Hsorted batch out. subst out. unfold iteration. rewrite Hpage.
  destruct (process_page_effects cp ctx w st page) as (Hw & Hf & Hst).
  fold all in Hw, Hf, Hst.
  rewrite (newest_first_prefix _ _ all Hsorted) in Hw, Hst. fold batch in Hw, Hst.
  assert (Hbatch : ∀ e, e ∈ batch
                        ↔ e ∈ all ∧ chunkStartTs cp <= timestampMs e < chunkEndTs cp).
  { intros e. subst batch. rewrite list_elem_of_In, filter_In, <- list_elem_of_In.
    unfold in_range_b. rewrite andb_true_iff, Z.leb_le, Z.ltb_lt. tauto. }
  split; [exact Hw|]. split; [exact Hbatch|]. split.
  - intros e _ Hout Hin. apply Hbatch in Hin as [_ Hr]. lia.
  - intros (e & He & Hlt).
    assert (Hc : done st || existsb (fun e => timestampMs e <? chunkStartTs cp) all = true).
    { rewrite (crossed (chunkStartTs cp) all), orb_true_r; [reflexivity|].
      exists e. split; [apply list_elem_of_In, He|exact Hlt]. }
    split.
    + rewrite Hf, Hc, andb_false_r. cbn [negb andb]. apply app_nil_r.
    + intros st' Hst'. destruct (Hst st' Hst') as (_ & _ & _ & H & _). exact (H Hc).
Qed.

Lemma C4_enqueues_in_range_witness :
  let st := {| cursor := None; l_lastTs := None; l_fetchedCount := 0;
               l_insertedCount := 0; fetchPromise := Some (Ok crossing_page);
               done := false |} in
  writes (iteration first_checkpoint first_ctx no_calls st).1
  = [page_task first_checkpoint st crossing_page
       [{| eventId := "in-range"; timestampMs := 1768500000000; payload := "{}" |}]].
Proof.
  intros st.
  refine (proj1 (C4_enqueues_in_range first_checkpoint first_ctx no_calls st
                   crossing_page eq_refl _)).
  unfold newest_first. vm_compute toIngestionEvents.
  repeat constructor; vm_compute; discriminate.
Defined.

(** Outside that order the loop's [break] shows: on a page that lists an
    event below the partition before an in-range one, the worker
    enqueues nothing. *)
Lemma unordered_page_enqueues_nothing :
  let e := {| eventId := "in-range"; timestampMs := 1768500000000; payload := "{}" |} in
  ¬ newest_first (toIngestionEvents (Mappers.events unordered_page))
  ∧ e ∈ toIngestionEvents (Mappers.events unordered_page)
  ∧ chunkStartTs first_checkpoint <= timestampMs e < chunkEndTs first_checkpoint
  ∧ writes (runWorker 10 first_checkpoint unordered_ctx no_calls).1 = [].
Proof.
  cbv zeta. split; [|split; [|split]].
  - unfold newest_first. vm_compute toIngestionEvents. intros H.
    inversion H as [|? ? _ Hall]. inversion Hall as [|? ? Hle _].
    vm_compute in Hle. apply Hle. reflexivity.
  - vm_compute. right. left.
  - vm_compute. split; [discriminate|reflexivity].
  - vm_compute. reflexivity.
Qed.

Lemma is_http_400_spec (e : Error) : is_http_400 e = true ↔ e = HttpError 400.
Proof.
  destruct e; cbn [is_http_400]; try (split; [discriminate|congruence]).
  rewrite Z.eqb_eq. split; congruence.
Qed.

(** C8: when the awaited fetch has failed with [HttpError 400] and
    [lastTs] is known, the loop goes on with a cursor forged from
    [lastTs], which decodes to [lastTs], and with a new fetch under that
    cursor; any other failure, and a 400 while [lastTs] is unknown, ends
    the loop with that error, and [runWorker] returns it. *)
Theorem C8_cursor_expiry_recovery (fuel : nat) (cp : WorkerCheckpoint)
  (ctx : WorkerContext) (w : World) (st : Loop) (e : Error) :
  done st = false → shouldStop ctx (polls w) = false →
  fetchPromise st = Some (Err e) →
  let w1 := (poll_stop ctx w).1 in
  (∀ ts, e = HttpError 400 → l_lastTs st = Some ts →
     let c := forgeCursor ts in
     decodeCursorTimestamp c = Some ts
     ∧ fetches (issue_fetch ctx w1 (Some c)).1
       = (fetches w ++ [{| limit := batchSize ctx; fp_cursor := Some c |}])%list
     ∧ worker_loop (S fuel) cp ctx w st
       = worker_loop fuel cp ctx (issue_fetch ctx w1 (Some c)).1
           {| cursor := Some c;
              l_lastTs := Some ts;
              l_fetchedCount := l_fetchedCount st;
              l_insertedCount := l_insertedCount st;
              fetchPromise := Some (issue_fetch ctx w1 (Some c)).2;
              done := false |})
  ∧ (e ≠ HttpError 400 ∨ l_lastTs st = None →
     worker_loop (S fuel) cp ctx w st = (w1, Some (Err e)))
  ∧ (∀ n cp' w0 w2, wc_status cp' ≠ COMPLETED →
       worker_loop n cp' ctx (issue_fetch ctx w0
           (Some (initial_cursor cp'))).1
         {| cursor := Some (initial_cursor cp');
            l_lastTs := lastTs cp';
            l_fetchedCount := fetchedCount cp';
            l_insertedCount := insertedCount cp';
            fetchPromise := Some (issue_fetch ctx w0
              (Some (initial_cursor cp'))).2;
            done := false |}
       = (w2, Some (Err e)) →
       runWorker n cp' ctx w0 = (w2, Some (Err e))).
Proof.
  intros Hdone Hstop Hp w1. subst w1. split; [|split].
  - intros ts -> Hts c. split; [apply decode_forge|]. split; [reflexivity|].
    cbn [worker_loop]. rewrite Hdone. unfold poll_stop at 1. rewrite Hstop.
    unfold iteration. rewrite Hp, Hts. cbn [is_http_400 Z.eqb Pos.eqb].
    unfold issue_fetch, poll_stop. cbn [fst snd]. rewrite ?Hdone, ?Hts. reflexivity.
  - intros He. cbn [worker_loop]. rewrite Hdone. unfold poll_stop. rewrite Hstop.
    unfold iteration. rewrite Hp. cbn [fst].
    destruct (is_http_400 e) eqn:E4.
    + apply is_http_400_spec in E4. destruct He as [He|He]; [contradiction|].
      rewrite He. reflexivity.
    + reflexivity.
  - intros n cp' w0 w2 Hst Hloop. unfold runWorker.
    destruct (wc_status cp') eqn:Es; try contradiction.
    + unfold issue_fetch in *; cbn [fst snd] in Hloop; rewrite Hloop; reflexivity.
    + unfold issue_fetch in *; cbn [fst snd] in Hloop; rewrite Hloop; reflexivity.
Qed.

Lemma C8_cursor_expiry_recovery_witness :
  let st := {| cursor := Some "c2"; l_lastTs := Some 1766500000000;
               l_fetchedCount := 2; l_insertedCount := 0;
               fetchPromise := Some (Err (HttpError 400)); done := false |} in
  decodeCursorTimestamp (forgeCursor 1766500000000) = Some 1766500000000
  ∧ worker_loop 1 resumed_checkpoint second_ctx no_calls
      {| cursor := Some "c2"; l_lastTs := None; l_fetchedCount := 2;
         l_insertedCount := 0; fetchPromise := Some (Err (HttpError 400));
         done := false |}
    = ((poll_stop second_ctx no_calls).1, Some (Err (HttpError 400))).
Proof.
  intros st. split.
  - exact (proj1 (proj1 (C8_cursor_expiry_recovery 1 resumed_checkpoint second_ctx
                           no_calls st (HttpError 400) eq_refl eq_refl eq_refl)
                   1766500000000 eq_refl eq_refl)).
  - exact (proj1 (proj2 (C8_cursor_expiry_recovery 0 resumed_checkpoint second_ctx
                           no_calls
                           {| cursor := Some "c2"; l_lastTs := None; l_fetchedCount := 2;
                              l_insertedCount := 0;
                              fetchPromise := Some (Err (HttpError 400));
                              done := false |}
                           (HttpError 400) eq_refl eq_refl eq_refl))
             (or_intror eq_refl)).
Defined.

(** C10: when a fetched page holds a valid event, the worker's [lastTs]
    after the page, and the [lastTs] of the checkpoint it enqueues, is
    the least timestamp over all valid events of the page, in range or
    not.  So a page that reaches below the partition leaves a [lastTs]
    below [chunkStartTs] in the checkpoint row; a worker resumed from
    that row whose saved cursor is refused with a 400 forges its recovery
    cursor at a timestamp strictly below its own [chunkStartTs]. *)
Theorem C10_lastTs_is_page_minimum (cp : WorkerCheckpoint) (ctx : WorkerContext)
  (w : World) (st : Loop) (page : NormalizedPage) :
  fetchPromise st = Some (Ok page) →
  toIngestionEvents (Mappers.events page) ≠ [] →
  let stamps := map timestampMs (toIngestionEvents (Mappers.events page)) in
  let out := iteration cp ctx w st in
  (∃ m, m ∈ stamps ∧ (∀ t, t ∈ stamps → m <= t)
        ∧ (∀ st', out.2 = Ok st' → l_lastTs st' = Some m)
        ∧ (∀ task, writes out.1 = (writes w ++ [task])%list →
                   cp_lastTs (checkpoint task) = Some m))
  ∧ (lastTs resumed_checkpoint = Some 1766500000000
     ∧ wc_status resumed_checkpoint = RUNNING
     ∧ chunkStartTs resumed_checkpoint = 1768000000000
     ∧ ∃ c, fetches second_run.1
            = [{| limit := 5000; fp_cursor := Some "c2" |};
               {| limit := 5000; fp_cursor := Some c |}]
            ∧ decodeCursorTimestamp c = Some 1766500000000
            ∧ 1766500000000 < chunkStartTs resumed_checkpoint).
Proof.
  intros Hpage Hne stamps out. split.
  - subst out. unfold iteration. rewrite Hpage.
    destruct (process_page_effects cp ctx w st page) as (Hw & _ & Hst).
    cbv zeta in Hw, Hst. unfold page_task in Hst at 1. cbn [checkpoint cp_lastTs] in Hst.
    fold stamps in Hst.
    destruct stamps as [|t ts] eqn:Es.
    { destruct (toIngestionEvents (Mappers.events page)); [contradiction|discriminate]. }
    exists (Math_min t ts). destruct (Math_min_spec t ts) as [Hin Hle].
    split; [exact Hin|]. split; [exact Hle|]. split.
    + intros st' Hst'. destruct (Hst st' Hst') as (H & _). exact H.
    + intros task Htask. rewrite Hw in Htask. apply app_inv_head in Htask.
      destruct (List.filter _ _); [discriminate|]. injection Htask as <-.
      unfold page_task. cbn [checkpoint cp_lastTs].
      fold stamps. rewrite Es. reflexivity.
  - split; [vm_compute; reflexivity|]. split; [vm_compute; reflexivity|].
    split; [vm_compute; reflexivity|].
    exists (forgeCursor 1766500000000). split; [vm_compute; reflexivity|].
    split; [apply decode_forge|]. vm_compute. reflexivity.
Qed.

Lemma C10_lastTs_is_page_minimum_witness :
  let st := {| cursor := None; l_lastTs := None; l_fetchedCount := 0;
               l_insertedCount := 0; fetchPromise := Some (Ok crossing_page);
               done := false |} in
  ∃ m, m ∈ [1768500000000; 1766500000000]
       ∧ (∀ t, t ∈ [1768500000000; 1766500000000] → m <= t)
       ∧ (∀ st', (iteration first_checkpoint first_ctx no_calls st).2 = Ok st' →
                 l_lastTs st' = Some m)
       ∧ (∀ task, writes (iteration first_checkpoint first_ctx no_calls st).1
                  = ([] ++ [task])%list →
                  cp_lastTs (checkpoint task) = Some m).
Proof.
  intros st.
  refine (proj1 (C10_lastTs_is_page_minimum first_checkpoint first_ctx no_calls st
                   crossing_page eq_refl _)).
  vm_compute. discriminate.
Defined.
End WorkerFacts.

(** * Further properties of the code *)

(** ** Cursor codec and partitioner *)

Section CodecExtras.
Import Js CursorForge Aux Views.
#[local] Arguments String.append !_ _ / : simpl nomatch.

(** X1: decoding undoes encoding on every byte string, whatever its
    length modulo 3: [fromBase64Url (toBase64Url s) = s]. *)
Theorem X1_base64url_roundtrip (s : string) : fromBase64Url (toBase64Url s) = s.
Proof. exact (fromBase64Url_toBase64Url s). Qed.

Lemma sextet_url_safe (s0 s1 s2 s3 s4 s5 : bool) :
  url_safe (url_char (b64_char (Ascii s0 s1 s2 s3 s4 s5 false false))) = true.
Proof. destruct s0, s1, s2, s3, s4, s5; vm_compute; reflexivity. Qed.

(** X2: the output of [toBase64Url] consists of letters, digits, [-] and
    [_] only; it holds no [+], no [/] and no padding. *)
Theorem X2_toBase64Url_alphabet (s : string) :
  all_chars url_safe (toBase64Url s) = true.
Proof.
  unfold toBase64Url.
  induction s as [|a|a b|a b c r IH] using string_ind3.
  - reflexivity.
  - destruct a as [a0 a1 a2 a3 a4 a5 a6 a7].
    cbn [base64_encode sextet1 sextet2 zero_byte].
    destruct (sextet_roundtrip a2 a3 a4 a5 a6 a7) as [_ N1].
    destruct (sextet_roundtrip false false false false a0 a1) as [_ N2].
    cbv zeta in *. rewrite !url_replace.
    rewrite !strip_padding_cons by assumption.
    change (strip_padding _) with EmptyString.
    cbn [all_chars]. rewrite !sextet_url_safe. reflexivity.
  - destruct a as [a0 a1 a2 a3 a4 a5 a6 a7], b as [b0 b1 b2 b3 b4 b5 b6 b7].
    cbn [base64_encode sextet1 sextet2 sextet3 zero_byte].
    destruct (sextet_roundtrip a2 a3 a4 a5 a6 a7) as [_ N1].
    destruct (sextet_roundtrip b4 b5 b6 b7 a0 a1) as [_ N2].
    destruct (sextet_roundtrip false false b0 b1 b2 b3) as [_ N3].
    cbv zeta in *. rewrite !url_replace.
    rewrite !strip_padding_cons by assumption.
    change (strip_padding _) with EmptyString.
    cbn [all_chars]. rewrite !sextet_url_safe. reflexivity.
  - destruct a as [a0 a1 a2 a3 a4 a5 a6 a7], b as [b0 b1 b2 b3 b4 b5 b6 b7],
      c as [c0 c1 c2 c3 c4 c5 c6 c7].
    cbn [base64_encode sextet1 sextet2 sextet3 sextet4].
    destruct (sextet_roundtrip a2 a3 a4 a5 a6 a7) as [_ N1].
    destruct (sextet_roundtrip b4 b5 b6 b7 a0 a1) as [_ N2].
    destruct (sextet_roundtrip c6 c7 b0 b1 b2 b3) as [_ N3].
    destruct (sextet_roundtrip c0 c1 c2 c3 c4 c5) as [_ N4].
    cbv zeta in *. rewrite 4!url_replace.
    rewrite !strip_padding_cons by assumption.
    cbn [all_chars]. rewrite !sextet_url_safe, IH. reflexivity.
Qed.

(** X3: cursors forged from different timestamps are different. *)
Theorem X3_forgeCursor_injective (t1 t2 : Z) :
  t1 ≠ t2 → forgeCursor t1 ≠ forgeCursor t2.
Proof.
  intros Hne H. pose proof (decode_forge t1) as H1. rewrite H, decode_forge in H1.
  congruence.
Qed.

Lemma X3_forgeCursor_injective_witness :
  forgeCursor 1768000000000 ≠ forgeCursor 1768000000001.
Proof. apply (X3_forgeCursor_injective 1768000000000 1768000000001). lia. Defined.
End CodecExtras.

Section PartitionerExtras.
Import CursorForge.
#[local] Arguments boundary : simpl never.





End PartitionerExtras.

(** ** Timestamps and events *)

Section MapperExtras.
Import Js Mappers.

(** X6: what [normalizeTimestampMs] accepts and refuses.  It never
    refuses a finite number.  It throws on a number that is not finite,
    on a value that is neither a number nor a string, and on the empty
    string.  It accepts every digit-only string of finite value, and
    every string in the date-time format [YYYY-MM-DD] or
    [YYYY-MM-DDTHH:mm:ss(.sss)Z], for which it returns what [Date.parse]
    gives. *)
Theorem X6_normalize_domain :
  (∀ q, is_ok (normalizeTimestampMs (VNum q)) = true)
  ∧ normalizeTimestampMs VNonFinite = Err invalid_timestamp
  ∧ normalizeTimestampMs VOther = Err invalid_timestamp
  ∧ normalizeTimestampMs (VStr EmptyString) = Err invalid_timestamp
  ∧ (∀ s, digit_only s = true → Number_isFinite (Number_of_digits s) = true →
          normalizeTimestampMs (VStr s)
          = Ok (if Number_of_digits s <? SECONDS_LIMIT
                then Number_of_digits s * 1000 else Number_of_digits s))
  ∧ (∀ s t, Date_parse s = Some t → normalizeTimestampMs (VStr s) = Ok t).
Proof.
  split; [reflexivity|]. split; [reflexivity|]. split; [reflexivity|].
  split; [reflexivity|]. split.
  - intros s Hd Hf. cbn [normalizeTimestampMs].
    destruct s as [|c s]; [discriminate|].
    change (0 <? String.length (String c s))%nat with true. cbv iota.
    rewrite Hd, Hf. reflexivity.
  - intros s t Hp. destruct (Date_parse_not_digits s t Hp) as [Hd Hne].
    cbn [normalizeTimestampMs]. destruct s as [|c s]; [contradiction|].
    change (0 <? String.length (String c s))%nat with true. cbv iota.
    rewrite Hd, Hp. reflexivity.
Qed.

(** X7: a finite number is floored; below [10^12] the floor is read as
    seconds and multiplied by 1000, from [10^12] on it is kept.
    Normalising the result again leaves it unchanged exactly when the
    floor is 0 or at least [10^9]; then, from [10^9] on, the result is
    at least [10^12]. *)
Theorem X7_normalize_number (q : Q) :
  ∃ r, normalizeTimestampMs (VNum q) = Ok r
       ∧ (Qfloor q < SECONDS_LIMIT → r = Qfloor q * 1000)
       ∧ (SECONDS_LIMIT <= Qfloor q → r = Qfloor q)
       ∧ (1000000000 <= Qfloor q → SECONDS_LIMIT <= r)
       ∧ (normalizeTimestampMs (VNum (inject_Z r)) = Ok r
          ↔ Qfloor q = 0 ∨ 1000000000 <= Qfloor q).
Proof.
  cbn [normalizeTimestampMs]. unfold SECONDS_LIMIT.
  destruct (Qfloor q <? 1000000000000) eqn:E; eexists; (split; [reflexivity|]);
    rewrite Qfloor_Z.
  - apply Z.ltb_lt in E. split; [reflexivity|]. split; [lia|]. split; [lia|].
    destruct (Qfloor q * 1000 <? 1000000000000) eqn:E2.
    + apply Z.ltb_lt in E2. split; [intros [= H]; lia|intros [H|H]; [|lia]].
      rewrite H. reflexivity.
    + apply Z.ltb_ge in E2. split; [intros _; right; lia|reflexivity].
  - apply Z.ltb_ge in E. split; [lia|]. split; [reflexivity|]. split; [lia|].
    rewrite (proj2 (Z.ltb_ge _ _) E).
    split; [intros _; right; lia|reflexivity].
Qed.

Lemma X7_normalize_number_witness :
  ∃ r, normalizeTimestampMs (VNum (17680000007 # 10)) = Ok r
       ∧ r = Qfloor (17680000007 # 10) * 1000.
Proof.
  destruct (X7_normalize_number (17680000007 # 10)) as (r & Hr & H & _).
  exists r. split; [exact Hr|]. apply H. vm_compute. reflexivity.
Defined.

Lemma toIngestionEvent_spec (raw : RawEvent) (e : IngestionEvent) :
  toIngestionEvent raw = Some e
  ↔ id raw = VStr (eventId e) ∧ eventId e ≠ EmptyString
    ∧ normalizeTimestampMs (timestamp raw) = Ok (timestampMs e)
    ∧ payload e = raw_json raw.
Proof.
  unfold toIngestionEvent. destruct e as [i t p]. cbn [eventId timestampMs payload].
  split.
  - destruct (id raw) as [| |s|]; try discriminate.
    destruct (s =? EmptyString)%string eqn:Es; [discriminate|].
    destruct (normalizeTimestampMs (timestamp raw)); [|discriminate].
    intros [= <- <- <-]. apply String.eqb_neq in Es. auto.
  - intros (-> & Hne & -> & ->). apply String.eqb_neq in Hne. rewrite Hne. reflexivity.
Qed.

(** X8: [toIngestionEvents] yields, in page order, one event for each
    raw event that has a non-empty string id and a timestamp that
    normalises; the event carries that id, the normalised timestamp and
    the raw event's JSON text.  Everything else is dropped, so the
    result is never longer than the input, and the mapping distributes
    over concatenation. *)
Theorem X8_toIngestionEvents_spec (raws : list RawEvent) :
  (∀ e, e ∈ toIngestionEvents raws
        ↔ ∃ raw, raw ∈ raws ∧ id raw = VStr (eventId e) ∧ eventId e ≠ EmptyString
                 ∧ normalizeTimestampMs (timestamp raw) = Ok (timestampMs e)
                 ∧ payload e = raw_json raw)
  ∧ (length (toIngestionEvents raws) ≤ length raws)%nat
  ∧ (∀ more, toIngestionEvents (raws ++ more)
             = (toIngestionEvents raws ++ toIngestionEvents more)%list).
Proof.
  split; [|split].
  - intros e. induction raws as [|raw raws IH]; cbn [toIngestionEvents].
    + split; [intros H; inversion H|intros (raw & H & _); inversion H].
    + destruct (toIngestionEvent raw) as [e'|] eqn:E.
      * rewrite elem_of_cons, IH. split.
        -- intros [->|(r & Hr & H)].
           ++ exists raw. split; [left|apply toIngestionEvent_spec, E].
           ++ exists r. split; [right; exact Hr|exact H].
        -- intros (r & Hr & H). apply elem_of_cons in Hr as [->|Hr].
           ++ left. apply toIngestionEvent_spec in H. congruence.
           ++ right. eauto.
      * rewrite IH. split.
        -- intros (r & Hr & H). exists r. split; [right; exact Hr|exact H].
        -- intros (r & Hr & H). apply elem_of_cons in Hr as [->|Hr]; [|eauto].
           apply toIngestionEvent_spec in H. congruence.
  - induction raws as [|raw raws IH]; cbn [toIngestionEvents length]; [lia|].
    destruct (toIngestionEvent raw); cbn [length]; lia.
  - intros more. induction raws as [|raw raws IH]; cbn [toIngestionEvents app]; [reflexivity|].
    destruct (toIngestionEvent raw); rewrite IH; reflexivity.
Qed.
End MapperExtras.

(** ** The rate limiter under any sequence of calls *)

Section LimiterExtras.
Import RateLimit SpecWords Scenarios Views.

Lemma record429_effect (now : Z) (l : RateLimiter) :
  (0 <= adaptiveDelayMs (state l) <= 8000)%Q →
  (now - last429AtMs l < 2000 → record429 now l = l)
  ∧ (2000 <= now - last429AtMs l →
     consecutive429s (state (record429 now l)) = consecutive429s (state l) + 1
     ∧ last429AtMs (record429 now l) = now
     ∧ (adaptiveDelayMs (state l) <= adaptiveDelayMs (state (record429 now l)) <= 8000)%Q
     ∧ ((adaptiveDelayMs (state l) < 8000)%Q →
        (adaptiveDelayMs (state l) < adaptiveDelayMs (state (record429 now l)))%Q)
     ∧ ((adaptiveDelayMs (state l) == 0)%Q →
        adaptiveDelayMs (state (record429 now l)) = 1000%Q)).
Proof.
  intros [Hlo Hhi]. unfold record429, LAST_429_DEDUP_WINDOW_MS. split; intros Hw.
  - rewrite (proj2 (Z.ltb_lt _ _) Hw). reflexivity.
  - rewrite (proj2 (Z.ltb_ge _ _) Hw). cbn [state consecutive429s last429AtMs adaptiveDelayMs].
    split; [reflexivity|]. split; [reflexivity|].
    unfold ADAPTIVE_MIN_MS, ADAPTIVE_MAX_MS, ADAPTIVE_MULTIPLIER, Qmin'.
    destruct (Qeq_bool (adaptiveDelayMs (state l)) 0) eqn:E0.
    + apply Qeq_bool_iff in E0. repeat split; try lra. 
    + assert (Hpos : (0 < adaptiveDelayMs (state l))%Q).
      { apply Qeq_bool_neq in E0. destruct (Qlt_le_dec 0 (adaptiveDelayMs (state l))) as [H|H]; [exact H|].
        exfalso. apply E0. lra. }
      destruct (Qle_bool (adaptiveDelayMs (state l) * (13 # 10)) 8000) eqn:Em.
      * apply Qle_bool_iff in Em. repeat split; try lra.
      * repeat split; try lra.
Qed.

Lemma recordSuccess_ok (l : RateLimiter) : delay_ok l → delay_ok (recordSuccess l).
Proof.
  intros [[Hlo Hhi] Hc]. unfold delay_ok, recordSuccess.
  destruct (0 <? consecutive429s (state l)); [|auto].
  cbn [state adaptiveDelayMs consecutive429s]. split; [|lia].
  unfold Qmax', ADAPTIVE_DECAY.
  destruct (Qle_bool (adaptiveDelayMs (state l) * (1 # 2)) 0) eqn:E.
  - change (Qltb 0 100) with true. cbv iota. lra.
  - destruct (Qltb (adaptiveDelayMs (state l) * (1 # 2)) 100); lra.
Qed.

Lemma apply_call_ok (l : RateLimiter) (c : LimiterCall) :
  delay_ok l → delay_ok (apply_call l c).
Proof.
  intros Hok. destruct c as [now h|now|]; cbn [apply_call].
  - exact Hok.
  - destruct Hok as [Hd Hc]. destruct (record429_effect now l Hd) as [H1 H2].
    destruct (Z_lt_le_dec (now - last429AtMs l) 2000) as [Hw|Hw].
    + rewrite (H1 Hw). split; assumption.
    + destruct (H2 Hw) as (Hc' & _ & Hb & _). split; [|lia].
      split; [|apply Hb]. eapply Qle_trans; [apply Hd|apply Hb].
  - apply recordSuccess_ok, Hok.
Qed.

Lemma run_calls_ok (calls : list LimiterCall) (l : RateLimiter) :
  delay_ok l → delay_ok (fold_left apply_call calls l).
Proof.
  revert l. induction calls as [|c calls IH]; intros l Hok; cbn [fold_left].
  - exact Hok.
  - apply IH, apply_call_ok, Hok.
Qed.

(** X9: after any sequence of header updates, 429 records and success
    records on a new limiter, the adaptive delay lies in [[0, 8000]] and
    the 429 counter is not negative. *)
Theorem X9_adaptive_delay_bounds (calls : list LimiterCall) :
  (0 <= adaptiveDelayMs (state (run_calls calls)) <= 8000)%Q
  ∧ 0 <= consecutive429s (state (run_calls calls)).
Proof.
  apply run_calls_ok. split; [|reflexivity]. cbn. lra.
Qed.

(** X10: a 429 less than 2000 ms after the last effective one changes
    nothing.  Otherwise it counts, becomes the last effective one, and
    the adaptive delay does not shrink, stays at most 8000, grows
    strictly while below 8000 and is 1000 when it was 0. *)
Theorem X10_record429_window (now : Z) (l : RateLimiter) :
  (0 <= adaptiveDelayMs (state l) <= 8000)%Q →
  (now - last429AtMs l < 2000 → record429 now l = l)
  ∧ (2000 <= now - last429AtMs l →
     consecutive429s (state (record429 now l)) = consecutive429s (state l) + 1
     ∧ last429AtMs (record429 now l) = now
     ∧ (adaptiveDelayMs (state l) <= adaptiveDelayMs (state (record429 now l)) <= 8000)%Q
     ∧ ((adaptiveDelayMs (state l) < 8000)%Q →
        (adaptiveDelayMs (state l) < adaptiveDelayMs (state (record429 now l)))%Q)
     ∧ ((adaptiveDelayMs (state l) == 0)%Q →
        adaptiveDelayMs (state (record429 now l)) = 1000%Q)).
Proof. exact (record429_effect now l). Qed.

Lemma X10_record429_window_witness :
  record429 1768000001000 (record429 1768000000000 createRateLimiter)
  = record429 1768000000000 createRateLimiter.
Proof.
  refine (proj1 (X10_record429_window 1768000001000
                   (record429 1768000000000 createRateLimiter) _) _).
  - vm_compute. split; discriminate.
  - vm_compute. reflexivity.
Defined.

(** X11: a second [recordSuccess] in a row has no effect; the delay decays
    once per streak of 429s. *)
Theorem X11_recordSuccess_idempotent (l : RateLimiter) :
  recordSuccess (recordSuccess l) = recordSuccess l.
Proof.
  unfold recordSuccess at 2 3.
  destruct (0 <? consecutive429s (state l)) eqn:E.
  - unfold recordSuccess. cbn [state consecutive429s]. reflexivity.
  - unfold recordSuccess. rewrite E. reflexivity.
Qed.

(** X12: right after a response whose headers leave at most one request
    and give a positive reset value, the pre-request delay is the time to
    the reset plus 100 ms: the value is read as seconds from now up to
    [10^9] and as epoch seconds above; in both cases the delay exceeds
    100 ms when the reset lies ahead. *)
Theorem X12_exhausted_quota_delays (now : Z) (l : RateLimiter) (r d : Q) (lim : option Q) :
  (r <= 1)%Q → (0 < d)%Q →
  let l' := updateFromHeaders now
              {| h_remaining := Some r; h_limit := lim; h_reset := Some d |} l in
  ((d <= 1000000000)%Q →
   (getPreRequestDelayMs now l' == d * 1000 + 100)%Q)
  ∧ ((1000000000 < d)%Q → (inject_Z now < d * 1000)%Q →
     (getPreRequestDelayMs now l' == d * 1000 - inject_Z now + 100)%Q)
  ∧ ((d <= 1000000000)%Q ∨ (inject_Z now < d * 1000)%Q →
     (100 < getPreRequestDelayMs now l')%Q).
Proof.
  intros Hr Hd l'. subst l'.
  rewrite delay_by_header_wait. unfold header_wait, updateFromHeaders.
  cbn [state remaining resetAtMs h_remaining h_reset].
  rewrite (proj2 (Qle_bool_iff _ _) Hr). cbn [andb].
  destruct (Qltb 1000000000 d) eqn:Ebig.
  - apply Qltb_lt in Ebig. split; [intros; lra|].
    split.
    + intros _ Hn. rewrite (proj2 (Qltb_lt _ _) Hn). cbv iota. apply Qeq_refl.
    + intros [H|Hn]; [lra|]. rewrite (proj2 (Qltb_lt _ _) Hn). cbv iota. lra.
  - apply Qltb_ge in Ebig.
    assert (Hn : (inject_Z now < inject_Z now + d * 1000)%Q) by lra.
    rewrite (proj2 (Qltb_lt _ _) Hn). cbv iota.
    split; [intros _; ring|]. split; [intros; lra|]. intros _. lra.
Qed.

Lemma X12_exhausted_quota_delays_witness :
  (getPreRequestDelayMs 1768000000000
     (updateFromHeaders 1768000000000
        {| h_remaining := Some 0%Q; h_limit := Some 60%Q; h_reset := Some 5%Q |}
        createRateLimiter) == 5 * 1000 + 100)%Q.
Proof.
  refine (proj1 (X12_exhausted_quota_delays 1768000000000 createRateLimiter 0 5
                   (Some 60%Q) _ _) _); vm_compute; first [reflexivity|discriminate].
Defined.
End LimiterExtras.

(** ** Repositories, write queue and start-up *)

Section RepositoryExtras.
Import Mappers CursorForge Db DbQueue Views Scenarios.
#[local] Arguments insert_events : simpl never.
#[local] Arguments update_checkpoint : simpl never.

Lemma insert_events_count (rows : list IngestionEvent) (tbl : gmap string EventRow) :
  0 <= (insert_events rows tbl).2 <= Z.of_nat (length rows)
  ∧ Z.of_nat (size (insert_events rows tbl).1)
    = Z.of_nat (size tbl) + (insert_events rows tbl).2.
Proof.
  revert tbl. induction rows as [|e rows IH]; intros tbl;
    unfold insert_events; fold insert_events; cbn [length fst snd].
  - lia.
  - destruct (tbl !! eventId e) eqn:E.
    + destruct (IH tbl). lia.
    + specialize (IH (<[eventId e := {| timestamp_ms := timestampMs e;
                                        payload_jsonb := payload e |}]> tbl)).
      destruct (insert_events rows _) as [tbl' n]. cbn [fst snd] in *.
      rewrite map_size_insert_None in IH by exact E. lia.
Qed.

Lemma insert_events_present (rows : list IngestionEvent) (tbl : gmap string EventRow) :
  (∀ e, e ∈ rows → is_Some (tbl !! eventId e)) →
  insert_events rows tbl = (tbl, 0).
Proof.
  induction rows as [|e rows IH]; intros Hall;
    unfold insert_events; fold insert_events; [reflexivity|].
  destruct (Hall e ltac:(left)) as [r ->]. apply IH.
  intros e' He'. apply Hall. right. exact He'.
Qed.

Lemma insert_events_again (rows : list IngestionEvent) (tbl : gmap string EventRow) :
  insert_events rows (insert_events rows tbl).1 = ((insert_events rows tbl).1, 0).
Proof.
  apply insert_events_present. intros e He. apply insert_events_lookup. right.
  apply list_elem_of_In, in_map, list_elem_of_In, He.
Qed.

Lemma insertEvents_cases (events : list IngestionEvent) (c : Client) :
  (events = [] → insertEvents events c = (Ok 0, c))
  ∧ (events ≠ [] → fault c SInsertEvents = true →
     insertEvents events c = (Err (DbError "insertEvents" (DriverError SInsertEvents)), c))
  ∧ (events ≠ [] → fault c SInsertEvents = false →
     ∃ c', insertEvents events c
           = (Ok (insert_events events (ingested_events (session_view c))).2, c')
        ∧ ingested_events (session_view c')
          = (insert_events events (ingested_events (session_view c))).1
        ∧ worker_checkpoints (session_view c') = worker_checkpoints (session_view c)).
Proof.
  unfold insertEvents, try_catch, throw, ret, query, session_view. cbn [kind].
  split; [intros ->; reflexivity|]. split; intros Hne Hf.
  - destruct events; [contradiction|]. cbn [length Nat.eqb]. rewrite Hf. reflexivity.
  - destruct events as [|e events]; [contradiction|]. cbn [length Nat.eqb]. rewrite Hf.
    cbn [run_sql]. destruct (txn c) as [t|];
      destruct (insert_events _ _) as [tbl n]; eexists; repeat split.
Qed.

(** X13: [insertEvents] sends nothing for an empty list and returns 0
    even where the server would refuse an insert; a refused insert
    surfaces as a [DbError] of operation [insertEvents] and changes
    nothing; an accepted one returns the number of rows added, by which
    the table grows, after which every event is present, no existing
    row has changed and the checkpoints are untouched. *)
Theorem X13_insertEvents_behaviour (events : list IngestionEvent) (c : Client) :
  (events = [] → insertEvents events c = (Ok 0, c))
  ∧ (events ≠ [] → fault c SInsertEvents = true →
     insertEvents events c = (Err (DbError "insertEvents" (DriverError SInsertEvents)), c))
  ∧ (events ≠ [] → fault c SInsertEvents = false →
     ∃ n c', insertEvents events c = (Ok n, c')
        ∧ 0 <= n <= Z.of_nat (length events)
        ∧ Z.of_nat (size (ingested_events (session_view c')))
          = Z.of_nat (size (ingested_events (session_view c))) + n
        ∧ (∀ e, e ∈ events → is_Some (ingested_events (session_view c') !! eventId e))
        ∧ (∀ k row, ingested_events (session_view c) !! k = Some row →
                    ingested_events (session_view c') !! k = Some row)
        ∧ worker_checkpoints (session_view c') = worker_checkpoints (session_view c)).
Proof.
  destruct (insertEvents_cases events c) as (H0 & H1 & H2).
  split; [exact H0|]. split; [exact H1|]. intros Hne Hf.
  destruct (H2 Hne Hf) as (c' & Hrun & Hev & Hcp).
  pose proof (insert_events_count events (ingested_events (session_view c))) as [Hn Hs].
  eexists _, c'. split; [exact Hrun|]. rewrite Hev. repeat split; try lia; try assumption.
  - intros e He. apply insert_events_lookup. right.
    apply list_elem_of_In, in_map, list_elem_of_In, He.
  - intros k row. apply insert_events_keeps.
Qed.

Lemma X13_insertEvents_behaviour_witness :
  insertEvents [] {| committed := store0; txn := None;
                     fault := fun _ => true |}
  = (Ok 0, {| committed := store0; txn := None; fault := fun _ => true |}).
Proof.
  exact (proj1 (X13_insertEvents_behaviour []
                  {| committed := store0; txn := None; fault := fun _ => true |})
           eq_refl).
Defined.

Lemma update_checkpoint_again (cp : CheckpointInput) (tbl : gmap Z CheckpointRow) :
  (update_checkpoint cp (update_checkpoint cp tbl).1).1 = (update_checkpoint cp tbl).1.
Proof.
  unfold update_checkpoint. destruct (tbl !! workerId cp) eqn:E; cbn [fst].
  - rewrite lookup_insert_eq. cbn [fst chunk_start_ts chunk_end_ts].
    rewrite insert_insert_eq. reflexivity.
  - rewrite E. reflexivity.
Qed.

Lemma executeWrite_again (f : Stmt → bool) (s : Store) (task : WriteTask) :
  accepted f task →
  executeWrite f (executeWrite f s task).2 task = (Ok 0, (executeWrite f s task).2).
Proof.
  intros Hacc.
  destruct (executeWrite_cases f s task) as [[_ ->]|[Hrej _]]; [|contradiction].
  cbn [snd].
  destruct (executeWrite_cases f
    {| ingested_events := (insert_events (events task) (ingested_events s)).1;
       worker_checkpoints :=
         (update_checkpoint (checkpoint task) (worker_checkpoints s)).1 |} task)
    as [[_ ->]|[Hrej _]]; [|contradiction].
  cbn [ingested_events worker_checkpoints].
  rewrite insert_events_again, update_checkpoint_again. reflexivity.
Qed.

(** X14: running an accepted write task a second time reports no
    inserted row, leaves the events table as the first run left it, and
    stores in the checkpoint rows the values they already hold: every
    row keeps its chunk bounds, cursor, last timestamp, counters and
    status, and no row is added or removed.  (The second UPDATE still
    writes the row; what it changes is the server's [updated_at]
    stamp.) *)
Theorem X14_write_task_replay (f : Stmt → bool) (s : Store) (task : WriteTask) :
  accepted f task →
  let first := (executeWrite f s task).2 in
  let again := executeWrite f first task in
  again.1 = Ok 0
  ∧ ingested_events again.2 = ingested_events first
  ∧ ∀ w, match worker_checkpoints first !! w, worker_checkpoints again.2 !! w with
         | Some row, Some row' =>
             chunk_start_ts row' = chunk_start_ts row
             ∧ chunk_end_ts row' = chunk_end_ts row
             ∧ Db.cursor row' = Db.cursor row
             ∧ last_ts row' = last_ts row
             ∧ fetched_count row' = fetched_count row
             ∧ inserted_count row' = inserted_count row
             ∧ status row' = status row
         | None, None => True
         | _, _ => False
         end.
Proof.
  intros Hacc first again. subst again first.
  rewrite (executeWrite_again f s task Hacc). cbn [fst snd].
  split; [reflexivity|]. split; [reflexivity|]. intros w.
  destruct (worker_checkpoints (executeWrite f s task).2 !! w); repeat split.
Qed.

Lemma X14_write_task_replay_witness :
  (executeWrite no_fault (executeWrite no_fault store0 sample_task).2 sample_task).1
  = Ok 0.
Proof.
  apply (X14_write_task_replay no_fault store0 sample_task).
  unfold accepted, no_fault. repeat split. right. reflexivity.
Defined.
End RepositoryExtras.

Section CheckpointExtras.
Import Mappers CursorForge Db DbQueue Views Scenarios Config Orchestrator.

Lemma insert_checkpoints_keeps (rows : list (Z * TimestampChunk))
  (tbl : gmap Z CheckpointRow) (w : Z) (r : CheckpointRow) :
  tbl !! w = Some r → (insert_checkpoints rows tbl).1 !! w = Some r.
Proof.
  revert tbl. induction rows as [|[k ch] rows IH]; intros tbl Hw; cbn [insert_checkpoints].
  - exact Hw.
  - destruct (tbl !! k) eqn:E; [auto|].
    destruct (insert_checkpoints rows _) as [tbl' n] eqn:E'. cbn [fst].
    change tbl' with (tbl', n).1. rewrite <- E'. apply IH.
    rewrite lookup_insert_ne; [exact Hw|]. intros Heq. congruence.
Qed.

Lemma insert_checkpoints_new (rows : list (Z * TimestampChunk))
  (tbl : gmap Z CheckpointRow) (w : Z) (ch : TimestampChunk) :
  NoDup (map fst rows) → (w, ch) ∈ rows → tbl !! w = None →
  (insert_checkpoints rows tbl).1 !! w = Some (fresh_row ch).
Proof.
  revert tbl. induction rows as [|[k c] rows IH]; intros tbl Hnd Hin Hw;
    cbn [insert_checkpoints map fst] in *.
  - inversion Hin.
  - apply NoDup_cons in Hnd as [Hk Hnd].
    apply elem_of_cons in Hin as [[= -> ->]|Hin].
    + rewrite Hw. destruct (insert_checkpoints rows _) as [tbl' n] eqn:E'. cbn [fst].
      change tbl' with (tbl', n).1. rewrite <- E'.
      apply insert_checkpoints_keeps, lookup_insert_eq.
    + assert (Hne : k ≠ w).
      { intros ->. apply Hk. apply list_elem_of_In, in_map_iff.
        exists (w, ch). split; [reflexivity|apply list_elem_of_In, Hin]. }
      destruct (tbl !! k) eqn:E; [auto|].
      destruct (insert_checkpoints rows _) as [tbl' n] eqn:E'. cbn [fst].
      change tbl' with (tbl', n).1. rewrite <- E'. apply IH; try assumption.
      rewrite lookup_insert_ne by exact Hne. exact Hw.
Qed.

Lemma worker_rows_keys (chunks : list TimestampChunk) (n : nat) :
  map fst (imap (fun i chunk => (Z.of_nat (n + i), chunk)) chunks)
  = map Z.of_nat (seq n (length chunks)).
Proof.
  revert n. induction chunks as [|ch chunks IH]; intros n; [reflexivity|].
  rewrite imap_cons. cbn [map fst length seq]. rewrite Nat.add_0_r. f_equal.
  rewrite <- IH. f_equal. apply imap_ext. intros i x _. cbn. f_equal. f_equal. lia.
Qed.

Lemma worker_rows_NoDup (chunks : list TimestampChunk) :
  NoDup (map fst (imap (fun i chunk => (Z.of_nat i, chunk)) chunks)).
Proof.
  pose proof (worker_rows_keys chunks 0) as H. cbn [Nat.add] in H. rewrite H.
  apply (NoDup_fmap_2 Z.of_nat), NoDup_seq.
Qed.

Lemma initialize_effect (f : Stmt → bool) (chunks : list TimestampChunk) (s : Store) :
  f SInitCheckpoints = false →
  (initializeWorkerCheckpoints f chunks s).1 = Ok tt
  ∧ ingested_events (initializeWorkerCheckpoints f chunks s).2 = ingested_events s
  ∧ (∀ w row, worker_checkpoints s !! w = Some row →
       worker_checkpoints (initializeWorkerCheckpoints f chunks s).2 !! w = Some row)
  ∧ (∀ i ch, chunks !! i = Some ch → worker_checkpoints s !! Z.of_nat i = None →
       worker_checkpoints (initializeWorkerCheckpoints f chunks s).2 !! Z.of_nat i
       = Some (fresh_row ch)).
Proof.
  intros Hf. unfold initializeWorkerCheckpoints.
  destruct (length chunks =? 0)%nat eqn:El.
  - apply Nat.eqb_eq in El. destruct chunks; [|discriminate]. cbn [fst snd].
    repeat split; auto. intros i ch Hi. inversion Hi.
  - unfold pool_query, query. cbn [kind fault]. rewrite Hf. cbn [txn committed run_sql].
    destruct (insert_checkpoints _ _) as [tbl n] eqn:E.
    cbn [fst snd committed worker_checkpoints ingested_events].
    change tbl with (tbl, n).1. rewrite <- E. repeat split.
    + intros w row. apply insert_checkpoints_keeps.
    + intros i ch Hi Hnone. apply insert_checkpoints_new; try assumption.
      * apply worker_rows_NoDup.
      * apply (elem_of_lookup_imap_2 (fun i chunk => (Z.of_nat i, chunk))), Hi.
Qed.

Lemma map_is_fmap {A B} (g : A → B) (l : list A) : map g l = g <$> l.
Proof. induction l as [|x l IH]; cbn; congruence. Qed.

Lemma load_elem (s : Store) (cp : WorkerCheckpoint) :
  cp ∈ loadWorkerCheckpoints s
  ↔ ∃ w row, worker_checkpoints s !! w = Some row ∧ cp = checkpoint_of_row w row.
Proof.
  unfold loadWorkerCheckpoints. rewrite map_is_fmap, list_elem_of_fmap. split.
  - intros ([w row] & -> & Hin). rewrite merge_sort_Permutation in Hin.
    apply elem_of_map_to_list in Hin. eauto.
  - intros (w & row & Hrow & ->). exists (w, row). split; [reflexivity|].
    rewrite merge_sort_Permutation. apply elem_of_map_to_list, Hrow.
Qed.

Lemma load_length (s : Store) :
  length (loadWorkerCheckpoints s) = size (worker_checkpoints s).
Proof.
  unfold loadWorkerCheckpoints.
  rewrite length_map, merge_sort_Permutation. apply length_map_to_list.
Qed.

(** X16: an accepted [initializeWorkerCheckpoints] leaves the events and
    every existing checkpoint row as they are, gives each chunk index
    without a row a new row with the chunk's bounds, no cursor, zero
    counters and status running, and adds no other row. *)
Theorem X16_initialize_keeps_progress (f : Stmt → bool) (chunks : list TimestampChunk)
  (s : Store) :
  f SInitCheckpoints = false →
  (initializeWorkerCheckpoints f chunks s).1 = Ok tt
  ∧ ingested_events (initializeWorkerCheckpoints f chunks s).2 = ingested_events s
  ∧ (∀ w row, worker_checkpoints s !! w = Some row →
       worker_checkpoints (initializeWorkerCheckpoints f chunks s).2 !! w = Some row)
  ∧ (∀ i ch, chunks !! i = Some ch → worker_checkpoints s !! Z.of_nat i = None →
       worker_checkpoints (initializeWorkerCheckpoints f chunks s).2 !! Z.of_nat i
       = Some (fresh_row ch))
  ∧ (∀ w, is_Some (worker_checkpoints (initializeWorkerCheckpoints f chunks s).2 !! w)
          ↔ is_Some (worker_checkpoints s !! w)
            ∨ ∃ i, (i < length chunks)%nat ∧ w = Z.of_nat i).
Proof.
  intros Hf. destruct (initialize_effect f chunks s Hf) as (H1 & H2 & H3 & H4).
  repeat split; try assumption; apply initialize_rows; assumption.
Qed.

Lemma X16_initialize_keeps_progress_witness :
  (initializeWorkerCheckpoints no_fault
     (createTimestampChunks 1766000000000 1770000000000 4) store1).1 = Ok tt
  ∧ (last_ts <$> worker_checkpoints
       (initializeWorkerCheckpoints no_fault
          (createTimestampChunks 1766000000000 1770000000000 4) store1).2 !! 2)
    = Some (Some 1766500000000).
Proof.
  destruct (X16_initialize_keeps_progress no_fault
              (createTimestampChunks 1766000000000 1770000000000 4) store1 eq_refl)
    as (H1 & _ & H3 & _).
  split; [exact H1|].
  rewrite (H3 2 (updated_row
                   {| workerId := 2; cp_cursor := Some "c2";
                      cp_lastTs := Some 1766500000000; cp_fetchedCount := 2;
                      cp_insertedCount := 0; cp_status := RUNNING |}
                   (fresh_row {| startTs := 1768000000000; endTs := 1769000000000 |})));
    [reflexivity|vm_compute; reflexivity].
Defined.

Lemma prepare_effect (f : Stmt → bool) (config : AppConfig) (s : Store) :
  f STruncate = false → f SInitCheckpoints = false →
  let chunks := createTimestampChunks (minTimestampMs config) (maxTimestampMs config)
                  (Z.to_nat (partitionCount config)) in
  let reset := (0 <? size (worker_checkpoints s))%nat
               && negb (Z.of_nat (size (worker_checkpoints s)) =? partitionCount config) in
  let s1 := if reset
            then {| ingested_events := ingested_events s; worker_checkpoints := ∅ |}
            else s in
  let s2 := (initializeWorkerCheckpoints f chunks s1).2 in
  prepare f config s
  = (Ok (List.filter
           (fun cp => match wc_status cp with COMPLETED => false | _ => true end)
           (loadWorkerCheckpoints s2)), s2).
Proof.
  intros Ht Hi chunks reset s1 s2. unfold prepare, discoverTimeRange.
  cbn [startTs endTs]. fold chunks. rewrite load_length. fold reset.
  assert (Hs1 : (if reset then resetAllCheckpoints f s else (Ok tt, s)) = (Ok tt, s1)).
  { subst s1. destruct reset; [|reflexivity].
    unfold resetAllCheckpoints, pool_query, query. cbn [kind fault]. rewrite Ht.
    reflexivity. }
  rewrite Hs1.
  pose proof (initialize_effect f chunks s1 Hi) as [Hok _].
  subst s2. destruct (initializeWorkerCheckpoints f chunks s1) as [[[]|e] s2];
    cbn [fst snd] in *; [reflexivity|discriminate].
Qed.

(** X17: start-up of the orchestrator, when the server accepts its
    statements.  Every partition has a row afterwards and the workers
    selected are exactly the rows whose status is not completed.  When
    there were no rows, or as many as partitions, every existing row is
    kept as it is; when their number was different, all rows are new
    ones, one for each partition.  The events are not touched. *)
Theorem X17_prepare_checkpoints (f : Stmt → bool) (config : AppConfig) (s : Store) :
  f STruncate = false → f SInitCheckpoints = false →
  let chunks := createTimestampChunks (minTimestampMs config) (maxTimestampMs config)
                  (Z.to_nat (partitionCount config)) in
  let saved := size (worker_checkpoints s) in
  ∃ active s',
    prepare f config s = (Ok active, s')
    ∧ ingested_events s' = ingested_events s
    ∧ (∀ cp, cp ∈ active
             ↔ ∃ w row, worker_checkpoints s' !! w = Some row
                        ∧ status row ≠ COMPLETED ∧ cp = checkpoint_of_row w row)
    ∧ (∀ i ch, chunks !! i = Some ch → is_Some (worker_checkpoints s' !! Z.of_nat i))
    ∧ (saved = 0%nat ∨ Z.of_nat saved = partitionCount config →
       ∀ w row, worker_checkpoints s !! w = Some row →
                worker_checkpoints s' !! w = Some row)
    ∧ (saved ≠ 0%nat → Z.of_nat saved ≠ partitionCount config →
       (∀ i ch, chunks !! i = Some ch →
                worker_checkpoints s' !! Z.of_nat i = Some (fresh_row ch))
       ∧ (∀ w, is_Some (worker_checkpoints s' !! w) → 0 <= w < partitionCount config)).
Proof.
  intros Ht Hi chunks saved. eexists _, _.
  split; [apply prepare_effect; assumption|].
  fold chunks. fold saved.
  set (reset := (0 <? saved)%nat && negb (Z.of_nat saved =? partitionCount config)).
  set (s1 := if reset then _ else s).
  destruct (initialize_effect f chunks s1 Hi) as (_ & Hev & Hkeep & Hnew).
  assert (Hlen : length chunks = Z.to_nat (partitionCount config)).
  { subst chunks. unfold createTimestampChunks. rewrite length_map, length_seq. reflexivity. }
  split; [|split; [|split; [|split]]].
  - rewrite Hev. subst s1. destruct reset; reflexivity.
  - intros cp. rewrite list_elem_of_In, filter_In, <- list_elem_of_In, load_elem. split.
    + intros [(w & row & Hrow & ->) Hst]. exists w, row. repeat split; [exact Hrow|].
      cbn [wc_status checkpoint_of_row] in Hst. intros Hc. rewrite Hc in Hst. discriminate.
    + intros (w & row & Hrow & Hst & ->). split; [eauto|].
      cbn [wc_status checkpoint_of_row]. destruct (status row); congruence.
  - intros i ch Hch. apply initialize_rows; [exact Hi|]. right. exists i.
    split; [|reflexivity]. eapply lookup_lt_Some, Hch.
  - intros Hsame w row Hrow. apply Hkeep.
    assert (Hr : reset = false).
    { subst reset. destruct Hsame as [->| ->]; [reflexivity|].
      rewrite Z.eqb_refl. apply andb_false_r. }
    subst s1. destruct reset; [discriminate|exact Hrow].
  - intros H0 HN.
    assert (Hr : reset = true).
    { subst reset. apply andb_true_iff. split; [apply Nat.ltb_lt; lia|].
      apply negb_true_iff, Z.eqb_neq, HN. }
    assert (Hs1 : worker_checkpoints s1 = ∅).
    { subst s1. destruct reset; [reflexivity|discriminate]. }
    split.
    + intros i ch Hch. apply Hnew; [exact Hch|]. rewrite Hs1. apply lookup_empty.
    + intros w Hw. apply initialize_rows in Hw; [|exact Hi].
      rewrite Hs1, lookup_empty in Hw.
      destruct Hw as [[? ?]|(i & Hlt & ->)]; [discriminate|]. lia.
Qed.

Lemma X17_prepare_checkpoints_witness :
  ∃ active s',
    prepare no_fault sample_config store1 = (Ok active, s')
    ∧ ingested_events s' = ingested_events store1.
Proof.
  destruct (X17_prepare_checkpoints no_fault sample_config store1 eq_refl eq_refl)
    as (active & s' & H1 & H2 & _).
  exists active, s'. split; assumption.
Defined.
End CheckpointExtras.

(** ** The worker over a whole run *)

Section WorkerExtras.
Import Mappers CursorForge Db DbQueue Worker Views Scenarios.

Lemma iteration_writes (cp : WorkerCheckpoint) (ctx : WorkerContext) (w : World)
  (st : Loop) :
  ∃ new, writes (iteration cp ctx w st).1 = (writes w ++ new)%list
         ∧ Forall (good_task cp) new.
Proof.
  unfold iteration. destruct (fetchPromise st) as [[page|err]|].
  - destruct (process_page_effects cp ctx w st page) as (Hw & _).
    cbv zeta in Hw. eexists. split; [exact Hw|].
    destruct (List.filter _ _) as [|e batch] eqn:Eb; [constructor|].
    constructor; [|constructor]. unfold good_task, page_task.
    cbn [events checkpoint workerId cp_status].
    split; [discriminate|]. split; [|split; reflexivity].
    intros x Hx. rewrite <- Eb in Hx.
    apply list_elem_of_In, in_batch in Hx. tauto.
  - exists []. rewrite app_nil_r. split; [|constructor].
    destruct (is_http_400 err), (l_lastTs st); reflexivity.
  - exists []. rewrite app_nil_r. split; [reflexivity|constructor].
Qed.

Lemma loop_writes (fuel : nat) (cp : WorkerCheckpoint) (ctx : WorkerContext)
  (w : World) (st : Loop) :
  ∃ new, writes (worker_loop fuel cp ctx w st).1 = (writes w ++ new)%list
         ∧ Forall (good_task cp) new.
Proof.
  revert w st. induction fuel as [|fuel IH]; intros w st; cbn [worker_loop].
  - exists []. rewrite app_nil_r. split; [reflexivity|constructor].
  - destruct (done st).
    { exists []. rewrite app_nil_r. split; [reflexivity|constructor]. }
    unfold poll_stop. destruct (shouldStop ctx (polls w)).
    { exists []. rewrite app_nil_r. split; [reflexivity|constructor]. }
    set (w1 := {| fetches := fetches w; writes := writes w; polls := S (polls w);
                  progress := progress w |}).
    destruct (iteration_writes cp ctx w1 st) as (new1 & H1 & F1).
    destruct (iteration cp ctx w1 st) as [w2 [st'|e]]; cbn [fst] in H1.
    + destruct (IH w2 st') as (new2 & H2 & F2). exists (new1 ++ new2)%list.
      rewrite H2, H1, app_assoc. split; [reflexivity|]. apply Forall_app. split; assumption.
    + exists new1. split; [exact H1|exact F1].
Qed.

(** X18: whatever the source, the queue and the stop predicate do and
    however long the worker runs, every task it enqueues is non-empty,
    holds only events within [[chunkStartTs, chunkEndTs)], names the
    worker's own id and carries the status running; the worker never
    records another status. *)
Theorem X18_only_own_partition_written (fuel : nat) (cp : WorkerCheckpoint)
  (ctx : WorkerContext) (w : World) :
  ∃ new, writes (runWorker fuel cp ctx w).1 = (writes w ++ new)%list
         ∧ ∀ task, task ∈ new →
             events task ≠ []
             ∧ (∀ e, e ∈ events task →
                     chunkStartTs cp <= timestampMs e < chunkEndTs cp)
             ∧ workerId (checkpoint task) = wc_workerId cp
             ∧ cp_status (checkpoint task) = RUNNING.
Proof.
  assert (H : ∃ new, writes (runWorker fuel cp ctx w).1 = (writes w ++ new)%list
                     ∧ Forall (good_task cp) new).
  { unfold runWorker. destruct (wc_status cp);
      try (exists []; rewrite app_nil_r; split; [reflexivity|constructor]).
    - unfold issue_fetch.
      match goal with |- context [worker_loop fuel cp ctx ?w1 ?st0] =>
        destruct (loop_writes fuel cp ctx w1 st0) as (new & Hn & Fn);
        destruct (worker_loop fuel cp ctx w1 st0) as [w2 [[st|e]|]]
      end; cbn [fst writes] in *; exists new; split; assumption.
    - unfold issue_fetch.
      match goal with |- context [worker_loop fuel cp ctx ?w1 ?st0] =>
        destruct (loop_writes fuel cp ctx w1 st0) as (new & Hn & Fn);
        destruct (worker_loop fuel cp ctx w1 st0) as [w2 [[st|e]|]]
      end; cbn [fst writes] in *; exists new; split; assumption. }
  destruct H as (new & Hn & Fn). exists new. split; [exact Hn|].
  intros task Ht. rewrite Forall_forall in Fn. exact (Fn task Ht).
Qed.

Lemma iteration_counts (cp : WorkerCheckpoint) (ctx : WorkerContext) (w : World)
  (st st' : Loop) :
  (∀ h t n, enqueue ctx h t = Ok n → 0 <= n) →
  (iteration cp ctx w st).2 = Ok st' →
  l_fetchedCount st <= l_fetchedCount st' ∧ l_insertedCount st <= l_insertedCount st'.
Proof.
  intros Hq. unfold iteration. destruct (fetchPromise st) as [[page|err]|].
  - unfold process_page. rewrite filter_events_spec. cbn [app].
    set (batch := List.filter _ _).
    destruct (hasMore page && _ && _); unfold issue_fetch, call_enqueue;
      (destruct batch; cbn [length Nat.ltb Nat.leb];
       [|destruct (enqueue ctx _ _) as [n|e] eqn:En]);
      cbn [fst snd]; intros [= <-]; cbn [l_fetchedCount l_insertedCount];
      try (apply Hq in En); lia.
  - destruct (is_http_400 err), (l_lastTs st); unfold issue_fetch; cbn [snd];
      intros [= <-]; cbn [l_fetchedCount l_insertedCount]; lia.
  - discriminate.
Qed.

Lemma loop_counts (fuel : nat) (cp : WorkerCheckpoint) (ctx : WorkerContext)
  (w : World) (st st' : Loop) :
  (∀ h t n, enqueue ctx h t = Ok n → 0 <= n) →
  (worker_loop fuel cp ctx w st).2 = Some (Ok st') →
  l_fetchedCount st <= l_fetchedCount st' ∧ l_insertedCount st <= l_insertedCount st'.
Proof.
  intros Hq. revert w st. induction fuel as [|fuel IH]; intros w st; cbn [worker_loop].
  - discriminate.
  - destruct (done st); [intros [= <-]; lia|].
    unfold poll_stop. destruct (shouldStop ctx (polls w)); [intros [= <-]; lia|].
    match goal with |- context [iteration cp ctx ?w1 st] =>
      pose proof (iteration_counts cp ctx w1 st) as Hit;
      destruct (iteration cp ctx w1 st) as [w2 [st1|e]]
    end; cbn [snd] in *; [|discriminate].
    intros Hl. specialize (Hit st1 Hq eq_refl). specialize (IH w2 st1 Hl). lia.
Qed.

(** X19: when the queue never reports a negative insert count, a worker
    that returns reports its own id and counters that are at least those
    of its checkpoint. *)
Theorem X19_counters_never_decrease (fuel : nat) (cp : WorkerCheckpoint)
  (ctx : WorkerContext) (w : World) (r : WorkerResult) :
  (∀ h t n, enqueue ctx h t = Ok n → 0 <= n) →
  (runWorker fuel cp ctx w).2 = Some (Ok r) →
  r_workerId r = wc_workerId cp
  ∧ fetchedCount cp <= r_fetchedCount r
  ∧ insertedCount cp <= r_insertedCount r.
Proof.
  intros Hq. unfold runWorker. destruct (wc_status cp) eqn:Es.
  - unfold issue_fetch.
    match goal with |- context [worker_loop fuel cp ctx ?w1 ?st0] =>
      pose proof (loop_counts fuel cp ctx w1 st0) as Hl;
      destruct (worker_loop fuel cp ctx w1 st0) as [w2 [[st|e]|]]
    end; cbn [snd] in *; try discriminate.
    intros [= <-]. cbn [r_workerId r_fetchedCount r_insertedCount].
    specialize (Hl st Hq eq_refl). cbn [l_fetchedCount l_insertedCount] in Hl. lia.
  - intros [= <-]. cbn [r_workerId r_fetchedCount r_insertedCount]. lia.
  - unfold issue_fetch.
    match goal with |- context [worker_loop fuel cp ctx ?w1 ?st0] =>
      pose proof (loop_counts fuel cp ctx w1 st0) as Hl;
      destruct (worker_loop fuel cp ctx w1 st0) as [w2 [[st|e]|]]
    end; cbn [snd] in *; try discriminate.
    intros [= <-]. cbn [r_workerId r_fetchedCount r_insertedCount].
    specialize (Hl st Hq eq_refl). cbn [l_fetchedCount l_insertedCount] in Hl. lia.
Qed.

Lemma X19_counters_never_decrease_witness :
  ∃ r, (runWorker 5 first_checkpoint (mock_ctx crossing_page false) no_calls).2
       = Some (Ok r)
       ∧ fetchedCount first_checkpoint <= r_fetchedCount r.
Proof.
  eexists. split; [vm_compute; reflexivity|].
  refine (proj1 (proj2 (X19_counters_never_decrease 5 first_checkpoint
                          (mock_ctx crossing_page false) no_calls _ _ eq_refl))).
  intros h t n [= <-]. lia.
Defined.

Lemma expired_loop (fuel : nat) (cp : WorkerCheckpoint) (ctx : WorkerContext)
  (w : World) (st : Loop) (ts : Z) :
  (∀ h p, fetchPage ctx h p = Err (HttpError 400)) →
  (∀ n, shouldStop ctx n = false) →
  fetchPromise st = Some (Err (HttpError 400)) → l_lastTs st = Some ts →
  done st = false →
  (worker_loop fuel cp ctx w st).2 = None
  ∧ length (fetches (worker_loop fuel cp ctx w st).1) = (length (fetches w) + fuel)%nat
  ∧ writes (worker_loop fuel cp ctx w st).1 = writes w.
Proof.
  intros Hsrc Hstop. revert w st.
  induction fuel as [|fuel IH]; intros w st Hp Hts Hd; cbn [worker_loop].
  - cbn [fst snd]. repeat split. lia.
  - rewrite Hd. unfold poll_stop. rewrite Hstop. unfold iteration.
    rewrite Hp, Hts. cbn [is_http_400 Z.eqb Pos.eqb]. unfold issue_fetch.
    rewrite Hsrc, Hd.
    match goal with |- context [worker_loop fuel cp ctx ?w1 ?st1] =>
      destruct (IH w1 st1) as (H1 & H2 & H3)
    end; try reflexivity.
    split; [exact H1|]. split; [|exact H3].
    rewrite H2. cbn [fetches]. rewrite length_app. cbn [length]. lia.
Qed.

(** X20: the recovery from an expired cursor has no bound.  While the
    source answers every request with a 400 and the worker knows a
    [lastTs], the worker neither returns nor fails: each pass through the
    loop issues one more fetch and writes nothing. *)
Theorem X20_expiry_recovery_unbounded (fuel : nat) (cp : WorkerCheckpoint)
  (ctx : WorkerContext) (w : World) (ts : Z) :
  (∀ h p, fetchPage ctx h p = Err (HttpError 400)) →
  (∀ n, shouldStop ctx n = false) →
  wc_status cp ≠ COMPLETED → lastTs cp = Some ts →
  (runWorker fuel cp ctx w).2 = None
  ∧ length (fetches (runWorker fuel cp ctx w).1) = (length (fetches w) + 1 + fuel)%nat
  ∧ writes (runWorker fuel cp ctx w).1 = writes w.
Proof.
  intros Hsrc Hstop Hst Hts. unfold runWorker.
  destruct (wc_status cp); try contradiction; unfold issue_fetch;
    match goal with |- context [worker_loop fuel cp ctx ?w1 ?st0] =>
      destruct (expired_loop fuel cp ctx w1 st0 ts Hsrc Hstop) as (H1 & H2 & H3);
      [ cbn [fetchPromise]; rewrite Hsrc; reflexivity
      | exact Hts | reflexivity
      | destruct (worker_loop fuel cp ctx w1 st0) as [w2 [r|]]; cbn [fst snd] in *;
        [discriminate|];
        cbn [fetches writes] in *; rewrite length_app in H2; cbn [length] in H2;
        repeat split; [lia|exact H3] ]
    end.
Qed.

Lemma X20_expiry_recovery_unbounded_witness :
  (runWorker 7 resumed_checkpoint expired_ctx no_calls).2 = None
  ∧ length (fetches (runWorker 7 resumed_checkpoint expired_ctx no_calls).1) = 8%nat.
Proof.
  destruct (X20_expiry_recovery_unbounded 7 resumed_checkpoint expired_ctx no_calls
              1766500000000) as (H1 & H2 & _);
    try reflexivity; [vm_compute; discriminate|].
  split; [exact H1|exact H2].
Defined.

Lemma process_page_ok (cp : WorkerCheckpoint) (ctx : WorkerContext) (w : World)
  (st : Loop) (page : NormalizedPage) :
  (∀ h t, is_ok (enqueue ctx h t) = true) →
  ∃ st', (process_page cp ctx w st page).2 = Ok st'.
Proof.
  intros Hq. unfold process_page. rewrite filter_events_spec. cbn [app].
  set (batch := List.filter _ _).
  destruct (hasMore page && _ && _); unfold issue_fetch, call_enqueue;
    (destruct batch; cbn [length Nat.ltb Nat.leb];
     [|match goal with |- context [enqueue ctx ?h ?t] =>
         pose proof (Hq h t) as Hok; destruct (enqueue ctx h t); [|discriminate]
       end]);
    cbn [fst snd]; eauto.
Qed.

(** X21: when the first page says that there is no more and the queue
    accepts the batch, the worker returns after that single fetch with
    the page's events counted, as completed unless a stop is requested
    by then. *)
Theorem X21_last_page_ends_run (fuel : nat) (cp : WorkerCheckpoint)
  (ctx : WorkerContext) (w : World) (page : NormalizedPage) :
  wc_status cp ≠ COMPLETED →
  shouldStop ctx (polls w) = false →
  (∀ h t, is_ok (enqueue ctx h t) = true) →
  fetchPage ctx (fetches w) {| limit := batchSize ctx;
                               fp_cursor := Some (initial_cursor cp) |} = Ok page →
  hasMore page = false →
  ∃ w' r, runWorker (S (S fuel)) cp ctx w = (w', Some (Ok r))
    ∧ fetches w' = (fetches w ++ [{| limit := batchSize ctx;
                                     fp_cursor := Some (initial_cursor cp) |}])%list
    ∧ r_fetchedCount r = fetchedCount cp + Z.of_nat (length (Mappers.events page))
    ∧ r_status r = (if shouldStop ctx (S (polls w)) then RUNNING else COMPLETED).
Proof.
  intros Hst Hstop Hq Hpage Hmore.
  assert (Hrun : ∀ st0 w1,
            st0 = {| cursor := Some (initial_cursor cp); l_lastTs := lastTs cp;
                     l_fetchedCount := fetchedCount cp;
                     l_insertedCount := insertedCount cp;
                     fetchPromise := Some (Ok page); done := false |} →
            w1 = {| fetches := fetches w ++ [{| limit := batchSize ctx;
                                               fp_cursor := Some (initial_cursor cp) |}];
                    writes := writes w; polls := polls w; progress := progress w |} →
            ∃ w2 st', worker_loop (S (S fuel)) cp ctx w1 st0 = (w2, Some (Ok st'))
              ∧ fetches w2 = fetches w1 ∧ polls w2 = S (polls w)
              ∧ l_fetchedCount st'
                = fetchedCount cp + Z.of_nat (length (Mappers.events page))).
  { intros st0 w1 -> ->. cbn [worker_loop done]. unfold poll_stop at 1.
    cbn [polls]. rewrite Hstop. unfold iteration. cbn [fetchPromise].
    match goal with |- context [process_page cp ctx ?w1 ?st0 page] =>
      destruct (process_page_effects cp ctx w1 st0 page) as (_ & Hf & Hst');
      destruct (process_page_ok cp ctx w1 st0 page Hq) as [st' Hok];
      destruct (process_page cp ctx w1 st0 page) as [w2 r] eqn:Epp
    end.
    cbv zeta in Hf, Hst'. cbn [fst snd] in *. subst r.
    destruct (Hst' st' eq_refl) as (_ & _ & Hfc & _ & Hdone).
    destruct (Hdone Hmore) as [Hd _]. rewrite Hd.
    exists w2, st'. split; [reflexivity|].
    rewrite Hmore in Hf. cbn [andb] in Hf. rewrite app_nil_r in Hf.
    split; [exact Hf|]. split; [|exact Hfc].
    unfold process_page in Epp. rewrite filter_events_spec, Hmore in Epp.
    cbn [app andb] in Epp. unfold call_enqueue, report_progress in Epp.
    destruct (List.filter _ _); cbn [length Nat.ltb Nat.leb] in Epp;
      [|destruct (enqueue ctx _ _)]; cbn [fst snd] in Epp; injection Epp as <- _;
      reflexivity. }
  unfold runWorker. unfold issue_fetch. rewrite Hpage.
  destruct (Hrun _ _ eq_refl eq_refl) as (w2 & st' & Hl & Hf & Hp & Hc).
  destruct (wc_status cp); try contradiction; rewrite Hl; unfold poll_stop;
    eexists _, _; (split; [reflexivity|]); cbn [fetches r_fetchedCount r_status];
    rewrite Hf, Hp; auto.
Qed.

Lemma X21_last_page_ends_run_witness :
  ∃ w' r, runWorker 2 first_checkpoint (mock_ctx unordered_page false) no_calls
          = (w', Some (Ok r))
    ∧ r_fetchedCount r = 0 + 2 ∧ r_status r = COMPLETED.
Proof.
  destruct (X21_last_page_ends_run 0 first_checkpoint (mock_ctx unordered_page false)
              no_calls unordered_page) as (w' & r & H1 & _ & H3 & H4);
    try reflexivity; [vm_compute; discriminate|].
  exists w', r. split; [exact H1|]. split; [exact H3|exact H4].
Defined.

(** X22: a stop request seen before the first page is awaited ends the
    run with the counters of the checkpoint and nothing written; the
    fetch of the first page has been issued all the same, and the status
    is running if the stop predicate still holds when asked again. *)
Theorem X22_stop_before_first_page (fuel : nat) (cp : WorkerCheckpoint)
  (ctx : WorkerContext) (w : World) :
  wc_status cp ≠ COMPLETED →
  shouldStop ctx (polls w) = true →
  runWorker (S fuel) cp ctx w
  = ({| fetches := fetches w ++ [{| limit := batchSize ctx;
                                    fp_cursor := Some (initial_cursor cp) |}];
        writes := writes w;
        polls := S (S (polls w));
        progress := progress w |},
     Some (Ok {| r_workerId := wc_workerId cp;
                 r_fetchedCount := fetchedCount cp;
                 r_insertedCount := insertedCount cp;
                 r_status := if shouldStop ctx (S (polls w))
                             then RUNNING else COMPLETED |})).
Proof.
  intros Hst Hstop. unfold runWorker, issue_fetch.
  destruct (wc_status cp); try contradiction;
    cbn [worker_loop done]; unfold poll_stop; cbn [polls]; rewrite Hstop; reflexivity.
Qed.

Lemma X22_stop_before_first_page_witness :
  (runWorker 1 first_checkpoint (mock_ctx crossing_page true) no_calls).2
  = Some (Ok {| r_workerId := 2; r_fetchedCount := 0; r_insertedCount := 0;
                r_status := RUNNING |}).
Proof.
  rewrite (X22_stop_before_first_page 0 first_checkpoint (mock_ctx crossing_page true)
             no_calls); [reflexivity|vm_compute; discriminate|reflexivity].
Defined.
End WorkerExtras.

(** ** Configuration *)

Section ConfigFacts.
Import Js Config Scenarios.
#[local] Arguments String.append !_ _ / : simpl nomatch.

Lemma bind_ok {A B} (r : Result A) (k : A → Result B) (b : B) :
  bind r k = Ok b → ∃ a, r = Ok a ∧ k a = Ok b.
Proof. destruct r as [a|e]; cbn; [eauto|discriminate]. Qed.

Lemma mustGetEnv_nonempty (env : Env) (key value : string) :
  mustGetEnv env key = Ok value → value ≠ EmptyString ∧ env !! key = Some value.
Proof.
  unfold mustGetEnv. destruct (env !! key) as [v|]; [|discriminate].
  destruct (String.eqb_spec v EmptyString); [discriminate|].
  intros [= <-]. split; [assumption|reflexivity].
Qed.

Lemma endsWith_spec (s suffix : string) :
  endsWith s suffix = true ↔ ∃ p, s = p ++ suffix.
Proof.
  induction s as [|c s IH]; cbn [endsWith].
  - rewrite orb_false_r. split.
    + intros H%String.eqb_eq. exists EmptyString. exact H.
    + intros (p & H). destruct p; cbn [String.append] in H; [|discriminate].
      apply String.eqb_eq. exact H.
  - rewrite orb_true_iff, IH. split.
    + intros [H%String.eqb_eq|(p & ->)].
      * exists EmptyString. exact H.
      * exists (String c p). reflexivity.
    + intros (p & H). destruct p as [|c' p]; cbn [String.append] in H.
      * left. apply String.eqb_eq. exact H.
      * right. exists p. congruence.
Qed.

Lemma strip_keeps (s : string) (c : ascii) :
  c ≠ "/"%char →
  strip_trailing_slashes (s ++ String c EmptyString) = s ++ String c EmptyString.
Proof.
  intros Hc. induction s as [|a s IH]; cbn [String.append strip_trailing_slashes].
  - destruct (Ascii.eqb_spec c "/"); [contradiction|reflexivity].
  - rewrite IH. destruct s; reflexivity.
Qed.

Lemma strip_slash (s : string) :
  strip_trailing_slashes (s ++ "/") = strip_trailing_slashes s.
Proof.
  induction s as [|a s IH]; cbn [String.append strip_trailing_slashes].
  - reflexivity.
  - rewrite IH. reflexivity.
Qed.

Lemma strip_cases (s : string) :
  strip_trailing_slashes s = EmptyString
  ∨ ∃ p c, strip_trailing_slashes s = p ++ String c EmptyString ∧ c ≠ "/"%char.
Proof.
  induction s as [|a s IH]; cbn [strip_trailing_slashes]; [left; reflexivity|].
  destruct IH as [->|(p & c & -> & Hc)].
  - destruct (Ascii.eqb_spec a "/"); [left; reflexivity|].
    right. exists EmptyString, a. split; [reflexivity|assumption].
  - right. exists (String a p), c. split; [|assumption].
    destruct p; reflexivity.
Qed.

Lemma strip_idempotent (s : string) :
  strip_trailing_slashes (strip_trailing_slashes s) = strip_trailing_slashes s.
Proof.
  destruct (strip_cases s) as [->|(p & c & -> & Hc)]; [reflexivity|].
  apply strip_keeps, Hc.
Qed.

Lemma append_assoc_s (a b c : string) : (a ++ b) ++ c = a ++ (b ++ c).
Proof. induction a as [|x a IH]; cbn [String.append]; congruence. Qed.

Lemma strip_api_suffix (p : string) :
  strip_trailing_slashes (p ++ "/api/v1") = p ++ "/api/v1".
Proof.
  change "/api/v1" with ("/api/v" ++ "1"). rewrite <- append_assoc_s.
  apply strip_keeps. discriminate.
Qed.

Lemma normalize_ends (url : string) :
  endsWith (normalizeApiBaseUrl url) "/api/v1" = true.
Proof.
  unfold normalizeApiBaseUrl.
  destruct (endsWith (strip_trailing_slashes url) "/api/v1") eqn:E; [exact E|].
  apply endsWith_spec. eauto.
Qed.

(** X23: the base URL after normalisation ends with [/api/v1]; trailing
    slashes of the input make no difference; a URL that already ends
    with [/api/v1] is kept; and normalising twice is normalising once. *)
Theorem X23_normalizeApiBaseUrl_canonical (url : string) :
  endsWith (normalizeApiBaseUrl url) "/api/v1" = true
  ∧ normalizeApiBaseUrl (url ++ "/") = normalizeApiBaseUrl url
  ∧ normalizeApiBaseUrl (url ++ "/api/v1") = url ++ "/api/v1"
  ∧ normalizeApiBaseUrl (normalizeApiBaseUrl url) = normalizeApiBaseUrl url.
Proof.
  split; [apply normalize_ends|]. split; [|split].
  - unfold normalizeApiBaseUrl. rewrite strip_slash. reflexivity.
  - unfold normalizeApiBaseUrl. rewrite strip_api_suffix.
    replace (endsWith (url ++ "/api/v1") "/api/v1") with true; [reflexivity|].
    symmetry. apply endsWith_spec. eauto.
  - pose proof (normalize_ends url) as H. apply endsWith_spec in H as (p & Hp).
    rewrite Hp. unfold normalizeApiBaseUrl at 1. rewrite strip_api_suffix.
    replace (endsWith (p ++ "/api/v1") "/api/v1") with true; [reflexivity|].
    symmetry. apply endsWith_spec. eauto.
Qed.

(** X24: whatever the environment holds, a configuration that loads has
    a non-empty database URL and API key, a base URL that ends with
    [/api/v1], at least one partition, a batch size between 1 and 5000,
    at least one database writer and one pending write, and a non-empty
    time range.  The retry settings are taken as they are. *)
Theorem X24_loadConfig_invariants (parseInt : string → option Z) (env : Env)
  (config : AppConfig) :
  loadConfig parseInt env = Ok config →
  databaseUrl config ≠ EmptyString
  ∧ apiKey config ≠ EmptyString
  ∧ endsWith (apiBaseUrl config) "/api/v1" = true
  ∧ 1 <= partitionCount config
  ∧ 1 <= batchSize config <= 5000
  ∧ 1 <= dbWriteConcurrency config
  ∧ 1 <= maxPendingWrites config
  ∧ minTimestampMs config < maxTimestampMs config
  ∧ getIntEnv parseInt env "MAX_RETRIES" 8 = Ok (maxRetries config).
Proof.
  unfold loadConfig. intros H.
  apply bind_ok in H as (m & _ & H).
  apply bind_ok in H as (sc & _ & H).
  apply bind_ok in H as (lo & _ & H).
  apply bind_ok in H as (hi & _ & H).
  destruct (hi <=? lo) eqn:Hrange; [discriminate|].
  apply bind_ok in H as (db & Hdb & H).
  apply bind_ok in H as (base & _ & H).
  apply bind_ok in H as (key & Hkey & H).
  apply bind_ok in H as (pc & _ & H).
  apply bind_ok in H as (bs & _ & H).
  apply bind_ok in H as (wc & _ & H).
  apply bind_ok in H as (mp & _ & H).
  apply bind_ok in H as (hp & _ & H).
  apply bind_ok in H as (pl & _ & H).
  apply bind_ok in H as (rt & _ & H).
  apply bind_ok in H as (mr & Hmr & H).
  apply bind_ok in H as (rb & _ & H).
  apply bind_ok in H as (rm & _ & H).
  injection H as <-.
  cbn [databaseUrl apiKey apiBaseUrl partitionCount batchSize dbWriteConcurrency
       maxPendingWrites minTimestampMs maxTimestampMs maxRetries].
  apply mustGetEnv_nonempty in Hdb as [Hdb _].
  apply mustGetEnv_nonempty in Hkey as [Hkey _].
  repeat split; try assumption; try lia.
  apply normalize_ends.
Qed.

Lemma X24_loadConfig_invariants_witness :
  ∃ config,
    loadConfig parse_digits sample_env = Ok config
    ∧ databaseUrl config ≠ EmptyString
    ∧ apiKey config ≠ EmptyString
    ∧ endsWith (apiBaseUrl config) "/api/v1" = true
    ∧ 1 <= partitionCount config
    ∧ 1 <= batchSize config <= 5000
    ∧ 1 <= dbWriteConcurrency config
    ∧ 1 <= maxPendingWrites config
    ∧ minTimestampMs config < maxTimestampMs config
    ∧ getIntEnv parse_digits sample_env "MAX_RETRIES" 8 = Ok (maxRetries config).
Proof.
  eexists. split; [vm_compute; reflexivity|].
  apply (X24_loadConfig_invariants parse_digits sample_env). vm_compute. reflexivity.
Defined.
End ConfigFacts.

(** ** Page normalisation *)

Section PageFacts.
Import Mappers PageMapper Views Scenarios.

Lemma extractRawEvents_filter (data : list Unknown) :
  extractRawEvents data = List.filter has_string_id data.
Proof.
  induction data as [|item data IH]; cbn [extractRawEvents List.filter]; [reflexivity|].
  unfold has_string_id at 1. rewrite IH. reflexivity.
Qed.

Lemma normalizePage_events (raw : Unknown) :
  PageMapper.events (normalizePage raw)
  = match page_data raw with
    | Some data => List.filter has_string_id data
    | None => []
    end.
Proof.
  unfold normalizePage, page_data.
  destruct raw as [| | | | |ms]; try reflexivity.
  cbn [isRecord negb].
  destruct (member "data" (UObj ms)) as [[| | | |data|ms']|];
    try (cbn [PageMapper.events]; rewrite ?extractRawEvents_filter; reflexivity).
  destruct (member "data" (UObj ms')) as [[| | | |data|]|];
    cbn [PageMapper.events]; rewrite ?extractRawEvents_filter; reflexivity.
Qed.

Lemma nullish_or_not_null (val : option Unknown) (fallback : Unknown) :
  fallback ≠ UNull → nullish_or val fallback ≠ UNull.
Proof. destruct val as [[]|]; cbn; congruence. Qed.

(** X25: the events of a normalised page are the items of the body's
    data array that are records with a string [id], in the body's
    order; a body without such an array gives the empty page, with
    [hasMore] false and no cursor.  [hasMore] is never null: a missing
    or null value reads as false. *)
Theorem X25_normalizePage_events (raw : Unknown) :
  (∀ data, page_data raw = Some data →
           PageMapper.events (normalizePage raw) = List.filter has_string_id data)
  ∧ (page_data raw = None → normalizePage raw = empty_page)
  ∧ (∀ item, item ∈ PageMapper.events (normalizePage raw) →
             ∃ members i, item = UObj members ∧ member "id" item = Some (UStr i))
  ∧ PageMapper.hasMore (normalizePage raw) ≠ UNull.
Proof.
  split; [|split; [|split]].
  - intros data H. rewrite normalizePage_events, H. reflexivity.
  - unfold normalizePage, page_data.
    destruct raw as [| | | | |ms]; try reflexivity. cbn [isRecord negb].
    destruct (member "data" (UObj ms)) as [[| | | |data|ms']|];
      try reflexivity; try discriminate.
    destruct (member "data" (UObj ms')) as [[| | | |data|]|];
      try reflexivity; discriminate.
  - intros item. rewrite normalizePage_events.
    destruct (page_data raw) as [data|]; [|intros H; inversion H].
    rewrite list_elem_of_In, filter_In. intros [_ H].
    unfold has_string_id in H. apply andb_true_iff in H as [H1 H2].
    destruct item as [| | | | |members]; try discriminate.
    destruct (member "id" (UObj members)) as [[| | |i| |]|] eqn:E; try discriminate.
    eauto.
  - unfold normalizePage.
    destruct (negb (isRecord (Some raw))); [discriminate|].
    destruct (member "data" raw) as [[| | | |data|ms']|]; try discriminate.
    + cbn [PageMapper.hasMore]. apply nullish_or_not_null. discriminate.
    + destruct (member "data" (UObj ms')) as [[| | | |data|]|]; try discriminate.
      cbn [PageMapper.hasMore]. apply nullish_or_not_null. discriminate.
Qed.

Lemma X25_normalizePage_events_witness :
  PageMapper.events (normalizePage sample_body)
  = [UObj [("id", UStr "e1"); ("timestamp", UNum 1768000000)]].
Proof.
  exact (proj1 (X25_normalizePage_events sample_body) sample_items eq_refl).
Defined.

Lemma toIngestionEvents_elem (raws : list RawEvent) (e : IngestionEvent) :
  e ∈ toIngestionEvents raws ↔ ∃ raw, raw ∈ raws ∧ toIngestionEvent raw = Some e.
Proof.
  induction raws as [|raw raws IH]; cbn [toIngestionEvents].
  - split; [intros H; inversion H|intros (raw & H & _); inversion H].
  - destruct (toIngestionEvent raw) as [e'|] eqn:E.
    + rewrite elem_of_cons, IH. split.
      * intros [->|(r & Hr & H)]; [exists raw|exists r]; split;
          first [left; reflexivity|right; assumption|assumption].
      * intros (r & Hr & H). apply elem_of_cons in Hr as [->|Hr].
        -- left. congruence.
        -- right. eauto.
    + rewrite IH. split.
      * intros (r & Hr & H). exists r. split; [right; exact Hr|exact H].
      * intros (r & Hr & H). apply elem_of_cons in Hr as [->|Hr]; [congruence|eauto].
Qed.

(** X26: from the body of a response to the events of the worker.  An
    event is ingested from a body exactly when the body's data array
    holds a record whose [id] is a non-empty string and whose
    [timestamp] normalises; the event carries that id, the normalised
    timestamp and the record's JSON text.  Items that are not records,
    that lack a string id or a readable timestamp are dropped without
    an error. *)
Theorem X26_body_to_events (stringify : Unknown → string) (raw : Unknown)
  (e : IngestionEvent) :
  e ∈ toIngestionEvents
        (map (as_RawEvent stringify) (PageMapper.events (normalizePage raw)))
  ↔ ∃ data item,
      page_data raw = Some data ∧ item ∈ data
      ∧ member "id" item = Some (UStr (eventId e)) ∧ eventId e ≠ EmptyString
      ∧ normalizeTimestampMs (as_JsValue (member "timestamp" item)) = Ok (timestampMs e)
      ∧ payload e = stringify item.
Proof.
  rewrite toIngestionEvents_elem, normalizePage_events. split.
  - intros (r & Hr & He). rewrite list_elem_of_In, in_map_iff in Hr.
    destruct Hr as (item & <- & Hin).
    destruct (page_data raw) as [data|]; [|inversion Hin].
    apply filter_In in Hin as [Hin Hid].
    apply toIngestionEvent_spec in He as (H1 & H2 & H3 & H4).
    cbn [id timestamp raw_json as_RawEvent] in *.
    exists data, item. rewrite list_elem_of_In. repeat split; try assumption.
    destruct (member "id" item) as [[| | |i| |]|]; cbn in H1; try discriminate.
    congruence.
  - intros (data & item & Hd & Hin & Hid & Hne & Hts & Hp).
    exists (as_RawEvent stringify item). rewrite Hd. split.
    + rewrite list_elem_of_In. apply in_map, filter_In.
      split; [apply list_elem_of_In, Hin|].
      unfold has_string_id. rewrite Hid.
      destruct item; cbn in Hid; try discriminate. reflexivity.
    + apply toIngestionEvent_spec. cbn [id timestamp raw_json as_RawEvent].
      rewrite Hid. repeat split; assumption.
Qed.
End PageFacts.

(** ** Retrying *)

Section RetryFacts.
Import Config Api Retry EventsSource RateLimit Views Scenarios.

Lemma Qmin'_le_r (a b : Q) : (Qmin' a b <= b)%Q.
Proof.
  unfold Qmin'. destruct (Qle_bool a b) eqn:E.
  - apply Qle_bool_iff, E.
  - apply Qle_refl.
Qed.

Lemma Qmin'_nonneg (a b : Q) : (0 <= a)%Q → (0 <= b)%Q → (0 <= Qmin' a b)%Q.
Proof. intros Ha Hb. unfold Qmin'. destruct (Qle_bool a b); assumption. Qed.

Lemma backoff_effect (deps : Deps) (config : AppConfig) (attempt status : Z)
  (w : World) :
  let r := backoff deps config attempt status w in
  (r.1 <= inject_Z (retryMaxMs config))%Q
  ∧ (0 <= retryBaseMs config → 0 <= retryMaxMs config →
     (∀ k, 0 <= Math_random deps k)%Q → (0 <= r.1)%Q)
  ∧ requests r.2 = requests w ∧ sleeps r.2 = sleeps w
  ∧ accesses r.2 = accesses w ∧ invalidations r.2 = invalidations w
  ∧ rateLimiter r.2 = rateLimiter w ∧ streamDisabled r.2 = streamDisabled w.
Proof.
  unfold backoff, next_random.
  assert (Hb : 0 <= retryBaseMs config →
               (0 <= inject_Z (retryBaseMs config * 2 ^ (attempt - 1)))%Q).
  { intros H. change 0%Q with (inject_Z 0). rewrite <- Zle_Qle.
    apply Z.mul_nonneg_nonneg; [exact H|]. apply Z.pow_nonneg. lia. }
  destruct (status =? 429); cbn [fst snd requests sleeps accesses invalidations
                                   rateLimiter streamDisabled].
  - split; [apply Qmin'_le_r|]. split; [|repeat split].
    intros H1 H2 _. apply Qmin'_nonneg; [auto|].
    change 0%Q with (inject_Z 0). rewrite <- Zle_Qle. exact H2.
  - split; [apply Qmin'_le_r|]. split; [|repeat split].
    intros H1 H2 H3. apply Qmin'_nonneg.
    + specialize (Hb H1). specialize (H3 (randoms w)).
      assert (0 <= Math_random deps (randoms w)
                   * inject_Z (retryBaseMs config * 2 ^ (attempt - 1)) * (3 # 10))%Q.
      { apply Qmult_le_0_compat; [apply Qmult_le_0_compat; assumption|discriminate]. }
      lra.
    + change 0%Q with (inject_Z 0). rewrite <- Zle_Qle. exact H2.
Qed.

(** What the loop of [withRetry] does around an action that sends at
    most one request. *)
Lemma retry_loop_effect (deps : Deps) (config : AppConfig) (fn : M HttpResponse)
  (P : Request → Prop) :
  one_request fn →
  (∀ w new, requests (fn w).1 = (requests w ++ new)%list → Forall P new) →
  ∀ (left : nat) (attempt : Z) (lastError : option Error) (w : World),
    match lastError with
    | Some e => retryable_error e = true
    | None => True
    end →
    let r := retry_loop deps config fn left attempt lastError w in
    invalidations r.1 = invalidations w
    ∧ rateLimiter r.1 = rateLimiter w
    ∧ streamDisabled r.1 = streamDisabled w
    ∧ ∃ new ds,
        requests r.1 = (requests w ++ new)%list ∧ (length new ≤ left)%nat
        ∧ Forall P new
        ∧ sleeps r.1 = (sleeps w ++ ds)%list
        ∧ Forall (fun d => d <= inject_Z (retryMaxMs config))%Q ds
        ∧ (0 <= retryBaseMs config → 0 <= retryMaxMs config →
           (∀ k, 0 <= Math_random deps k)%Q → Forall (fun d => 0 <= d)%Q ds)
        ∧ match r.2 with
          | Ok _ => (length ds < left)%nat
          | Err e => if retryable_error e then length ds = left
                     else (length ds < left)%nat
          end.
Proof.
  intros Hfn HP left. induction left as [|left IH]; intros attempt lastError w Hlast.
  - cbn [retry_loop fst snd]. repeat split.
    exists [], []. rewrite !app_nil_r. repeat split; first [constructor|intros; constructor|idtac].
    destruct lastError as [e|]; [rewrite Hlast|]; reflexivity.
  - cbn [retry_loop].
    destruct (Hfn w) as (Hs & Hr & Hi & Hl & Hd & new1 & Hq & Hlen).
    pose proof (HP w new1 Hq) as HP1.
    destruct (fn w) as [w1 [response|err]] eqn:Efn; cbn [fst snd] in *.
    + repeat split; try assumption.
      exists new1, []. rewrite app_nil_r.
      repeat split; first [assumption|cbn; lia|constructor|intros; constructor].
    + assert (Hfatal : retryable_error err = false →
                       let r := (w1, @Err HttpResponse err) in
                       invalidations r.1 = invalidations w
                       ∧ rateLimiter r.1 = rateLimiter w
                       ∧ streamDisabled r.1 = streamDisabled w
                       ∧ ∃ new ds,
                           requests r.1 = (requests w ++ new)%list
                           ∧ (length new ≤ S left)%nat ∧ Forall P new
                           ∧ sleeps r.1 = (sleeps w ++ ds)%list
                           ∧ Forall (fun d => d <= inject_Z (retryMaxMs config))%Q ds
                           ∧ (0 <= retryBaseMs config → 0 <= retryMaxMs config →
                              (∀ k, 0 <= Math_random deps k)%Q →
                              Forall (fun d => 0 <= d)%Q ds)
                           ∧ match r.2 with
                             | Ok _ => (length ds < S left)%nat
                             | Err e => if retryable_error e then length ds = S left
                                        else (length ds < S left)%nat
                             end).
      { intros Hf. cbn [fst snd]. repeat split; try assumption.
        exists new1, []. rewrite app_nil_r, Hf.
        repeat split; first [assumption|cbn; lia|constructor|intros; constructor]. }
      destruct err as [status| | |]; try (apply Hfatal; reflexivity).
      destruct (isRetryable status) eqn:Eretry; [|apply Hfatal; exact Eretry].
      clear Hfatal.
      pose proof (backoff_effect deps config attempt status w1)
        as (Bmax & Bmin & Bq & Bs & Ba & Bi & Bl & Bd).
      destruct (backoff deps config attempt status w1) as [delayMs w2].
      cbn [fst snd] in *.
      specialize (IH (attempt + 1) (Some (HttpError status)) (sleep delayMs w2) Eretry).
      cbv zeta in IH.
      destruct (retry_loop deps config fn left (attempt + 1)
                  (Some (HttpError status)) (sleep delayMs w2)) as [w3 r3].
      cbn [fst snd invalidations rateLimiter streamDisabled requests sleeps sleep] in *.
      destruct IH as (Ii & Il & Id & new2 & ds & Iq & Ilen & IP & Is & Imax & Imin & Ires).
      repeat split; try congruence.
      exists (new1 ++ new2)%list, (delayMs :: ds).
      repeat split.
      * rewrite Iq, Bq, Hq, app_assoc. reflexivity.
      * rewrite length_app. lia.
      * apply Forall_app. split; assumption.
      * rewrite Is, Bs, Hs, <- app_assoc. reflexivity.
      * constructor; assumption.
      * intros H1 H2 H3. constructor; auto.
      * destruct r3 as [response|e]; cbn [length].
        -- lia.
        -- destruct (retryable_error e); lia.
Qed.

Lemma fetchFallbackPage_one_request (deps : Deps) (config : AppConfig)
  (params : FetchPageParams) :
  one_request (fetchFallbackPage deps config params).
Proof.
  intros w. unfold fetchFallbackPage, get.
  destruct (URL_canParse deps (apiBaseUrl config ++ "/events"));
    cbn [fst requests sleeps randoms invalidations rateLimiter streamDisabled];
    repeat split.
  - eexists [_]. split; [reflexivity|cbn; lia].
  - exists []. rewrite app_nil_r. split; [reflexivity|cbn; lia].
Qed.

Lemma fetchStreamPage_one_request (deps : Deps) (config : AppConfig)
  (params : FetchPageParams) :
  one_request (fetchStreamPage deps config params).
Proof.
  intros w. unfold fetchStreamPage, stream_access, get.
  destruct (streamManager_get deps (accesses w)) as [access|e];
    [destruct (URL_origin deps (apiBaseUrl config)) as [origin|];
     [match goal with |- context [URL_canParse deps ?t] =>
        destruct (URL_canParse deps t) end|]|];
    cbn [fst requests sleeps randoms invalidations rateLimiter streamDisabled];
    repeat split;
    first [eexists [_]; split; [reflexivity|cbn; lia]
          |exists []; rewrite app_nil_r; split; [reflexivity|cbn; lia]].
Qed.

(** X27: [withRetry] around an action that sends at most one request.
    It sends at most [maxRetries] requests and sleeps at most as many
    times, never longer than [retryMaxMs] (and never a negative time
    when the settings are not negative).  It sleeps after every failure
    that can be retried, also after the last one: when it gives up with
    such an error it has slept exactly [maxRetries] times; a response or
    a fatal error ends it earlier.  It touches neither the rate limiter
    nor the stream latch.  With [maxRetries] zero or negative it never
    calls the action and fails at once with an [HttpError] of status 0. *)
Theorem X27_withRetry_bounds (deps : Deps) (config : AppConfig) (fn : M HttpResponse)
  (w : World) :
  one_request fn →
  let r := withRetry deps config fn w in
  let n := Z.to_nat (maxRetries config) in
  rateLimiter r.1 = rateLimiter w
  ∧ streamDisabled r.1 = streamDisabled w
  ∧ ∃ new ds,
      requests r.1 = (requests w ++ new)%list ∧ (length new ≤ n)%nat
      ∧ sleeps r.1 = (sleeps w ++ ds)%list
      ∧ Forall (fun d => d <= inject_Z (retryMaxMs config))%Q ds
      ∧ (0 <= retryBaseMs config → 0 <= retryMaxMs config →
         (∀ k, 0 <= Math_random deps k)%Q → Forall (fun d => 0 <= d)%Q ds)
      ∧ match r.2 with
        | Ok _ => (length ds < n)%nat
        | Err e => if retryable_error e then length ds = n else (length ds < n)%nat
        end
      ∧ (maxRetries config <= 0 → r = (w, Err (HttpError 0))).
Proof.
  intros Hfn r n.
  destruct (retry_loop_effect deps config fn (fun _ => True) Hfn
              (fun _ new _ => Forall_true _ new (fun _ => I))
              n 1 None w I)
    as (_ & Hl & Hd & new & ds & Hq & Hlen & _ & Hs & Hmax & Hmin & Hres).
  split; [exact Hl|]. split; [exact Hd|].
  exists new, ds. repeat split; try assumption.
  intros H. subst r. unfold withRetry.
  replace (Z.to_nat (maxRetries config)) with 0%nat by lia. reflexivity.
Qed.

Lemma X27_withRetry_bounds_witness :
  let r := withRetry (server 429) sample_config
             (fetchFallbackPage (server 429) sample_config first_page) idle in
  rateLimiter r.1 = rateLimiter idle
  ∧ streamDisabled r.1 = streamDisabled idle
  ∧ ∃ new ds,
      requests r.1 = (requests idle ++ new)%list ∧ (length new ≤ 3)%nat
      ∧ sleeps r.1 = (sleeps idle ++ ds)%list
      ∧ Forall (fun d => d <= inject_Z 15000)%Q ds
      ∧ (0 <= 250 → 0 <= 15000 →
         (∀ k, 0 <= Math_random (server 429) k)%Q → Forall (fun d => 0 <= d)%Q ds)
      ∧ match r.2 with
        | Ok _ => (length ds < 3)%nat
        | Err e => if retryable_error e then length ds = 3%nat else (length ds < 3)%nat
        end
      ∧ (3 <= 0 → r = (idle, Err (HttpError 0))).
Proof.
  exact (X27_withRetry_bounds (server 429) sample_config
           (fetchFallbackPage (server 429) sample_config first_page) idle
           (fetchFallbackPage_one_request (server 429) sample_config first_page)).
Defined.

End RetryFacts.

(** ** The events source *)

Section EventsSourceFacts.
Import Config Api Retry EventsSource RateLimit Views Scenarios.

Lemma retry_loop_accesses (deps : Deps) (config : AppConfig) (fn : M HttpResponse) :
  (∀ w, accesses (fn w).1 = accesses w) →
  ∀ (left : nat) (attempt : Z) (lastError : option Error) (w : World),
    accesses (retry_loop deps config fn left attempt lastError w).1 = accesses w.
Proof.
  intros Hfn left. induction left as [|left IH]; intros attempt lastError w.
  - reflexivity.
  - cbn [retry_loop]. pose proof (Hfn w) as Ha.
    destruct (fn w) as [w1 [response|err]]; cbn [fst] in *; [exact Ha|].
    destruct err as [status| | |]; try exact Ha.
    destruct (isRetryable status); [|exact Ha].
    pose proof (backoff_effect deps config attempt status w1)
      as (_ & _ & _ & _ & Ba & _).
    destruct (backoff deps config attempt status w1) as [delayMs w2].
    rewrite IH. cbn [fst snd accesses sleep] in *. congruence.
Qed.

Lemma fallback_requests (deps : Deps) (config : AppConfig) (params : FetchPageParams)
  (w : World) (new : list Request) :
  requests (fetchFallbackPage deps config params w).1 = (requests w ++ new)%list →
  Forall (fun q => url q = apiBaseUrl config ++ "/events") new.
Proof.
  unfold fetchFallbackPage, get.
  destruct (URL_canParse deps (apiBaseUrl config ++ "/events")); cbn [fst requests].
  - intros H. apply app_inv_head in H. subst new. repeat constructor.
  - intros H. rewrite <- (app_nil_r (requests w)) in H at 1.
    apply app_inv_head in H. subst new. constructor.
Qed.

Lemma fallback_accesses (deps : Deps) (config : AppConfig) (params : FetchPageParams)
  (w : World) :
  accesses (fetchFallbackPage deps config params w).1 = accesses w.
Proof.
  unfold fetchFallbackPage, get.
  destruct (URL_canParse deps (apiBaseUrl config ++ "/events")); reflexivity.
Qed.

(** The traffic of one retried fetch. *)
Lemma withRetry_fallback (deps : Deps) (config : AppConfig) (params : FetchPageParams)
  (w : World) :
  let r := withRetry deps config (fetchFallbackPage deps config params) w in
  invalidations r.1 = invalidations w ∧ rateLimiter r.1 = rateLimiter w
  ∧ streamDisabled r.1 = streamDisabled w ∧ accesses r.1 = accesses w
  ∧ ∃ new, requests r.1 = (requests w ++ new)%list
           ∧ (length new ≤ Z.to_nat (maxRetries config))%nat
           ∧ Forall (fun q => url q = apiBaseUrl config ++ "/events") new.
Proof.
  destruct (retry_loop_effect deps config (fetchFallbackPage deps config params)
              (fun q => url q = apiBaseUrl config ++ "/events")
              (fetchFallbackPage_one_request deps config params)
              (fallback_requests deps config params)
              (Z.to_nat (maxRetries config)) 1 None w I)
    as (Hi & Hl & Hd & new & ds & Hq & Hlen & HP & _).
  repeat split; try assumption.
  - apply retry_loop_accesses, fallback_accesses.
  - exists new. repeat split; assumption.
Qed.

Lemma withRetry_stream (deps : Deps) (config : AppConfig) (params : FetchPageParams)
  (w : World) :
  let r := withRetry deps config (fetchStreamPage deps config params) w in
  invalidations r.1 = invalidations w ∧ rateLimiter r.1 = rateLimiter w
  ∧ streamDisabled r.1 = streamDisabled w
  ∧ ∃ new, requests r.1 = (requests w ++ new)%list
           ∧ (length new ≤ Z.to_nat (maxRetries config))%nat.
Proof.
  destruct (retry_loop_effect deps config (fetchStreamPage deps config params)
              (fun _ => True)
              (fetchStreamPage_one_request deps config params)
              (fun _ new _ => Forall_true _ new (fun _ => I))
              (Z.to_nat (maxRetries config)) 1 None w I)
    as (Hi & Hl & Hd & new & ds & Hq & Hlen & _).
  repeat split; try assumption. exists new. split; assumption.
Qed.

(** X28: the stream latch and the traffic of [fetchPage].  Once the
    stream is disabled it stays disabled, and a call then asks only the
    fallback endpoint, at most [maxRetries] times, without a token
    look-up.  While the stream is enabled a call sends at most three
    times [maxRetries] requests and invalidates the token at most once;
    it disables the stream only after such an invalidation. *)
Theorem X28_fetchPage_latch (deps : Deps) (config : AppConfig) (start finish : Z)
  (params : FetchPageParams) (w : World) :
  let r := fetchPage deps config start finish params w in
  let n := Z.to_nat (maxRetries config) in
  (streamDisabled w = true →
   streamDisabled r.1 = true ∧ accesses r.1 = accesses w
   ∧ invalidations r.1 = invalidations w
   ∧ ∃ new, requests r.1 = (requests w ++ new)%list ∧ (length new ≤ n)%nat
            ∧ Forall (fun q => url q = apiBaseUrl config ++ "/events") new)
  ∧ (streamDisabled w = false →
     (invalidations r.1 = invalidations w ∧ streamDisabled r.1 = false
      ∨ invalidations r.1 = S (invalidations w))
     ∧ ∃ new, requests r.1 = (requests w ++ new)%list ∧ (length new ≤ 3 * n)%nat).
Proof.
  intros r n. subst r n. unfold fetchPage.
  set (w0 := if Qltb 0 (getPreRequestDelayMs start (rateLimiter w))
             then sleep (getPreRequestDelayMs start (rateLimiter w)) w else w).
  assert (H0 : requests w0 = requests w ∧ accesses w0 = accesses w
               ∧ invalidations w0 = invalidations w
               ∧ streamDisabled w0 = streamDisabled w).
  { subst w0. destruct (Qltb 0 _); repeat split. }
  destruct H0 as (Hq0 & Ha0 & Hi0 & Hd0).
  split; intros Hd; rewrite Hd0, Hd; cbn [negb].
  - destruct (withRetry_fallback deps config params w0)
      as (Hi & Hl & Hdd & Ha & new & Hq & Hlen & HP).
    destruct (withRetry deps config (fetchFallbackPage deps config params) w0)
      as [w1 [response|err]]; cbn [fst snd] in *.
    + unfold accept_response, set_rateLimiter.
      cbn [fst streamDisabled accesses invalidations requests].
      repeat split; try congruence. exists new. repeat split; first [congruence|assumption].
    + rewrite Hdd, Hd0, Hd, andb_false_r.
      assert (Hgoal : ∀ l, let w' := set_rateLimiter l w1 in
                streamDisabled w' = true ∧ accesses w' = accesses w
                ∧ invalidations w' = invalidations w
                ∧ ∃ new, requests w' = (requests w ++ new)%list
                         ∧ (length new ≤ Z.to_nat (maxRetries config))%nat
                         ∧ Forall (fun q => url q = apiBaseUrl config ++ "/events") new).
      { intros l. cbn. repeat split; try congruence. exists new.
        repeat split; first [congruence|assumption]. }
      destruct (is_http_429 err); cbn [fst].
      * apply Hgoal.
      * specialize (Hgoal (rateLimiter w1)). cbn in Hgoal.
        repeat split; try congruence. exists new. repeat split; first [congruence|assumption].
  - destruct (withRetry_stream deps config params w0)
      as (Hi & Hl & Hdd & new & Hq & Hlen).
    destruct (withRetry deps config (fetchStreamPage deps config params) w0)
      as [w1 [response|err]]; cbn [fst snd] in *.
    + unfold accept_response, set_rateLimiter.
      cbn [fst streamDisabled invalidations requests].
      split; [left; split; congruence|]. exists new. split; [congruence|lia].
    + rewrite Hdd, Hd0, Hd. cbn [negb]. rewrite andb_true_r.
      destruct (is_auth_failure err).
      * destruct (withRetry_stream deps config params (invalidate w1))
          as (Hi2 & Hl2 & Hdd2 & new2 & Hq2 & Hlen2).
        destruct (withRetry deps config (fetchStreamPage deps config params)
                    (invalidate w1)) as [w2 [response|retryErr]]; cbn [fst snd] in *.
        -- unfold accept_response, set_rateLimiter.
           cbn [fst streamDisabled invalidations requests invalidate] in *.
           split; [right; congruence|]. exists (new ++ new2)%list.
           split; [rewrite Hq2, Hq, Hq0, app_assoc; reflexivity|].
           rewrite length_app. lia.
        -- destruct (withRetry_fallback deps config params (disable_stream w2))
             as (Hi3 & Hl3 & Hdd3 & Ha3 & new3 & Hq3 & Hlen3 & _).
           destruct (withRetry deps config (fetchFallbackPage deps config params)
                       (disable_stream w2)) as [w3 [response|fallbackErr]];
             unfold accept_response, set_rateLimiter;
             cbn [fst snd streamDisabled invalidations requests invalidate
                  disable_stream] in *;
             (split; [right; congruence|]); exists (new ++ new2 ++ new3)%list;
             (split; [rewrite Hq3, Hq2, Hq, Hq0, !app_assoc; reflexivity|]);
             rewrite !length_app; lia.
      * destruct (is_http_429 err); unfold set_rateLimiter;
          cbn [fst streamDisabled invalidations requests];
          (split; [left; split; congruence|]); exists new; (split; [congruence|lia]).
Qed.

(** X29: what [fetchPage] does to the shared rate limiter.  A page is
    returned only after the limiter has read the headers of the response
    and recorded a success.  A failure with status 429 is recorded as a
    429, except when the call has just disabled the stream: the failure
    of the fallback request that follows is passed on without a record.
    Any other failure leaves the limiter as it was. *)
Theorem X29_fetchPage_limiter (deps : Deps) (config : AppConfig) (start finish : Z)
  (params : FetchPageParams) (w : World) :
  let r := fetchPage deps config start finish params w in
  match r.2 with
  | Ok page =>
      ∃ response,
        page = PageMapper.normalizePage (body response)
        ∧ rateLimiter r.1
          = recordSuccess (updateFromHeaders finish (response_headers response)
                             (rateLimiter w))
  | Err err =>
      if negb (streamDisabled w) && streamDisabled r.1
      then rateLimiter r.1 = rateLimiter w
      else if is_http_429 err
           then rateLimiter r.1 = record429 finish (rateLimiter w)
           else rateLimiter r.1 = rateLimiter w
  end.
Proof.
  intros r. subst r. unfold fetchPage.
  set (w0 := if Qltb 0 (getPreRequestDelayMs start (rateLimiter w))
             then sleep (getPreRequestDelayMs start (rateLimiter w)) w else w).
  assert (H0 : rateLimiter w0 = rateLimiter w ∧ streamDisabled w0 = streamDisabled w).
  { subst w0. destruct (Qltb 0 _); repeat split. }
  destruct H0 as (Hl0 & Hd0).
  assert (Hfirst : ∃ w1 r1,
             (if negb (streamDisabled w0)
              then withRetry deps config (fetchStreamPage deps config params) w0
              else withRetry deps config (fetchFallbackPage deps config params) w0)
             = (w1, r1)
             ∧ rateLimiter w1 = rateLimiter w ∧ streamDisabled w1 = streamDisabled w).
  { destruct (streamDisabled w0) eqn:E0.
    - destruct (withRetry_fallback deps config params w0) as (_ & Hl & Hd & _).
      destruct (withRetry deps config (fetchFallbackPage deps config params) w0)
        as [w1 r1]. exists w1, r1. cbn [fst negb] in *.
      split; [reflexivity|]. split; congruence.
    - destruct (withRetry_stream deps config params w0) as (_ & Hl & Hd & _).
      destruct (withRetry deps config (fetchStreamPage deps config params) w0)
        as [w1 r1]. exists w1, r1. cbn [fst negb] in *.
      split; [reflexivity|]. split; congruence. }
  destruct Hfirst as (w1 & r1 & -> & Hl1 & Hd1).
  destruct r1 as [response|err].
  - cbn [accept_response snd fst set_rateLimiter rateLimiter].
    exists response. rewrite Hl1. split; reflexivity.
  - rewrite Hd1. destruct (is_auth_failure err && negb (streamDisabled w)) eqn:Eauth.
    + apply andb_true_iff in Eauth as [_ Hen]. apply negb_true_iff in Hen.
      destruct (withRetry_stream deps config params (invalidate w1))
        as (_ & Hl2 & Hd2 & _).
      destruct (withRetry deps config (fetchStreamPage deps config params)
                  (invalidate w1)) as [w2 [response|retryErr]]; cbn [fst snd] in *.
      * cbn [accept_response snd fst set_rateLimiter rateLimiter].
        exists response. rewrite Hl2. cbn [invalidate rateLimiter].
        rewrite Hl1. split; reflexivity.
      * destruct (withRetry_fallback deps config params (disable_stream w2))
          as (_ & Hl3 & Hd3 & _).
        destruct (withRetry deps config (fetchFallbackPage deps config params)
                    (disable_stream w2)) as [w3 [response|fallbackErr]];
          cbn [fst snd accept_response set_rateLimiter rateLimiter streamDisabled
               disable_stream invalidate] in *.
        -- exists response. rewrite Hl3, Hl2, Hl1. split; reflexivity.
        -- rewrite Hd3, Hen. cbn [negb andb]. congruence.
    + assert (Hlatch : negb (streamDisabled w) && streamDisabled w1 = false).
      { rewrite Hd1. destruct (streamDisabled w); reflexivity. }
      destruct (is_http_429 err) eqn:E429;
        cbn [fst snd set_rateLimiter rateLimiter streamDisabled].
      * rewrite Hlatch, E429, Hl1. reflexivity.
      * rewrite Hlatch, E429. exact Hl1.
Qed.
End EventsSourceFacts.

(** ** The stream access token cache *)

Section StreamAccessFacts.
Import Api RateLimit StreamAccessManager Scenarios.

Lemma Qltb_true (a b : Q) : Qltb a b = true ↔ (a < b)%Q.
Proof.
  unfold Qltb. rewrite negb_true_iff. split.
  - intros H. apply Qnot_le_lt. intros Hle. apply Qle_bool_iff in Hle. congruence.
  - intros H. destruct (Qle_bool b a) eqn:E; [|reflexivity].
    apply Qle_bool_iff in E. apply Qlt_not_le in H. contradiction.
Qed.

Lemma Qltb_false (a b : Q) : Qltb a b = false ↔ (b <= a)%Q.
Proof.
  unfold Qltb. rewrite negb_false_iff. apply Qle_bool_iff.
Qed.

(** X30: the token cache of the stream manager, for calls that do not
    overlap.  A token fetched by a call that started at [now] is served
    again, without a request, exactly while the time is before
    [now + max(0, expiresIn − 60) · 1000]: a token that lives longer
    than 60 s is served until 60 s before the end of its lifetime and
    asked for anew from then on, and a token that lives 60 s or less is
    never served from the cache.  A failed refresh leaves the cache as
    it was, and after [invalidate] the next call asks again. *)
Theorem X30_stream_token_cache (now later : Z) (a : StreamAccess)
  (next : Result StreamAccess) (cache : option CachedStreamAccess) :
  requested (get now (Ok a) cache) = true →
  let fresh := cached (get now (Ok a) cache) in
  let served := get later next fresh in
  result (get now (Ok a) cache) = Ok a
  ∧ (requested served = false
     ↔ (inject_Z later < inject_Z now + Qmax' 0 (expiresIn a - 60) * 1000)%Q)
  ∧ (requested served = false →
     served = {| cached := fresh; requested := false; result := Ok a |})
  ∧ (requested served = true →
     result served = next
     ∧ match next with
       | Ok a' => ∃ c, cached served = Some c ∧ access c = a'
       | Err _ => cached served = fresh
       end)
  ∧ ((60 < expiresIn a)%Q →
     (requested served = false
      ↔ (inject_Z later < inject_Z now + (expiresIn a - 60) * 1000)%Q))
  ∧ ((expiresIn a <= 60)%Q → now <= later → requested served = true)
  ∧ requested (get later next (invalidate fresh)) = true
  ∧ (∀ e, requested (get now (Err e) cache) = true →
          cached (get now (Err e) cache) = cache
          ∧ result (get now (Err e) cache) = Err e).
Proof.
  intros Hreq fresh served.
  assert (Hfresh : fresh = Some {| access := a;
                                   expiresAtMs :=
                                     (inject_Z now
                                      + Qmax' 0 (expiresIn a - REFRESH_BUFFER_S) * 1000)%Q |}
                   ∧ result (get now (Ok a) cache) = Ok a).
  { subst fresh. unfold get in *. destruct cache as [c|]; [|split; reflexivity].
    destruct (Qltb (inject_Z now) (expiresAtMs c)); [discriminate|split; reflexivity]. }
  destruct Hfresh as [Hfresh Hres].
  assert (Hserved : requested served = false
                    ↔ (inject_Z later
                       < inject_Z now + Qmax' 0 (expiresIn a - 60) * 1000)%Q).
  { subst served. rewrite Hfresh. unfold get. cbn [expiresAtMs]. unfold REFRESH_BUFFER_S.
    destruct (Qltb (inject_Z later) _) eqn:E.
    - apply Qltb_true in E. cbn [requested]. tauto.
    - apply Qltb_false in E. split.
      + destruct next; discriminate.
      + intros H. apply Qlt_not_le in H. contradiction. }
  assert (Hmax : ((60 < expiresIn a)%Q → Qmax' 0 (expiresIn a - 60) = (expiresIn a - 60)%Q)
                 ∧ ((expiresIn a <= 60)%Q → (Qmax' 0 (expiresIn a - 60) <= 0)%Q)).
  { unfold Qmax'. destruct (Qle_bool 0 (expiresIn a - 60)) eqn:E.
    - apply Qle_bool_iff in E. split; [reflexivity|]. intros H. lra.
    - split; [|intros _; apply Qle_refl].
      intros H. assert (Hle : (0 <= expiresIn a - 60)%Q) by lra.
      apply Qle_bool_iff in Hle. congruence. }
  destruct Hmax as [Hlong Hshort].
  split; [exact Hres|]. split; [exact Hserved|].
  split; [|split; [|split; [|split; [|split]]]].
  - subst served. rewrite Hfresh. unfold get. cbn [expiresAtMs access].
    destruct (Qltb (inject_Z later) _); [reflexivity|destruct next; discriminate].
  - subst served. rewrite Hfresh. unfold get. cbn [expiresAtMs access].
    destruct (Qltb (inject_Z later) _); [discriminate|].
    intros _. destruct next as [a'|e]; cbn [result cached]; (split; [reflexivity|]).
    + eexists. split; reflexivity.
    + reflexivity.
  - intros H. rewrite Hserved, (Hlong H). reflexivity.
  - intros H Hle. specialize (Hshort H).
    apply not_false_iff_true. intros E. apply Hserved in E.
    assert (inject_Z now <= inject_Z later)%Q by (rewrite <- Zle_Qle; exact Hle).
    nra.
  - unfold invalidate, get. destruct next; reflexivity.
  - intros e He. unfold get in *. destruct cache as [c|]; [|split; reflexivity].
    destruct (Qltb (inject_Z now) (expiresAtMs c)); [discriminate|split; reflexivity].
Qed.

Lemma X30_stream_token_cache_witness :
  let fresh := cached (get 1768000000000 (Ok sample_access) None) in
  requested (get 1768000200000 (Err (HttpError 0)) fresh) = false
  ∧ requested (get 1768000240000 (Err (HttpError 0)) fresh) = true.
Proof.
  intros fresh.
  destruct (X30_stream_token_cache 1768000000000 1768000200000 sample_access
              (Err (HttpError 0)) None eq_refl) as (_ & _ & _ & _ & H1 & _).
  destruct (X30_stream_token_cache 1768000000000 1768000240000 sample_access
              (Err (HttpError 0)) None eq_refl) as (_ & _ & _ & _ & H2 & _).
  fold fresh in H1, H2. split.
  - apply H1; vm_compute; reflexivity.
  - apply not_false_iff_true. intros E.
    apply H2 in E; [|vm_compute; reflexivity]. vm_compute in E. discriminate.
Defined.
End StreamAccessFacts.
